(** * The self-order page: customization, cart keys and cart state

    A shallow embedding of the customer self-order script (the option
    key builder, pricing, validation, the cart map and order
    submission) together with the properties of its specification.

    Conventions of the embedding.
    - A JavaScript [Map] is an insertion-ordered association list
      ([JsMap]): [forEach], [keys], [values] and [entries] visit the
      entries in insertion order, [set] on a present key keeps its
      position, [set] on a fresh key appends.
    - Ids of the catalog are numbers, as in the scenarios of the
      specification.  The change handler looks groups up with
      [Number(dataset.groupId)], so group ids are the numeric keys of
      the selections; option ids are stored in a selection as the
      strings [String(option.id)].  The key builder only sees those
      strings, and what is proved of it is proved for arbitrary option
      id strings.
    - An amount is kept as the decimal number that the page or the
      script wrote down: a price of the catalog, a price printed by
      [toFixed(2)].  The script holds the binary floating-point number
      nearest to it, [double x], and computes with those: every
      addition and multiplication of the script is rounded by [double],
      so that 2 + 0.005 prints as 2.00 here as it does in the script.
      For amounts of at most two decimals and of ordinary size
      ([plainAmount], [plainPrices], [plainCart]) the rounded sums
      print the same two decimals as the exact sums.  Where the script
      prints an amount that it has not computed but holds ([toFixed(2)]
      of a price), the decimal is printed.
    - [Array.prototype.sort()] without comparator orders strings by code
      unit, which is [String.le]; the sorted array of a list of strings
      is unique, so any sorting function computes it.
    - Of the page, the state the script keeps and the fields it writes
      back are modelled; the markup it renders is not. *)

From Stdlib Require Import QArith Qround Qabs Qpower Lqa Ascii.
From stdpp Require Import base list strings sorting pretty.

Local Open Scope string_scope.
Local Open Scope list_scope.

(** ** Insertion-ordered maps *)

Module JsMap.
Section ops.
Context {K V : Type} `{EqDecision K}.

Fixpoint get (k : K) (m : list (K * V)) : option V :=
  match m with
  | [] => None
  | (k', v) :: m' => if decide (k' = k) then Some v else get k m'
  end.

Fixpoint set (k : K) (v : V) (m : list (K * V)) : list (K * V) :=
  match m with
  | [] => [(k, v)]
  | (k', v') :: m' =>
      if decide (k' = k) then (k', v) :: m' else (k', v') :: set k v m'
  end.

Fixpoint delete (k : K) (m : list (K * V)) : list (K * V) :=
  match m with
  | [] => []
  | (k', v') :: m' =>
      if decide (k' = k) then delete k m' else (k', v') :: delete k m'
  end.

Definition has (k : K) (m : list (K * V)) : bool :=
  match get k m with Some _ => true | None => false end.

Definition keys (m : list (K * V)) : list K := map fst m.
Definition values (m : list (K * V)) : list V := map snd m.
Definition size (m : list (K * V)) : nat := length m.

(** [new Map(pairs)]: the pairs are [set] one after the other. *)
Definition of_pairs (ps : list (K * V)) : list (K * V) :=
  foldl (fun m kv => set kv.1 kv.2 m) [] ps.

(** The invariant of a [Map]: one entry per key. *)
Definition ok (m : list (K * V)) : Prop := NoDup (keys m).
End ops.
End JsMap.

Abbreviation jsmap K V := (list (K * V)) (only parsing).

(** ** Selection state *)

(** The object stored for a chosen option: [{id, name, price}] with
    [id = String(option.id)] and [price = Number(option.price || 0)]. *)
Record chosen := Chosen {
  c_id : string;
  c_name : string;
  c_price : Q
}.

(** A selection is [{type: "single", groupName, option}] or
    [{type: "multiple", groupName, options}] with [options] a [Map] from
    option id to chosen option. *)
Inductive selection :=
| SelSingle (groupName : string) (option : option chosen)
| SelMultiple (groupName : string) (options : jsmap string chosen).

(** ** Keys *)

(** [Array.from(xs).sort()] on strings. *)
Definition sort (xs : list string) : list string := merge_sort String.le xs.

(** [xs.join(sep)]. *)
Definition join (sep : string) (xs : list string) : string :=
  String.concat sep xs.

Definition buildItemKey (menuItemId : N) (optionKey : string) : string :=
  pretty menuItemId +:+ "::" +:+ optionKey.

(** The fragment pushed on [parts] for one entry of the selections.
    Option ids are strings already; the group id is printed by the
    template literal. *)
Definition selectionPart (groupId : N) (sel : selection) : string :=
  match sel with
  | SelSingle _ o =>
      let optionId := match o with Some c => c_id c | None => "none" end in
      pretty groupId +:+ ":" +:+ optionId
  | SelMultiple _ opts =>
      let ids := sort (JsMap.keys opts) in
      pretty groupId +:+ ":" +:+
        (if decide (length ids = 0) then "none" else join "-" ids)
  end.

(** The function is only called on the [Map] of a session; a missing
    argument is treated like the empty map. *)
Definition buildOptionKeyFromSelections (selections : jsmap N selection)
  : string :=
  if decide (JsMap.size selections = 0) then "base" else
  let parts := map (fun e => selectionPart e.1 e.2) selections in
  let joined := join "|" (sort parts) in
  if decide (joined = "") then "base" else joined.

(** ** Numbers and money

    A JavaScript number is an IEEE 754 binary64 number: 53 significant
    bits, exponents of the last bit from -1074 on.  [double x] is the
    one nearest to the rational [x], the one with the even last bit on
    a tie: the number the script holds when it reads the decimal [x],
    and the result of an addition or multiplication whose exact result
    is [x].  Amounts stay below 1e21, far from overflow, and [toFixed]
    prints no exponent there.

    [x.toFixed(2)] picks the integer [n] with [n / 100] closest to
    [|x|], the larger one on a tie, and prints it with the sign of [x];
    [hundredths] is that signed integer.  A number read back from that
    text, [Number(x.toFixed(2))], is kept as the decimal [n / 100] it
    stands for. *)

(** [2^e] for an exponent of either sign. *)
Definition pow2 (e : Z) : Q := (2 ^ e)%Q.

(** The exponent of the leading bit of a positive [x]:
    [2^(ilog2 x) <= x < 2^(ilog2 x + 1)]. *)
Definition ilog2 (x : Q) : Z :=
  let l := (Z.log2 (Qnum x) - Z.log2 (Z.pos (Qden x)))%Z in
  if Qlt_le_dec x (pow2 l) then (l - 1)%Z else l.

(** The nearest integer, the even one on a tie. *)
Definition roundEven (r : Q) : Z :=
  let f := Qfloor r in
  match (r - inject_Z f ?= 1 # 2)%Q with
  | Lt => f
  | Gt => (f + 1)%Z
  | Eq => if Z.even f then f else (f + 1)%Z
  end.

(** The exponent of the last of the 53 bits of a number of the
    magnitude of [x]; it does not go below -1074 (subnormal numbers). *)
Definition fexp (x : Q) : Z := Z.max (ilog2 x - 52) (-1074).

(** The binary64 number nearest to an [x] that is not negative. *)
Definition nearest (x : Q) : Q :=
  (inject_Z (roundEven (x / pow2 (fexp x))) * pow2 (fexp x))%Q.

Definition double (x : Q) : Q :=
  if Qlt_le_dec x 0 then (- nearest (- x))%Q else nearest x.

Definition hundredths (x : Q) : Z :=
  if Qlt_le_dec x 0
  then (- Qfloor (- x * 100 + (1 # 2))%Q)%Z
  else Qfloor (x * 100 + (1 # 2))%Q.

(** [Number(x.toFixed(2))]. *)
Definition round2 (x : Q) : Q := Qmake (hundredths x) 100.

Definition twoDigits (n : N) : string :=
  pretty (n / 10)%N +:+ pretty (n mod 10)%N.

(** [x.toFixed(2)] as text (below 1e21, where no exponent is printed). *)
Definition toFixed2 (x : Q) : string :=
  let n := Z.to_N (Z.abs (hundredths x)) in
  (if Qlt_le_dec x 0 then "-" else "") +:+
  pretty (n / 100)%N +:+ "." +:+ twoDigits (n mod 100)%N.

(** [Number(v || 0)] on a field that may be missing. *)
Definition numOr0 (v : option Q) : Q := default 0%Q v.

Definition formatCurrency (value : Q) : string := toFixed2 value.

(** ** Catalog

    The page's [MENU_CONFIGS]: per menu item, its option groups and an
    optional "special" add-on.  The script only reads it; its shape is
    that of the data model of the specification, with the field names
    the script uses. *)

(** Modelled from the spec: the [selectionType] of an OptionGroup,
    ["single"] or ["multiple"].  The script tests for ["single"] and
    treats every other value as multiple. *)
Inductive selection_type := TypeSingle | TypeMultiple.

(** Modelled from the spec: an Option [{ id, name, price }] of the
    catalog.  The id is a number, as in the scenarios of the
    specification; the price may be missing. *)
Record cat_option := CatOption {
  o_id : N;
  o_name : string;
  o_price : option Q
}.

(** Modelled from the spec: an OptionGroup
    [{ id, name, selectionType, isRequired, options }] of the catalog. *)
Record group := Group {
  g_id : N;
  g_name : string;
  g_selection_type : selection_type;
  g_is_required : bool;
  g_options : list cat_option
}.

(** Modelled from the spec: the SpecialOption [{ label, priceDelta }]
    of the catalog; both fields may be missing. *)
Record special := Special {
  sp_label : option string;
  sp_price_delta : option Q
}.

(** Modelled from the spec: the part of a MenuItemConfig that
    [getMenuConfig] hands on, its groups and its special option. *)
Record menu_config := MenuConfig {
  cfg_groups : list group;
  cfg_special : option special
}.

(** [String(option.id)]. *)
Definition optionIdString (o : cat_option) : string := pretty (o_id o).

(** [{id: String(o.id), name: o.name, price: Number(o.price || 0)}]. *)
Definition chosenOf (o : cat_option) : chosen :=
  {| c_id := optionIdString o; c_name := o_name o;
     c_price := numOr0 (o_price o) |}.

(** ** Customization session and cart entries *)

Record special_info := SpecialInfo {
  si_label : string;
  si_price : Q
}.

Record modal_state := ModalState {
  ms_menuItemId : N;
  ms_name : string;
  ms_basePrice : Q;
  ms_quantity : Z;
  ms_groups : list group;
  ms_groupIndex : jsmap N group;
  ms_selections : jsmap N selection;
  ms_currentUnitPrice : option Q;
  ms_specialInfo : option special_info;
  ms_specialSelected : bool
}.

Record order_item := OrderItem {
  it_key : string;
  it_menuItemId : N;
  it_name : string;
  it_unitPrice : Q;
  it_quantity : Z;
  it_note : option string;
  it_selections : option (jsmap N selection)
}.

(** The script's globals and the fields of the page it writes. *)
Record page := Page {
  orderState : jsmap string order_item;
  modalState : option modal_state;
  noteField : string;
  orderStatusMessage : string;
  orderTotalLabel : string;
  submitDisabled : bool;
  modalHidden : bool;
  alerts : list string
}.

Definition setSelections (sels : jsmap N selection) (st : modal_state)
  : modal_state :=
  {| ms_menuItemId := ms_menuItemId st; ms_name := ms_name st;
     ms_basePrice := ms_basePrice st; ms_quantity := ms_quantity st;
     ms_groups := ms_groups st; ms_groupIndex := ms_groupIndex st;
     ms_selections := sels;
     ms_currentUnitPrice := ms_currentUnitPrice st;
     ms_specialInfo := ms_specialInfo st;
     ms_specialSelected := ms_specialSelected st |}.

Definition setCurrentUnitPrice (p : option Q) (st : modal_state)
  : modal_state :=
  {| ms_menuItemId := ms_menuItemId st; ms_name := ms_name st;
     ms_basePrice := ms_basePrice st; ms_quantity := ms_quantity st;
     ms_groups := ms_groups st; ms_groupIndex := ms_groupIndex st;
     ms_selections := ms_selections st;
     ms_currentUnitPrice := p;
     ms_specialInfo := ms_specialInfo st;
     ms_specialSelected := ms_specialSelected st |}.

Definition setQuantity (q : Z) (st : modal_state) : modal_state :=
  {| ms_menuItemId := ms_menuItemId st; ms_name := ms_name st;
     ms_basePrice := ms_basePrice st; ms_quantity := q;
     ms_groups := ms_groups st; ms_groupIndex := ms_groupIndex st;
     ms_selections := ms_selections st;
     ms_currentUnitPrice := ms_currentUnitPrice st;
     ms_specialInfo := ms_specialInfo st;
     ms_specialSelected := ms_specialSelected st |}.

Definition setSpecialSelected (b : bool) (st : modal_state) : modal_state :=
  {| ms_menuItemId := ms_menuItemId st; ms_name := ms_name st;
     ms_basePrice := ms_basePrice st; ms_quantity := ms_quantity st;
     ms_groups := ms_groups st; ms_groupIndex := ms_groupIndex st;
     ms_selections := ms_selections st;
     ms_currentUnitPrice := ms_currentUnitPrice st;
     ms_specialInfo := ms_specialInfo st;
     ms_specialSelected := b |}.

Definition addQuantity (d : Z) (it : order_item) : order_item :=
  {| it_key := it_key it; it_menuItemId := it_menuItemId it;
     it_name := it_name it; it_unitPrice := it_unitPrice it;
     it_quantity := (it_quantity it + d)%Z; it_note := it_note it;
     it_selections := it_selections it |}.

Definition withCart (cart : jsmap string order_item) (p : page) : page :=
  {| orderState := cart; modalState := modalState p;
     noteField := noteField p; orderStatusMessage := orderStatusMessage p;
     orderTotalLabel := orderTotalLabel p;
     submitDisabled := submitDisabled p; modalHidden := modalHidden p;
     alerts := alerts p |}.

Definition withModal (ms : option modal_state) (hidden : bool) (p : page)
  : page :=
  {| orderState := orderState p; modalState := ms;
     noteField := noteField p; orderStatusMessage := orderStatusMessage p;
     orderTotalLabel := orderTotalLabel p;
     submitDisabled := submitDisabled p; modalHidden := hidden;
     alerts := alerts p |}.

Definition withStatus (msg : string) (p : page) : page :=
  {| orderState := orderState p; modalState := modalState p;
     noteField := noteField p; orderStatusMessage := msg;
     orderTotalLabel := orderTotalLabel p;
     submitDisabled := submitDisabled p; modalHidden := modalHidden p;
     alerts := alerts p |}.

Definition withSubmitDisabled (b : bool) (p : page) : page :=
  {| orderState := orderState p; modalState := modalState p;
     noteField := noteField p; orderStatusMessage := orderStatusMessage p;
     orderTotalLabel := orderTotalLabel p;
     submitDisabled := b; modalHidden := modalHidden p;
     alerts := alerts p |}.

Definition withNote (v : string) (p : page) : page :=
  {| orderState := orderState p; modalState := modalState p;
     noteField := v; orderStatusMessage := orderStatusMessage p;
     orderTotalLabel := orderTotalLabel p;
     submitDisabled := submitDisabled p; modalHidden := modalHidden p;
     alerts := alerts p |}.

Definition withAlert (msg : string) (p : page) : page :=
  {| orderState := orderState p; modalState := modalState p;
     noteField := noteField p; orderStatusMessage := orderStatusMessage p;
     orderTotalLabel := orderTotalLabel p;
     submitDisabled := submitDisabled p; modalHidden := modalHidden p;
     alerts := alerts p ++ [msg] |}.

(** ** Pricing *)

(** [total += Number(o.price || 0)]: the prices in a selection are
    numbers already, and the sum is rounded. *)
Definition addPrice (total : Q) (o : chosen) : Q :=
  double (total + double (c_price o)).

(** One step of the [selections.forEach] of [calculateUnitPrice]. *)
Definition addSelectionPrice (total : Q) (sel : selection) : Q :=
  match sel with
  | SelSingle _ (Some o) => addPrice total o
  | SelSingle _ None => total
  | SelMultiple _ opts => foldl addPrice total (JsMap.values opts)
  end.

(** The running total before [toFixed]: the base price as a number, and
    the prices added to it one after the other, in the order of the
    loop. *)
Definition rawUnitPrice (basePrice : Q) (selections : jsmap N selection)
  : Q :=
  foldl addSelectionPrice (double basePrice) (JsMap.values selections).

Definition calculateUnitPrice (basePrice : Q)
    (selections : jsmap N selection) : Q :=
  round2 (rawUnitPrice basePrice selections).

(** The assignment to [modalState.currentUnitPrice] in
    [updateModalSummary]: the special delta is added to the number that
    [calculateUnitPrice] returned, and the sum is printed with two
    decimals again. *)
Definition summaryUnitPrice (st : modal_state) : Q :=
  let unitPrice := calculateUnitPrice (ms_basePrice st) (ms_selections st) in
  let unitPrice :=
    match ms_specialInfo st with
    | Some info =>
        if ms_specialSelected st
        then double (double unitPrice + double (si_price info))
        else unitPrice
    | None => unitPrice
    end in
  round2 unitPrice.

Definition updateModalSummary (st : modal_state) : modal_state :=
  setCurrentUnitPrice (Some (summaryUnitPrice st)) st.

Definition adjustModalQuantity (delta : Z) (st : modal_state)
  : modal_state :=
  updateModalSummary (setQuantity (Z.max 1 (ms_quantity st + delta)) st).

(** ** Notes *)

Definition baht : string := " ฿".

Definition formatOptionLabel (o : chosen) : string :=
  if Qlt_le_dec 0 (c_price o)
  then c_name o +:+ " (+" +:+ formatCurrency (c_price o) +:+ baht +:+ ")"
  else c_name o.

Definition selectionNotePart (sel : selection) : option string :=
  match sel with
  | SelSingle groupName (Some o) =>
      Some (groupName +:+ ": " +:+ formatOptionLabel o)
  | SelSingle _ None => None
  | SelMultiple groupName opts =>
      if decide (JsMap.size opts = 0) then None
      else Some (groupName +:+ ": " +:+
                 join ", " (map formatOptionLabel (JsMap.values opts)))
  end.

Definition buildSelectionNote (selections : jsmap N selection)
  : option string :=
  if decide (JsMap.size selections = 0) then None else
  let parts := omap selectionNotePart (JsMap.values selections) in
  if decide (length parts = 0) then None else Some (join " | " parts).

Definition defaultSpecialLabel : string := "พิเศษ".

(** [s || d] on a string: the empty string is falsy. *)
Definition strOr (s d : string) : string :=
  if decide (s = "") then d else s.

Definition buildSpecialNote (st : modal_state) : option string :=
  match ms_specialInfo st with
  | Some info =>
      if ms_specialSelected st
      then Some (strOr (si_label info) defaultSpecialLabel +:+ " (+" +:+
                 formatCurrency (si_price info) +:+ baht +:+ ")")
      else None
  | None => None
  end.

Definition cloneSelection (sel : selection) : selection :=
  match sel with
  | SelSingle groupName o =>
      SelSingle groupName
        (match o with
         | Some c => Some {| c_id := c_id c; c_name := c_name c;
                             c_price := c_price c |}
         | None => None
         end)
  | SelMultiple groupName opts =>
      SelMultiple groupName
        (foldl (fun m e =>
                  JsMap.set e.1 {| c_id := c_id e.2; c_name := c_name e.2;
                                   c_price := c_price e.2 |} m)
               [] opts)
  end.

Definition cloneSelectionState (selections : jsmap N selection)
  : jsmap N selection :=
  foldl (fun clone e => JsMap.set e.1 (cloneSelection e.2) clone)
        [] selections.

(** ** The cart *)

(** [subtotal = item.unitPrice * item.quantity; total += subtotal]. *)
Definition addLine (total : Q) (it : order_item) : Q :=
  double (total
          + double (double (it_unitPrice it) * inject_Z (it_quantity it))).

(** The [total] of [renderOrder]: the lines added up in map order. *)
Definition orderTotal (cart : jsmap string order_item) : Q :=
  foldl addLine 0%Q (JsMap.values cart).

(** [renderOrder]: of what it writes, the total label and the state of
    the submit button are kept; the list rows are a rendering of
    [orderState]. *)
Definition renderOrder (p : page) : page :=
  {| orderState := orderState p; modalState := modalState p;
     noteField := noteField p; orderStatusMessage := orderStatusMessage p;
     orderTotalLabel := formatCurrency (orderTotal (orderState p)) +:+ baht;
     submitDisabled := bool_decide (JsMap.size (orderState p) = 0);
     modalHidden := modalHidden p; alerts := alerts p |}.

(** The effect of [upsertOrderItem] on the [orderState] map.  The
    existing entry is mutated in place, so it keeps its position. *)
Definition upsertCart (item : order_item) (cart : jsmap string order_item)
  : jsmap string order_item :=
  match JsMap.get (it_key item) cart with
  | Some existing =>
      JsMap.set (it_key item) (addQuantity (it_quantity item) existing) cart
  | None => JsMap.set (it_key item) item cart
  end.

Definition upsertOrderItem (item : order_item) (p : page) : page :=
  renderOrder (withCart (upsertCart item (orderState p)) p).

Definition addSimpleItem (menuItemId : N) (name : string) (basePrice : Q)
    (note : option string) (p : page) : page :=
  upsertOrderItem
    {| it_key := buildItemKey menuItemId "base";
       it_menuItemId := menuItemId; it_name := name;
       it_unitPrice := basePrice; it_quantity := 1; it_note := note;
       it_selections := None |} p.

Definition customizedItem (st : modal_state) : order_item :=
  let optionKey := buildOptionKeyFromSelections (ms_selections st) in
  let unitPrice :=
    match ms_currentUnitPrice st with
    | Some v => v
    | None => calculateUnitPrice (ms_basePrice st) (ms_selections st)
    end in
  let noteParts :=
    option_list (buildSelectionNote (ms_selections st)) ++
    option_list (buildSpecialNote st) in
  {| it_key := buildItemKey (ms_menuItemId st) optionKey;
     it_menuItemId := ms_menuItemId st; it_name := ms_name st;
     it_unitPrice := unitPrice; it_quantity := ms_quantity st;
     it_note := if decide (length noteParts = 0) then None
                else Some (join " | " noteParts);
     it_selections := Some (cloneSelectionState (ms_selections st)) |}.

Definition addCustomizedItem (st : modal_state) (p : page) : page :=
  upsertOrderItem (customizedItem st) p.

(** The effect of [updateQuantity] on the [orderState] map. *)
Definition updateCart (itemKey : string) (delta : Z)
    (cart : jsmap string order_item) : jsmap string order_item :=
  match JsMap.get itemKey cart with
  | None => cart
  | Some item =>
      let item' := addQuantity delta item in
      if decide (it_quantity item' <= 0)%Z
      then JsMap.delete itemKey cart
      else JsMap.set itemKey item' cart
  end.

Definition updateQuantity (itemKey : string) (delta : Z) (p : page) : page :=
  match JsMap.get itemKey (orderState p) with
  | None => p
  | Some _ => renderOrder (withCart (updateCart itemKey delta (orderState p)) p)
  end.

(** ** Order submission

    [submitOrder] awaits the network.  What the network answers is the
    [submit_outcome]; the function is the code before the first [await]
    ([submitStart]) followed by the code that runs once the answer is
    there ([submitFinish]).  The refresh of the active orders after a
    success catches its own errors and touches neither cart nor note;
    it is left out. *)

Inductive error_body :=
| BodyJson (description message : option string)
| BodyText (text : string).

Inductive submit_outcome :=
| FetchRejected (message : string)
| ResponseNotOk (body : error_body)
| ResponseUnreadable (message : string)
| ResponseOk.

Record payload_item := PayloadItem {
  menu_item_id : N;
  quantity : Z;
  note : option string;
  unit_price : Q
}.

Definition itemsPayload (cart : jsmap string order_item)
  : list payload_item :=
  map (fun it =>
         {| menu_item_id := it_menuItemId it; quantity := it_quantity it;
            note := match it_note it with
                    | Some n => if decide (n = "") then None else Some n
                    | None => None
                    end;
            unit_price := round2 (it_unitPrice it) |})
      (JsMap.values cart).

Definition msgSending : string := "กำลังส่งออเดอร์...".
Definition msgSubmitFailed : string := "ส่งออเดอร์ไม่สำเร็จ".
Definition msgSubmitted : string := "ส่งออเดอร์เรียบร้อยแล้ว ขอบคุณค่ะ!".
Definition msgRetry : string := "เกิดข้อผิดพลาด กรุณาลองอีกครั้ง".

(** [o || d] on a field that may be missing or empty. *)
Definition optStrOr (o : option string) (d : string) : string :=
  match o with Some s => strOr s d | None => d end.

(** The message of the [Error] thrown for a response that is not ok. *)
Definition notOkMessage (body : error_body) : string :=
  match body with
  | BodyJson description message =>
      optStrOr description (optStrOr message msgSubmitFailed)
  | BodyText text => strOr text msgSubmitFailed
  end.

(** [Some msg] when the [try] block throws an error with that message. *)
Definition thrownMessage (o : submit_outcome) : option string :=
  match o with
  | FetchRejected m => Some m
  | ResponseNotOk body => Some (notOkMessage body)
  | ResponseUnreadable m => Some m
  | ResponseOk => None
  end.

Definition submitStart (p : page) : page :=
  withStatus msgSending (withSubmitDisabled true p).

Definition submitFinish (o : submit_outcome) (p : page) : page :=
  let p' :=
    match thrownMessage o with
    | None =>
        withStatus msgSubmitted (withNote "" (renderOrder (withCart [] p)))
    | Some m => withStatus (strOr m msgRetry) p
    end in
  withSubmitDisabled (bool_decide (JsMap.size (orderState p') = 0)) p'.

Definition submitOrder (o : submit_outcome) (p : page) : page :=
  submitFinish o (submitStart p).

(** ** The customization session *)

Definition getOptionData (st : modal_state) (groupId : N)
    (optionId : string) : option cat_option :=
  match JsMap.get groupId (ms_groupIndex st) with
  | None => None
  | Some g =>
      List.find (fun o => bool_decide (optionIdString o = optionId))
                (g_options g)
  end.

Definition initialSelection (g : group) : selection :=
  match g_selection_type g with
  | TypeSingle =>
      let defaultOption :=
        if g_is_required g then head (g_options g) else None in
      SelSingle (g_name g) (chosenOf <$> defaultOption)
  | TypeMultiple => SelMultiple (g_name g) []
  end.

Definition initializeSelections (groups : list group)
  : jsmap N selection :=
  foldl (fun sels g => JsMap.set (g_id g) (initialSelection g) sels)
        [] groups.

(** What rendering one option card does to the group's selection
    object.  [None] is the [TypeError] of reading [selection.options.has]
    on a single-type selection.  On a multiple-type selection the
    assignment of an [option] property is not modelled: every reader
    dispatches on [type] first and never reads it there. *)
Definition renderOption (g : group) (sel : selection)
    (io : nat * cat_option) : option selection :=
  match g_selection_type g, sel with
  | TypeSingle, SelSingle groupName cur =>
      let isSelected :=
        match cur with
        | Some c => bool_decide (c_id c = optionIdString io.2)
        | None => false
        end in
      if isSelected then Some sel
      else if bool_decide (cur = None) && g_is_required g
              && bool_decide (io.1 = 0%nat)
      then Some (SelSingle groupName (Some (chosenOf io.2)))
      else Some sel
  | TypeSingle, SelMultiple _ _ => Some sel
  | TypeMultiple, SelMultiple _ _ => Some sel
  | TypeMultiple, SelSingle _ _ => None
  end.

Fixpoint renderOptions (g : group) (sel : selection)
    (ios : list (nat * cat_option)) : option selection :=
  match ios with
  | [] => Some sel
  | io :: ios' =>
      match renderOption g sel io with
      | Some sel' => renderOptions g sel' ios'
      | None => None
      end
  end.

Definition renderGroup (sels : jsmap N selection) (g : group)
  : option (jsmap N selection) :=
  match JsMap.get (g_id g) sels with
  | None =>
      match g_selection_type g, g_is_required g, g_options g with
      | TypeMultiple, _, [] => Some sels
      | TypeSingle, true, [] => Some sels
      | _, _, _ => None
      end
  | Some sel =>
      match renderOptions g sel (imap pair (g_options g)) with
      | Some sel' => Some (JsMap.set (g_id g) sel' sels)
      | None => None
      end
  end.

(** The effect of [renderGroups] on the selections. *)
Fixpoint renderGroups (groups : list group) (sels : jsmap N selection)
  : option (jsmap N selection) :=
  match groups with
  | [] => Some sels
  | g :: groups' =>
      match renderGroup sels g with
      | Some sels' => renderGroups groups' sels'
      | None => None
      end
  end.

Definition specialInfoOf (sp : special) : special_info :=
  {| si_label := optStrOr (sp_label sp) defaultSpecialLabel;
     si_price := numOr0 (sp_price_delta sp) |}.

(** The [modalState] object built by [openCustomization], before the
    selections are initialised. *)
Definition newModalState (menuItemId : N) (name : string) (basePrice : Q)
    (config : menu_config) : modal_state :=
  {| ms_menuItemId := menuItemId; ms_name := name;
     ms_basePrice := basePrice; ms_quantity := 1;
     ms_groups := cfg_groups config;
     ms_groupIndex :=
       JsMap.of_pairs (map (fun g => (g_id g, g)) (cfg_groups config));
     ms_selections := [];
     ms_currentUnitPrice := Some basePrice;
     ms_specialInfo := specialInfoOf <$> cfg_special config;
     ms_specialSelected := false |}.

(** The session state once [openCustomization] has run: selections
    initialised, groups rendered, summary updated.  [None] when
    rendering throws. *)
Definition openedState (menuItemId : N) (name : string) (basePrice : Q)
    (config : menu_config) : option modal_state :=
  match renderGroups (cfg_groups config)
          (initializeSelections (cfg_groups config)) with
  | Some sels =>
      Some (updateModalSummary
              (setSelections sels
                 (newModalState menuItemId name basePrice config)))
  | None => None
  end.

Definition openCustomization (menuItemId : N) (name : string)
    (basePrice : Q) (config : menu_config) (description : string)
    (p : page) : option page :=
  match cfg_special config, cfg_groups config with
  | None, [] =>
      Some (addSimpleItem menuItemId name basePrice
              (if decide (description = "") then None else Some description)
              p)
  | _, _ =>
      match openedState menuItemId name basePrice config with
      | Some st => Some (withModal (Some st) false p)
      | None => None
      end
  end.

Definition closeCustomization (p : page) : page := withModal None true p.

Definition msgNoState : string := "ไม่พบข้อมูลตัวเลือก".
Definition msgChooseOne : string := "กรุณาเลือกตัวเลือกสำหรับ ".
Definition msgChooseSome : string := "กรุณาเลือกอย่างน้อย 1 รายการใน ".

(** Whether a selection leaves a required group unanswered, and with
    which message. *)
Definition violation (g : group) (sel : selection) : option string :=
  match sel with
  | SelSingle _ None => Some (msgChooseOne +:+ g_name g)
  | SelSingle _ (Some _) => None
  | SelMultiple _ opts =>
      if decide (JsMap.size opts = 0)
      then Some (msgChooseSome +:+ g_name g) else None
  end.

(** The [for ... of modalState.selections.entries()] loop. *)
Fixpoint validateEntries (groupIndex : jsmap N group)
    (entries : list (N * selection)) : option string :=
  match entries with
  | [] => None
  | (groupId, sel) :: rest =>
      match JsMap.get groupId groupIndex with
      | None => validateEntries groupIndex rest
      | Some g =>
          if g_is_required g then
            match violation g sel with
            | Some msg => Some msg
            | None => validateEntries groupIndex rest
            end
          else validateEntries groupIndex rest
      end
  end.

Definition validateSelections (ms : option modal_state) : option string :=
  match ms with
  | None => Some msgNoState
  | Some st => validateEntries (ms_groupIndex st) (ms_selections st)
  end.

(** The [change] listener of the option cards, for an input with
    [dataset.groupId], [dataset.optionId] and [checked]. *)
Definition changeSelection (st : modal_state) (groupId : N)
    (optionId : string) (checked : bool) (sel : selection) : selection :=
  match sel with
  | SelSingle groupName cur =>
      if decide (optionId = "") then SelSingle groupName None
      else
        match getOptionData st groupId optionId with
        | Some od => SelSingle groupName (Some (chosenOf od))
        | None => sel
        end
  | SelMultiple groupName opts =>
      if checked then
        match getOptionData st groupId optionId with
        | Some od =>
            SelMultiple groupName
              (JsMap.set (optionIdString od) (chosenOf od) opts)
        | None => sel
        end
      else SelMultiple groupName (JsMap.delete optionId opts)
  end.

Definition onOptionChange (groupId : N) (optionId : string)
    (checked : bool) (st : modal_state) : modal_state :=
  match JsMap.get groupId (ms_selections st) with
  | None => st
  | Some sel =>
      updateModalSummary
        (setSelections
           (JsMap.set groupId
              (changeSelection st groupId optionId checked sel)
              (ms_selections st))
           st)
  end.

(** The [change] listener of the special toggle. *)
Definition onSpecialToggle (checked : bool) (st : modal_state)
  : modal_state :=
  match ms_specialInfo st with
  | None => st
  | Some _ => updateModalSummary (setSpecialSelected checked st)
  end.

(** The [click] listener of the add button. *)
Definition onAddClick (p : page) : page :=
  match modalState p with
  | None => p
  | Some st =>
      let validationError := validateSelections (Some st) in
      match validationError with
      | Some msg =>
          if decide (msg = "")
          then closeCustomization (addCustomizedItem st p)
          else withAlert msg p
      | None => closeCustomization (addCustomizedItem st p)
      end
  end.

(** The listeners that act on the open session, lifted to the page. *)
Definition onModal (f : modal_state -> modal_state) (p : page) : page :=
  match modalState p with
  | None => p
  | Some st => withModal (Some (f st)) (modalHidden p) p
  end.

(** ** Vocabulary of the specification *)

(** The option ids a selection has chosen. *)
Definition chosenIds (sel : selection) : list string :=
  match sel with
  | SelSingle _ o => option_list (c_id <$> o)
  | SelMultiple _ opts => JsMap.keys opts
  end.

Definition sameKind (a b : selection) : Prop :=
  match a, b with
  | SelSingle _ _, SelSingle _ _ => True
  | SelMultiple _ _, SelMultiple _ _ => True
  | _, _ => False
  end.

(** The same chosen option of a single group, the same set of chosen
    options of a multiple group. *)
Definition sameChoice (a b : selection) : Prop :=
  sameKind a b /\ forall id, id ∈ chosenIds a <-> id ∈ chosenIds b.

(** Two selection states are set-equal per group. *)
Definition setEqualPerGroup (s1 s2 : jsmap N selection) : Prop :=
  forall g,
    match JsMap.get g s1, JsMap.get g s2 with
    | Some a, Some b => sameChoice a b
    | None, None => True
    | _, _ => False
    end.

(** The [Map] invariant for a selection state and the option maps in
    it. *)
Definition selectionOk (sel : selection) : Prop :=
  match sel with
  | SelSingle _ _ => True
  | SelMultiple _ opts => JsMap.ok opts
  end.

Definition selectionsOk (s : jsmap N selection) : Prop :=
  JsMap.ok s /\ Forall (fun e => selectionOk e.2) s.

(** Whether the character [c] occurs in [s]. *)
Fixpoint hasChar (c : ascii) (s : string) : bool :=
  match s with
  | EmptyString => false
  | String c' s' => bool_decide (c' = c) || hasChar c s'
  end.

(** An option id that cannot be mistaken for a separator of the key or
    for the word ["none"].  Every [String(n)] of a number is one; an id
    string such as ["1-2"] is not. *)
Definition idOk (id : string) : Prop :=
  hasChar "-"%char id = false /\ hasChar "|"%char id = false /\ id <> "none".

Definition idsOk (s : jsmap N selection) : Prop :=
  Forall (fun e => Forall idOk (chosenIds e.2)) s.

(** Two selection states have the same groups, of the same types. *)
Definition sameShape (s1 s2 : jsmap N selection) : Prop :=
  forall g,
    match JsMap.get g s1, JsMap.get g s2 with
    | Some a, Some b => sameKind a b
    | None, None => True
    | _, _ => False
    end.

(** Two selection states differ in the chosen option(s) of a group. *)
Definition differInSomeGroup (s1 s2 : jsmap N selection) : Prop :=
  exists g a b,
    JsMap.get g s1 = Some a /\ JsMap.get g s2 = Some b /\
    ~ (forall id, id ∈ chosenIds a <-> id ∈ chosenIds b).

Definition isDigit (c : ascii) : bool :=
  bool_decide (c ∈ ["0"; "1"; "2"; "3"; "4"; "5"; "6"; "7"; "8"; "9"]%char).

Fixpoint allDigits (s : string) : bool :=
  match s with
  | EmptyString => true
  | String c s' => isDigit c && allDigits s'
  end.

(** What follows ["groupId:"] in the fragment of a selection. *)
Definition selectionRest (sel : selection) : string :=
  match sel with
  | SelSingle _ o => match o with Some c => c_id c | None => "none" end
  | SelMultiple _ opts =>
      if decide (length (sort (JsMap.keys opts)) = 0) then "none"
      else join "-" (sort (JsMap.keys opts))
  end.

(** The array [parts] before it is sorted. *)
Definition parts (s : jsmap N selection) : list string :=
  map (fun e => selectionPart e.1 e.2) s.

(** The states a customization session of a menu item goes through:
    the state [openCustomization] builds, and from there the change
    events of the option cards, of the special toggle, and the quantity
    buttons. *)
Inductive sessionState (config : menu_config) : modal_state -> Prop :=
| session_open menuItemId name basePrice st :
    openedState menuItemId name basePrice config = Some st ->
    sessionState config st
| session_change groupId optionId checked st :
    sessionState config st ->
    sessionState config (onOptionChange groupId optionId checked st)
| session_special checked st :
    sessionState config st ->
    sessionState config (onSpecialToggle checked st)
| session_quantity delta st :
    sessionState config st ->
    sessionState config (adjustModalQuantity delta st).

Definition isSingle (sel : selection) : bool :=
  match sel with SelSingle _ _ => true | SelMultiple _ _ => false end.

(** The groups of a selection state with their types, in map order. *)
Definition shape (s : jsmap N selection) : jsmap N bool :=
  map (fun e => (e.1, isSingle e.2)) s.

(** The three facts kept along a session: the map invariants, option
    ids that are numerals, and the groups and their types. *)
Definition selectionsInv (sh : jsmap N bool) (s : jsmap N selection)
  : Prop :=
  selectionsOk s /\ idsOk s /\ shape s = sh.

(** A step on one selection object that keeps its type, the map
    invariant of its options and the form of its option ids. *)
Definition keepsSelection (sel sel' : selection) : Prop :=
  isSingle sel' = isSingle sel
  /\ (selectionOk sel -> selectionOk sel')
  /\ (Forall idOk (chosenIds sel) -> Forall idOk (chosenIds sel')).

(** A required group is violated: its single selection has no chosen
    option, or its multiple selection has an empty chosen set. *)
Definition unanswered (sel : selection) : bool :=
  match sel with
  | SelSingle _ o => bool_decide (o = None)
  | SelMultiple _ opts => bool_decide (JsMap.size opts = 0)
  end.

Definition violatedGroup (groupIndex : jsmap N group)
    (e : N * selection) : option group :=
  match JsMap.get e.1 groupIndex with
  | Some g => if g_is_required g && unanswered e.2 then Some g else None
  | None => None
  end.

(** The first entry of the selections whose group is required and
    violated, with that group. *)
Definition firstViolation (st : modal_state)
  : option (group * selection) :=
  match List.find (fun e => bool_decide
                      (is_Some (violatedGroup (ms_groupIndex st) e)))
                  (ms_selections st) with
  | Some e =>
      match violatedGroup (ms_groupIndex st) e with
      | Some g => Some (g, e.2)
      | None => None
      end
  | None => None
  end.

(** The error that names a violated group. *)
Definition violationMessage (g : group) (sel : selection) : string :=
  match sel with
  | SelSingle _ _ => msgChooseOne +:+ g_name g
  | SelMultiple _ _ => msgChooseSome +:+ g_name g
  end.

(** The prices of the chosen options of a selection state, added up
    exactly: for a single selection the price of the chosen option (0
    if none), for a multiple selection the sum of the prices of all
    chosen options. *)
Definition sumPrices (l : list chosen) : Q :=
  foldr (fun o acc => (c_price o + acc)%Q) 0%Q l.

Definition selectionTotal (sel : selection) : Q :=
  match sel with
  | SelSingle _ (Some o) => c_price o
  | SelSingle _ None => 0%Q
  | SelMultiple _ opts => sumPrices (JsMap.values opts)
  end.

Definition optionsTotal (s : jsmap N selection) : Q :=
  foldr (fun e acc => (selectionTotal e.2 + acc)%Q) 0%Q s.

(** The special price delta if the special toggle is on. *)
Definition specialDelta (st : modal_state) : Q :=
  match ms_specialInfo st with
  | Some info => if ms_specialSelected st then si_price info else 0%Q
  | None => 0%Q
  end.

(** Standard rounding to two decimals: to the nearest hundredth, a tie
    away from zero. *)
Definition standardRound2 (x : Q) : Q :=
  Qmake (Z.sgn (Qnum x) * Qfloor (Qabs x * 100 + (1 # 2))%Q) 100.

(** The unit price as the specification words it: one sum, rounded
    once. *)
Definition specUnitPrice (st : modal_state) : Q :=
  standardRound2
    (ms_basePrice st + optionsTotal (ms_selections st) + specialDelta st)%Q.

(** An amount with at most two decimals. *)
Definition wholeHundredths (x : Q) : Prop := (round2 x == x)%Q.

(** ** Example data *)

(** Closed goals about concrete maps and lists. *)
Ltac concrete_nodup :=
  unfold JsMap.ok;
  match goal with
  | |- ?P => apply (bool_decide_unpack P); vm_compute; exact I
  end.
Ltac concrete_mem :=
  rewrite ?elem_of_cons, ?elem_of_nil; tauto.

Definition key_example_a : jsmap N selection :=
  [ (3%N, SelMultiple "Toppings"
            [("10", Chosen "10" "Egg" 10); ("2", Chosen "2" "Pork" 15)]);
    (1%N, SelSingle "Size" (Some (Chosen "7" "Large" 5))) ].

Definition key_example_b : jsmap N selection :=
  [ (1%N, SelSingle "Size" (Some (Chosen "7" "Large" 5)));
    (3%N, SelMultiple "Toppings"
            [("2", Chosen "2" "Pork" 15); ("10", Chosen "10" "Egg" 10)]) ].


(** A menu item with one multiple-selection group whose option ids are
    1, 2 and 12, and two sessions on it: one ticks options 1 and 2, the
    other ticks option 12. *)
Definition toppings_config : menu_config :=
  {| cfg_groups :=
       [ {| g_id := 10; g_name := "Toppings";
            g_selection_type := TypeMultiple; g_is_required := false;
            g_options :=
              [ {| o_id := 1; o_name := "Egg"; o_price := Some 10%Q |};
                {| o_id := 2; o_name := "Pork"; o_price := Some 15%Q |};
                {| o_id := 12; o_name := "Tofu"; o_price := Some 5%Q |} ] |} ];
     cfg_special := None |}.

Definition toppings_open : modal_state :=
  updateModalSummary
    (setSelections (initializeSelections (cfg_groups toppings_config))
       (newModalState 5 "Noodles" 40 toppings_config)).

Definition toppings_1_2 : modal_state :=
  onOptionChange 10 "2" true (onOptionChange 10 "1" true toppings_open).

Definition toppings_12 : modal_state :=
  onOptionChange 10 "12" true toppings_open.

(** The carts the page can hold: empty at load and after a successful
    submission, then changed by [upsertOrderItem] and [updateQuantity]
    only. *)
Inductive cartState : jsmap string order_item -> Prop :=
| cart_empty : cartState []
| cart_upsert item cart : cartState cart -> cartState (upsertCart item cart)
| cart_update itemKey delta cart :
    cartState cart -> cartState (updateCart itemKey delta cart).

(** The page as the script finds it when it is loaded.  The cart is
    the empty [Map] and there is no session.  What the note field, the
    status line, the total label, the submit button and the modal show
    comes from the markup of the page, which is not part of the script:
    the script writes none of them before its first event. *)
Definition loadedPage (note status total : string) (disabled hidden : bool)
  : page :=
  {| orderState := []; modalState := None; noteField := note;
     orderStatusMessage := status; orderTotalLabel := total;
     submitDisabled := disabled; modalHidden := hidden; alerts := [] |}.

(** A page whose markup starts with empty fields, a disabled submit
    button and a hidden modal. *)
Definition emptyPage : page := loadedPage "" "" "" true true.

(** The states of the page: as loaded, with whatever the markup shows,
    and after each of the events the script listens to (the add buttons
    of the menu cards, the controls of the customization modal, the
    quantity buttons of the cart, the note field, the submit button
    with the answer to its request). *)
Inductive pageState : page -> Prop :=
| page_load note status total disabled hidden :
    pageState (loadedPage note status total disabled hidden)
| page_add_simple menuItemId name basePrice p :
    pageState p -> pageState (addSimpleItem menuItemId name basePrice None p)
| page_open menuItemId name basePrice config description p p' :
    pageState p ->
    openCustomization menuItemId name basePrice config description p
      = Some p' ->
    pageState p'
| page_option_change groupId optionId checked p :
    pageState p ->
    pageState (onModal (onOptionChange groupId optionId checked) p)
| page_special_toggle checked p :
    pageState p -> pageState (onModal (onSpecialToggle checked) p)
| page_modal_quantity delta p :
    pageState p -> pageState (onModal (adjustModalQuantity delta) p)
| page_add_click p : pageState p -> pageState (onAddClick p)
| page_close p : pageState p -> pageState (closeCustomization p)
| page_update_quantity itemKey delta p :
    pageState p -> pageState (updateQuantity itemKey delta p)
| page_note v p : pageState p -> pageState (withNote v p)
| page_submit o p : pageState p -> pageState (submitOrder o p).

Definition tea : order_item :=
  {| it_key := "1::base"; it_menuItemId := 1; it_name := "Tea";
     it_unitPrice := 50; it_quantity := 1; it_note := None;
     it_selections := None |}.

Definition rice : order_item :=
  {| it_key := "3::base"; it_menuItemId := 3; it_name := "Rice";
     it_unitPrice := 10; it_quantity := 2; it_note := None;
     it_selections := None |}.

Definition tea_and_rice : page :=
  upsertOrderItem rice (upsertOrderItem tea emptyPage).

(** A menu item whose sauce group is required and lets several sauces
    be ticked: nothing is ticked when the session opens. *)
Definition sauce_config : menu_config :=
  {| cfg_groups :=
       [ {| g_id := 20; g_name := "Sauce";
            g_selection_type := TypeMultiple; g_is_required := true;
            g_options :=
              [ {| o_id := 1; o_name := "Chili"; o_price := None |};
                {| o_id := 2; o_name := "Soy"; o_price := None |} ] |} ];
     cfg_special := None |}.

Definition sauce_open : modal_state :=
  updateModalSummary
    (setSelections (initializeSelections (cfg_groups sauce_config))
       (newModalState 7 "Dumplings" 60 sauce_config)).

Definition sauce_page : page := withModal (Some sauce_open) false tea_and_rice.

(** A menu item without groups and with a special add-on of 10, the
    session on it as opened (special off) and after the special toggle
    is switched on. *)
Definition padthai_config : menu_config :=
  {| cfg_groups := [];
     cfg_special := Some {| sp_label := None; sp_price_delta := Some 10%Q |} |}.

Definition padthai_plain : modal_state :=
  updateModalSummary
    (setSelections (initializeSelections (cfg_groups padthai_config))
       (newModalState 8 "Pad Thai" 40 padthai_config)).

Definition padthai_special : modal_state :=
  onSpecialToggle true padthai_plain.

(** The scenario of the specification: item 2 with base price 40 and
    one required single group 10 whose only option 100 costs 5. *)
Definition scenario_config : menu_config :=
  {| cfg_groups :=
       [ {| g_id := 10; g_name := "Size";
            g_selection_type := TypeSingle; g_is_required := true;
            g_options :=
              [ {| o_id := 100; o_name := "Large";
                   o_price := Some 5%Q |} ] |} ];
     cfg_special := None |}.

(** A menu item whose prices have three decimals: base price 20.004 and
    a special add-on of 5.004, with the special toggle switched on. *)
Definition fine_priced_config : menu_config :=
  {| cfg_groups := [];
     cfg_special :=
       Some {| sp_label := None; sp_price_delta := Some (5004 # 1000)%Q |} |}.

Definition fine_priced_special : modal_state :=
  onSpecialToggle true
    (updateModalSummary
       (setSelections (initializeSelections (cfg_groups fine_priced_config))
          (newModalState 9 "Set menu" (20004 # 1000) fine_priced_config))).

(** A menu item with an option that makes the dish cheaper, the session
    on it as opened and after that option is ticked. *)
Definition discount_config : menu_config :=
  {| cfg_groups :=
       [ {| g_id := 10; g_name := "Changes";
            g_selection_type := TypeMultiple; g_is_required := false;
            g_options :=
              [ {| o_id := 3; o_name := "No rice";
                   o_price := Some (-5)%Q |} ] |} ];
     cfg_special := None |}.

Definition discount_open : modal_state :=
  updateModalSummary
    (setSelections (initializeSelections (cfg_groups discount_config))
       (newModalState 4 "Curry" 40 discount_config)).

Definition discount_ticked : modal_state :=
  onOptionChange 10 "3" true discount_open.

(** ** The menu cards and the cart buttons *)

(** Modelled from the spec: an entry of the embedded catalog as the page
    supplies it, before [getMenuConfig] normalises it; [groups] may be
    missing or not an array.  The image and the base price of the entry
    are not read by the cart code (the price of a menu card comes from
    its [data-item-price]). *)
Record raw_config := RawConfig {
  rc_groups : option (list group);
  rc_special : option special
}.

(** [menuConfigs] is the object [window.MENU_CONFIGS], keyed by menu
    item id. *)
Definition getMenuConfig (menuConfigs : jsmap N raw_config)
    (menuItemId : N) : menu_config :=
  match JsMap.get menuItemId menuConfigs with
  | None => {| cfg_groups := []; cfg_special := None |}
  | Some config =>
      {| cfg_groups := default [] (rc_groups config);
         cfg_special := rc_special config |}
  end.

(** The [click] listener of the add button of a menu card, with the
    [data-item-*] attributes of the card. *)
Definition onMenuAddClick (menuConfigs : jsmap N raw_config)
    (menuItemId : N) (name : string) (price : Q) (description : string)
    (p : page) : option page :=
  let config := getMenuConfig menuConfigs menuItemId in
  match cfg_groups config, cfg_special config with
  | [], None => Some (addSimpleItem menuItemId name price None p)
  | _, _ => openCustomization menuItemId name price config description p
  end.

(** The [click] listener of the cart list, for a button with
    [data-item-key] and [data-action]. *)
Definition onCartButtonClick (itemKey : string) (action : string)
    (p : page) : page :=
  if decide (itemKey = "") then p
  else updateQuantity itemKey
         (if decide (action = "increase") then 1 else -1)%Z p.

(** [n] clicks on the add button of a menu card without options. *)
Definition addSimpleItemTimes (n : nat) (menuItemId : N) (name : string)
    (basePrice : Q) (p : page) : page :=
  Nat.iter n (addSimpleItem menuItemId name basePrice None) p.

(** ** Polling of the active orders

    [setInterval] hands out a new timer id and starts that timer,
    [clearInterval] stops the timer with the id it is given. *)

Record poller := Poller {
  pollHandle : option positive;
  intervals : list positive;
  nextInterval : positive;
  activeOrdersHidden : bool
}.

Definition ensurePolling (s : poller) : poller :=
  match pollHandle s with
  | Some _ => s
  | None =>
      {| pollHandle := Some (nextInterval s);
         intervals := intervals s ++ [nextInterval s];
         nextInterval := Pos.succ (nextInterval s);
         activeOrdersHidden := activeOrdersHidden s |}
  end.

Definition stopPolling (s : poller) : poller :=
  match pollHandle s with
  | Some h =>
      {| pollHandle := None;
         intervals := filter (fun i => i <> h) (intervals s);
         nextInterval := nextInterval s;
         activeOrdersHidden := activeOrdersHidden s |}
  | None => s
  end.

Definition setActiveOrdersHidden (b : bool) (s : poller) : poller :=
  {| pollHandle := pollHandle s; intervals := intervals s;
     nextInterval := nextInterval s; activeOrdersHidden := b |}.

(** An element of the [orders] array of the answer, as far as
    [buildOrderCard] depends on it: [null] or [undefined], or a value
    whose properties can be read, with its [items] if they are an array
    ([itemsPresent] tells for each item whether it is such a value,
    [true], or [null] or [undefined], [false]; no array is the empty
    list). *)
Inductive active_order :=
| OrderMissing
| OrderData (itemsPresent : list bool).

(** [buildOrderCard] returns markup, which is not modelled, or throws
    the [TypeError] of reading a property of [null] or [undefined]: of
    the order itself ([order.items]) or of one of its items
    ([item.quantity]).  The page is served over http, so that
    [window.location.origin] is a base for [new URL]. *)
Definition buildOrderCard (order : active_order) : option unit :=
  match order with
  | OrderMissing => None
  | OrderData itemsPresent =>
      if forallb (fun present => present) itemsPresent then Some tt else None
  end.

(** How a function ends: it returns, or it throws; either way with the
    state it has reached. *)
Inductive outcome (S : Type) :=
| Returned (s : S)
| Thrown (s : S).
Arguments Returned {S} s.
Arguments Thrown {S} s.

(** Of [renderActiveOrders] the visibility of the section and the
    polling are kept; the cards are markup.  The section is shown
    before the cards are built; when a card throws, the list is not
    replaced and [ensurePolling] is not reached. *)
Definition renderActiveOrders (orders : list active_order) (s : poller)
  : outcome poller :=
  match orders with
  | [] => Returned (stopPolling (setActiveOrdersHidden true s))
  | _ :: _ =>
      let shown := setActiveOrdersHidden false s in
      if forallb (fun order => bool_decide (is_Some (buildOrderCard order)))
                 orders
      then Returned (ensurePolling shown)
      else Thrown shown
  end.

(** What the request of [fetchActiveOrders] comes back with: a failure
    (rejected, not ok, unreadable, or a body without properties), or
    the orders of the table, an answer without an [orders] array
    counting as no orders. *)
Inductive orders_response :=
| OrdersFailed
| OrdersOk (orders : list active_order).

(** The [catch] of [fetchActiveOrders] logs what is thrown, also by
    [renderActiveOrders], and goes on. *)
Definition fetchActiveOrders (r : orders_response) (s : poller) : poller :=
  match r with
  | OrdersFailed => s
  | OrdersOk orders =>
      match renderActiveOrders orders s with
      | Returned s' => s'
      | Thrown s' => s'
      end
  end.

(** The page polls with one timer: the running timers are the one in
    [pollHandle], if any. *)
Definition oneTimer (s : poller) : Prop :=
  intervals s = option_list (pollHandle s).

(** ** Events inside the customization modal *)

Inductive modal_event :=
| EvOptionChange (groupId : N) (optionId : string) (checked : bool)
| EvSpecialToggle (checked : bool)
| EvQuantity (delta : Z).

Definition modalEvent (e : modal_event) (p : page) : page :=
  match e with
  | EvOptionChange groupId optionId checked =>
      onModal (onOptionChange groupId optionId checked) p
  | EvSpecialToggle checked => onModal (onSpecialToggle checked) p
  | EvQuantity delta => onModal (adjustModalQuantity delta) p
  end.

Definition modalEvents (es : list modal_event) (p : page) : page :=
  foldl (fun q e => modalEvent e q) p es.

(** No option is chosen in any group of a selection state. *)
Definition nothingChosen (s : jsmap N selection) : Prop :=
  Forall (fun e => chosenIds e.2 = []) s.

(** The special toggle of a session is on (and the item has a special
    option). *)
Definition specialOn (st : modal_state) : Prop :=
  is_Some (ms_specialInfo st) /\ ms_specialSelected st = true.

(** The exact amount of one cart entry, unit price times quantity, and
    the exact sum over a list of entries. *)
Definition lineTotal (it : order_item) : Q :=
  (it_unitPrice it * inject_Z (it_quantity it))%Q.

Definition sumLines (l : list order_item) : Q :=
  foldr (fun it acc => (lineTotal it + acc)%Q) 0%Q l.

(** The cart entry of a menu item without options, at a quantity. *)
Definition simpleEntry (menuItemId : N) (name : string) (basePrice : Q)
    (q : Z) : order_item :=
  {| it_key := buildItemKey menuItemId "base";
     it_menuItemId := menuItemId; it_name := name;
     it_unitPrice := basePrice; it_quantity := q; it_note := None;
     it_selections := None |}.

Definition noOptions : menu_config :=
  {| cfg_groups := []; cfg_special := None |}.

(** What holds of every entry of a cart the page can reach: it is stored
    under its own key, the key is built from its menu item id, and its
    quantity is at least 1. *)
Definition entryOk (e : string * order_item) : Prop :=
  it_key e.2 = e.1
  /\ (exists optionKey, e.1 = buildItemKey (it_menuItemId e.2) optionKey)
  /\ (1 <= it_quantity e.2)%Z.

(** The page after a click on the add buttons of tea and of rice, two
    menu items without options. *)
Definition tea_rice_clicked : page :=
  addSimpleItem 3 "Rice" 10 None (addSimpleItem 1 "Tea" 50 None emptyPage).

(** The type of a catalog group as the selections record it. *)
Definition groupIsSingle (g : group) : bool :=
  match g_selection_type g with TypeSingle => true | TypeMultiple => false end.

(** The chosen option objects of a selection. *)
Definition chosenOptions (sel : selection) : list chosen :=
  match sel with
  | SelSingle _ o => option_list o
  | SelMultiple _ opts => JsMap.values opts
  end.

(** The chosen option [c], held under group id [g], is the copy of an
    option that the catalog lists in a group with that id. *)
Definition fromCatalog (config : menu_config) (g : N) (c : chosen) : Prop :=
  exists grp o,
    grp ∈ cfg_groups config /\ g_id grp = g /\ o ∈ g_options grp
    /\ c = chosenOf o.

Definition selectionFromCatalog (config : menu_config)
    (e : N * selection) : Prop :=
  match e.2 with
  | SelSingle _ o => from_option (fromCatalog config e.1) True o
  | SelMultiple _ opts =>
      Forall (fun kv => fromCatalog config e.1 kv.2 /\ kv.1 = c_id kv.2)
             opts
  end.

(** A group that the user has to answer before the item can go into the
    cart: required, and either a multiple-selection group or a single
    one without options (which gets no default). *)
Definition needsAnswer (g : group) : bool :=
  g_is_required g
  && match g_selection_type g with
     | TypeSingle => bool_decide (g_options g = [])
     | TypeMultiple => true
     end.

(** The poller after the answers to a sequence of requests for the
    active orders. *)
Definition pollerRun (rs : list orders_response) (s : poller)
  : poller :=
  foldl (fun s r => fetchActiveOrders r s) s rs.

Definition idlePoller : poller :=
  {| pollHandle := None; intervals := []; nextInterval := 1;
     activeOrdersHidden := true |}.

(** Whether every card of a list of orders can be built. *)
Definition cardsBuild (orders : list active_order) : Prop :=
  Forall (fun order => is_Some (buildOrderCard order)) orders.

(** ** Selection states with hyphenated option ids

    Two selection states of one multiple-selection group whose options
    have the id strings ["1-2"], ["1"] and ["2"]: one holds the option
    ["1-2"], the other the options ["1"] and ["2"]. *)
Definition hyphen_mixed : jsmap N selection :=
  [(10%N, SelMultiple "Toppings" [("1-2", Chosen "1-2" "Mixed" 0)])].

Definition hyphen_1_2 : jsmap N selection :=
  [(10%N, SelMultiple "Toppings"
            [("1", Chosen "1" "Egg" 0); ("2", Chosen "2" "Pork" 0)])].

(** ** Amounts of two decimals

    The range in which the rounded sums of the script print the same
    two decimals as the exact sums.  A plain amount has at most two
    decimals and a magnitude of at most a million; with at most a
    thousand such amounts in a sum, the rounded sum stays within 0.001
    of the exact one, which is a whole number of hundredths, so
    [toFixed(2)] prints that number. *)
Definition plainAmount (x : Q) : Prop :=
  wholeHundredths x /\ (Qabs x <= 1000000)%Q.

(** All chosen options of a selection state, in the order in which
    [calculateUnitPrice] adds their prices. *)
Definition allChosen (s : jsmap N selection) : list chosen :=
  flat_map (fun e => chosenOptions e.2) s.

(** A session whose base price, chosen option prices and special delta
    are plain amounts. *)
Definition plainPrices (st : modal_state) : Prop :=
  plainAmount (ms_basePrice st)
  /\ Forall (fun c => plainAmount (c_price c)) (allChosen (ms_selections st))
  /\ (length (allChosen (ms_selections st)) <= 1000)%nat
  /\ plainAmount (specialDelta st).

(** A cart of at most a hundred lines whose unit prices have at most
    two decimals and lie between 0 and 100000, and whose quantities are
    between 1 and 1000.  The rounded total of such a cart stays within
    0.001 of the exact total and is not negative. *)
Definition plainLine (it : order_item) : Prop :=
  wholeHundredths (it_unitPrice it)
  /\ (0 <= it_unitPrice it)%Q /\ (it_unitPrice it <= 100000)%Q
  /\ (1 <= it_quantity it <= 1000)%Z.

Definition plainCart (cart : jsmap string order_item) : Prop :=
  Forall (fun e => plainLine e.2) cart /\ (length cart <= 100)%nat.

(** The unit price at which an item goes into the total when it is
    added: that of the entry with its key, if there is one, else its
    own. *)
Definition landingUnitPrice (item : order_item)
    (cart : jsmap string order_item) : Q :=
  match JsMap.get (it_key item) cart with
  | Some existing => it_unitPrice existing
  | None => it_unitPrice item
  end.
(** * Properties *)

(** ** Facts about insertion-ordered maps *)

Section jsmap_facts.
Context {K V : Type} `{EqDecision K}.
Implicit Types (m : list (K * V)) (k : K) (v : V).

Lemma get_None_keys k m : JsMap.get k m = None <-> k ∉ JsMap.keys m.
Proof.
  induction m as [|[k' v'] m IH]; simpl.
  - split; [intros _; apply not_elem_of_nil | done].
  - rewrite not_elem_of_cons. destruct (decide (k' = k)) as [->|Hne].
    + split; [done | intros [? _]; done].
    + rewrite IH. split; [intros ?; split; [congruence | done] | tauto].
Qed.

Lemma get_Some_elem k v m : JsMap.get k m = Some v -> (k, v) ∈ m.
Proof.
  induction m as [|[k' v'] m IH]; simpl; [done|].
  destruct (decide (k' = k)) as [->|Hne].
  - intros [= ->]. apply list_elem_of_here.
  - intros ?. apply list_elem_of_further; auto.
Qed.

Lemma elem_get_ok k v m : JsMap.ok m -> (k, v) ∈ m -> JsMap.get k m = Some v.
Proof.
  unfold JsMap.ok, JsMap.keys.
  induction m as [|[k' v'] m IH]; simpl; intros Hok Hin.
  - by apply elem_of_nil in Hin.
  - apply NoDup_cons in Hok as [Hnot Hok].
    apply elem_of_cons in Hin as [[= -> ->]|Hin].
    + by rewrite decide_True.
    + destruct (decide (k' = k)) as [->|Hne]; [|auto].
      exfalso. apply Hnot.
      change k with ((k, v).1). by apply list_elem_of_fmap_2.
Qed.

Lemma get_set_eq k v m : JsMap.get k (JsMap.set k v m) = Some v.
Proof.
  induction m as [|[k' v'] m IH]; simpl.
  - by rewrite decide_True.
  - destruct (decide (k' = k)) as [->|Hne]; simpl.
    + by rewrite decide_True.
    + by rewrite decide_False.
Qed.

Lemma get_set_ne k k' v m :
  k <> k' -> JsMap.get k' (JsMap.set k v m) = JsMap.get k' m.
Proof.
  intros Hne. induction m as [|[k0 v0] m IH]; simpl.
  - by rewrite decide_False.
  - destruct (decide (k0 = k)) as [->|Hne0]; simpl.
    + by rewrite !decide_False.
    + by rewrite IH.
Qed.

Lemma keys_set_present k v m :
  is_Some (JsMap.get k m) -> JsMap.keys (JsMap.set k v m) = JsMap.keys m.
Proof.
  unfold JsMap.keys.
  induction m as [|[k0 v0] m IH]; simpl; intros [w Hw]; [done|].
  destruct (decide (k0 = k)) as [->|Hne0]; simpl; [done|].
  f_equal. apply IH. eauto.
Qed.

Lemma set_absent k v m :
  JsMap.get k m = None -> JsMap.set k v m = m ++ [(k, v)].
Proof.
  induction m as [|[k0 v0] m IH]; simpl; [done|].
  destruct (decide (k0 = k)) as [->|Hne0]; [done|].
  intros ?. f_equal. auto.
Qed.

Lemma set_same k v m : JsMap.get k m = Some v -> JsMap.set k v m = m.
Proof.
  induction m as [|[k0 v0] m IH]; simpl; [done|].
  destruct (decide (k0 = k)) as [->|Hne0].
  - by intros [= ->].
  - intros ?. f_equal. auto.
Qed.

Lemma set_set k v w m :
  JsMap.set k w (JsMap.set k v m) = JsMap.set k w m.
Proof.
  induction m as [|[k0 v0] m IH]; simpl.
  - by rewrite decide_True.
  - destruct (decide (k0 = k)); simpl.
    + by rewrite decide_True.
    + rewrite decide_False by done. by rewrite IH.
Qed.

Lemma ok_set k v m : JsMap.ok m -> JsMap.ok (JsMap.set k v m).
Proof.
  intros Hok. destruct (JsMap.get k m) as [w|] eqn:Hget.
  - unfold JsMap.ok. by rewrite keys_set_present by eauto.
  - rewrite set_absent by done. unfold JsMap.ok, JsMap.keys.
    rewrite map_app. simpl. apply NoDup_app. split; [done|]. split.
    + intros x Hx ->%list_elem_of_singleton.
      by apply get_None_keys in Hget.
    + apply NoDup_singleton.
Qed.

Lemma get_delete_eq k m : JsMap.get k (JsMap.delete k m) = None.
Proof.
  induction m as [|[k0 v0] m IH]; simpl; [done|].
  destruct (decide (k0 = k)) as [->|Hne0]; simpl; [done|].
  by rewrite decide_False.
Qed.

Lemma get_delete_ne k k' m :
  k <> k' -> JsMap.get k' (JsMap.delete k m) = JsMap.get k' m.
Proof.
  intros Hne. induction m as [|[k0 v0] m IH]; simpl; [done|].
  destruct (decide (k0 = k)) as [->|Hne0]; simpl.
  - by rewrite decide_False.
  - by rewrite IH.
Qed.

Lemma delete_absent k m : JsMap.get k m = None -> JsMap.delete k m = m.
Proof.
  induction m as [|[k0 v0] m IH]; simpl; [done|].
  destruct (decide (k0 = k)) as [->|Hne0]; [done|].
  intros ?. f_equal. auto.
Qed.

Lemma keys_delete_sublist k m :
  sublist (JsMap.keys (JsMap.delete k m)) (JsMap.keys m).
Proof.
  unfold JsMap.keys.
  induction m as [|[k0 v0] m IH]; simpl; [done|].
  destruct (decide (k0 = k)); simpl.
  - by apply sublist_cons.
  - by apply sublist_skip.
Qed.

Lemma ok_delete k m : JsMap.ok m -> JsMap.ok (JsMap.delete k m).
Proof.
  unfold JsMap.ok. intros Hok.
  eapply sublist_NoDup; [exact Hok | apply keys_delete_sublist].
Qed.

Lemma perm_delete k v m :
  JsMap.ok m -> JsMap.get k m = Some v ->
  m ≡ₚ (k, v) :: JsMap.delete k m.
Proof.
  unfold JsMap.ok, JsMap.keys.
  induction m as [|[k0 v0] m IH]; simpl; [done|].
  intros [Hnot Hok]%NoDup_cons.
  destruct (decide (k0 = k)) as [->|Hne0].
  - intros [= ->]. rewrite delete_absent; [done|].
    by apply get_None_keys.
  - intros Hget. rewrite (IH Hok Hget) at 1. apply Permutation_swap.
Qed.
End jsmap_facts.

(** ** Sorting and joining *)

Lemma sort_perm (l1 l2 : list string) : l1 ≡ₚ l2 -> sort l1 = sort l2.
Proof.
  intros Hp. unfold sort.
  apply (Sorted_unique String.le); try apply Sorted_merge_sort; try apply _.
  by rewrite !merge_sort_Permutation.
Qed.

Lemma sort_perm_inv (l1 l2 : list string) : sort l1 = sort l2 -> l1 ≡ₚ l2.
Proof.
  unfold sort. intros Heq.
  rewrite <-(merge_sort_Permutation String.le l1), Heq.
  apply merge_sort_Permutation.
Qed.

Lemma sort_length (l : list string) : length (sort l) = length l.
Proof. unfold sort. by rewrite merge_sort_Permutation. Qed.

(** ** Keys do not depend on insertion order *)

Lemma get_all_None {K V} `{EqDecision K} (m : list (K * V)) :
  (forall k, JsMap.get k m = None) -> m = [].
Proof.
  destruct m as [|[k v] m]; [done|].
  intros Hall. specialize (Hall k). simpl in Hall.
  by rewrite decide_True in Hall.
Qed.

Lemma delete_sublist {K V} `{EqDecision K} (k : K) (m : list (K * V)) :
  sublist (JsMap.delete k m) m.
Proof.
  induction m as [|[k0 v0] m IH]; simpl; [done|].
  destruct (decide (k0 = k)); [by apply sublist_cons | by apply sublist_skip].
Qed.

Lemma selectionsOk_delete g s :
  selectionsOk s -> selectionsOk (JsMap.delete g s).
Proof.
  intros [Hok Hall]. split; [by apply ok_delete|].
  eapply Forall_forall. intros e He.
  eapply Forall_forall in Hall; [exact Hall|].
  eapply elem_of_sublist; [exact He | apply delete_sublist].
Qed.

Lemma selectionsOk_tail e s : selectionsOk (e :: s) -> selectionsOk s.
Proof.
  intros [Hok Hall]. split.
  - unfold JsMap.ok, JsMap.keys in *. simpl in Hok.
    by apply NoDup_cons in Hok as [_ ?].
  - by apply Forall_cons in Hall as [_ ?].
Qed.

Lemma sameChoice_part g a b :
  selectionOk a -> selectionOk b -> sameChoice a b ->
  selectionPart g a = selectionPart g b.
Proof.
  intros Ha Hb [Hkind Hids].
  destruct a as [na oa|na ma], b as [nb ob|nb mb]; simpl in *; try done.
  - destruct oa as [ca|], ob as [cb|]; simpl in *; try done.
    + specialize (Hids (c_id ca)). rewrite !list_elem_of_singleton in Hids.
      destruct Hids as [-> _]; done.
    + specialize (Hids (c_id ca)). rewrite list_elem_of_singleton in Hids.
      destruct Hids as [Hx _]. by apply elem_of_nil in Hx.
    + specialize (Hids (c_id cb)). rewrite list_elem_of_singleton in Hids.
      destruct Hids as [_ Hx]. by apply elem_of_nil in Hx.
  - by rewrite (sort_perm (JsMap.keys ma) (JsMap.keys mb))
      by (by apply NoDup_Permutation).
Qed.

Lemma parts_perm s1 s2 :
  selectionsOk s1 -> selectionsOk s2 -> setEqualPerGroup s1 s2 ->
  map (fun e => selectionPart e.1 e.2) s1
  ≡ₚ map (fun e => selectionPart e.1 e.2) s2.
Proof.
  revert s2. induction s1 as [|[g a] s1 IH]; intros s2 H1 H2 Heq.
  - rewrite (get_all_None s2); [done|].
    intros k. specialize (Heq k). simpl in Heq.
    by destruct (JsMap.get k s2).
  - pose proof (Heq g) as Hg. simpl in Hg. rewrite decide_True in Hg by done.
    destruct (JsMap.get g s2) as [b|] eqn:Hb; [|done].
    rewrite (perm_delete g b s2) by (done || apply H2). simpl.
    destruct H1 as [Hok1 Hall1]. pose proof H2 as [Hok2 Hall2].
    assert (selectionOk a) as Hoka by by apply Forall_cons in Hall1 as [? _].
    assert (selectionOk b) as Hokb.
    { exact (proj1 (Forall_forall _ _) Hall2 (g, b)
               (get_Some_elem _ _ _ Hb)). }
    rewrite (sameChoice_part g a b) by done.
    apply Permutation_skip, IH.
    + by apply (selectionsOk_tail (g, a)).
    + by apply selectionsOk_delete.
    + intros k. destruct (decide (g = k)) as [<-|Hne].
      * rewrite get_delete_eq.
        unfold JsMap.ok, JsMap.keys in Hok1. simpl in Hok1.
        apply NoDup_cons in Hok1 as [Hnot _].
        apply get_None_keys in Hnot. by rewrite Hnot.
      * rewrite get_delete_ne by done.
        specialize (Heq k). simpl in Heq.
        by rewrite decide_False in Heq.
Qed.

(** C1.  Selection states that are set-equal per group (the same chosen
    option in every single group, the same set of chosen options in
    every multiple group), in whatever order the groups and the options
    were inserted, get the same option key; the empty selection state
    gets the key ["base"]. *)
Theorem key_of_set_equal_selections (s1 s2 : jsmap N selection) :
  selectionsOk s1 -> selectionsOk s2 -> setEqualPerGroup s1 s2 ->
  buildOptionKeyFromSelections s1 = buildOptionKeyFromSelections s2
  /\ buildOptionKeyFromSelections [] = "base".
Proof.
  intros H1 H2 Heq. split; [|done].
  pose proof (parts_perm s1 s2 H1 H2 Heq) as Hp.
  unfold buildOptionKeyFromSelections, JsMap.size.
  rewrite (sort_perm _ _ Hp).
  apply Permutation_length in Hp. rewrite !length_map in Hp.
  rewrite Hp. done.
Qed.

Lemma key_of_set_equal_selections_witness :
  buildOptionKeyFromSelections key_example_a
  = buildOptionKeyFromSelections key_example_b
  /\ buildOptionKeyFromSelections [] = "base".
Proof.
  apply (key_of_set_equal_selections key_example_a key_example_b).
  - split; [concrete_nodup|].
    repeat constructor; simpl; concrete_nodup.
  - split; [concrete_nodup|].
    repeat constructor; simpl; concrete_nodup.
  - intros g. simpl.
    repeat case_decide; subst; try done;
      (split; [done | intros id; simpl; concrete_mem]).
Defined.

(** ** Strings without separators *)

Lemma hasChar_app c s1 s2 :
  hasChar c (s1 +:+ s2) = hasChar c s1 || hasChar c s2.
Proof.
  induction s1 as [|c1 s1 IH]; simpl; [done|].
  rewrite IH. by rewrite orb_assoc.
Qed.

Lemma hasChar_sep c r : hasChar c (String c r) = true.
Proof. simpl. by rewrite bool_decide_eq_true_2. Qed.

Lemma app_sep_inj c x y r r' :
  hasChar c x = false -> hasChar c y = false ->
  x +:+ String c r = y +:+ String c r' -> x = y /\ r = r'.
Proof.
  revert y. induction x as [|a x IH]; intros [|b y]; simpl.
  - by intros _ _ [= ->].
  - intros _ Hy [= <- _]. by rewrite bool_decide_eq_true_2 in Hy.
  - intros Hx _ [= -> _]. by rewrite bool_decide_eq_true_2 in Hx.
  - intros [_ Hx]%orb_false_elim [_ Hy]%orb_false_elim [= -> Heq].
    destruct (IH y Hx Hy Heq) as [-> ->]. done.
Qed.

Lemma join_cons2 sep x y l :
  join sep (x :: y :: l) = x +:+ sep +:+ join sep (y :: l).
Proof. done. Qed.

Lemma hasChar_join_other c d l :
  c <> d -> Forall (fun s => hasChar c s = false) l ->
  hasChar c (join (String d "") l) = false.
Proof.
  intros Hne. induction l as [|x [|y l] IH]; intros Hall.
  - done.
  - by apply Forall_cons in Hall as [? _].
  - rewrite join_cons2. apply Forall_cons in Hall as [Hx Hall].
    rewrite !hasChar_app, Hx, IH by done. simpl.
    by rewrite bool_decide_eq_false_2.
Qed.

Lemma join_sep_inj c l1 l2 :
  l1 <> [] -> l2 <> [] ->
  Forall (fun s => hasChar c s = false) l1 ->
  Forall (fun s => hasChar c s = false) l2 ->
  join (String c "") l1 = join (String c "") l2 -> l1 = l2.
Proof.
  revert l2. induction l1 as [|x [|x' l1] IH]; intros [|y [|y' l2]];
    try done; intros _ _ H1 H2.
  - by intros [= ->].
  - rewrite join_cons2. simpl. intros ->.
    apply Forall_cons in H1 as [H1 _].
    rewrite hasChar_app in H1. simpl in H1.
    by rewrite bool_decide_eq_true_2, orb_true_r in H1.
  - rewrite join_cons2. simpl. intros <-.
    apply Forall_cons in H2 as [H2 _].
    rewrite hasChar_app in H2. simpl in H2.
    by rewrite bool_decide_eq_true_2, orb_true_r in H2.
  - rewrite !join_cons2. simpl.
    apply Forall_cons in H1 as [Hx H1]. apply Forall_cons in H2 as [Hy H2].
    intros [-> Heq]%app_sep_inj; [|done..].
    f_equal. by apply IH.
Qed.

(** ** Decimal numerals *)

Lemma pretty_N_char_digit x : isDigit (pretty_N_char x) = true.
Proof.
  unfold pretty_N_char. by repeat case_match.
Qed.

Lemma pretty_N_go_digits x s :
  allDigits s = true -> allDigits (pretty_N_go x s) = true.
Proof.
  revert s. induction (N.lt_wf_0 x) as [x _ IH]; intros s Hs.
  assert (x = 0 \/ 0 < x)%N as [->|Hpos] by lia.
  - by rewrite pretty_N_go_0.
  - rewrite pretty_N_go_step by done. apply IH.
    + by apply N.div_lt.
    + simpl. by rewrite pretty_N_char_digit, Hs.
Qed.

Lemma pretty_digits (n : N) : allDigits (pretty n) = true.
Proof.
  unfold pretty, pretty_N. case_decide; [done|].
  by apply pretty_N_go_digits.
Qed.

Lemma allDigits_hasChar c s :
  isDigit c = false -> allDigits s = true -> hasChar c s = false.
Proof.
  intros Hc. induction s as [|a s IH]; simpl; [done|].
  intros [Ha Hs]%andb_true_iff. rewrite IH by done.
  rewrite orb_false_r. apply bool_decide_eq_false_2. intros ->.
  by rewrite Hc in Ha.
Qed.

Lemma pretty_idOk (n : N) : idOk (pretty n).
Proof.
  pose proof (pretty_digits n) as Hd. repeat split.
  - by apply allDigits_hasChar.
  - by apply allDigits_hasChar.
  - intros Heq. by rewrite Heq in Hd.
Qed.

(** ** Keys tell selection states apart *)

Lemma selectionPart_rest g sel :
  selectionPart g sel = pretty g +:+ String ":" (selectionRest sel).
Proof. by destruct sel. Qed.

Lemma selectionPart_group g g' a b :
  selectionPart g a = selectionPart g' b ->
  g = g' /\ selectionRest a = selectionRest b.
Proof.
  rewrite !selectionPart_rest.
  intros [Hg Hr]%app_sep_inj;
    [|by apply allDigits_hasChar, pretty_digits..].
  split; [|done]. by apply (inj pretty).
Qed.

Lemma sort_Forall (P : string -> Prop) l : Forall P l -> Forall P (sort l).
Proof. unfold sort. by rewrite merge_sort_Permutation. Qed.

Lemma sort_nil_inv l : length (sort l) = 0 -> l = [].
Proof. rewrite sort_length. by destruct l. Qed.

Lemma idOk_dash l :
  Forall idOk l -> Forall (fun s => hasChar "-" s = false) l.
Proof.
  intros Hl. eapply Forall_impl; [exact Hl|]. by intros s (? & ? & ?).
Qed.

Lemma idOk_bar l :
  Forall idOk l -> Forall (fun s => hasChar "|" s = false) l.
Proof.
  intros Hl. eapply Forall_impl; [exact Hl|]. by intros s (? & ? & ?).
Qed.

Lemma join_dash_not_none l :
  Forall idOk l -> join "-" l = "none" -> l = [].
Proof.
  intros Hl Hj. destruct l as [|x l]; [done|]. exfalso.
  assert (x :: l = ["none"]) as Heq.
  { apply (join_sep_inj "-"); [done|done|by apply idOk_dash| |done].
    by repeat constructor. }
  rewrite Heq in Hl. apply Forall_cons in Hl as [(_ & _ & Hn) _]. done.
Qed.

Lemma selectionRest_choice a b :
  sameKind a b -> Forall idOk (chosenIds a) -> Forall idOk (chosenIds b) ->
  selectionRest a = selectionRest b ->
  forall id, id ∈ chosenIds a <-> id ∈ chosenIds b.
Proof.
  destruct a as [na oa|na ma], b as [nb ob|nb mb]; simpl; try done;
    intros _ Ha Hb Heq.
  - destruct oa as [ca|], ob as [cb|]; simpl in *; try done.
    + by rewrite Heq.
    + apply Forall_cons in Ha as [(_ & _ & Hn) _]. done.
    + apply Forall_cons in Hb as [(_ & _ & Hn) _]. done.
  - assert (sort (JsMap.keys ma) = sort (JsMap.keys mb)) as Hs.
    { destruct (decide (length (sort (JsMap.keys ma)) = 0)) as [Hla|Hla],
               (decide (length (sort (JsMap.keys mb)) = 0)) as [Hlb|Hlb].
      - apply sort_nil_inv in Hla as ->. by apply sort_nil_inv in Hlb as ->.
      - symmetry in Heq. apply join_dash_not_none in Heq;
          [by rewrite Heq in Hlb | by apply sort_Forall].
      - apply join_dash_not_none in Heq;
          [by rewrite Heq in Hla | by apply sort_Forall].
      - apply (join_sep_inj "-"); try done.
        + by intros Hn; rewrite Hn in Hla.
        + by intros Hn; rewrite Hn in Hlb.
        + by apply idOk_dash, sort_Forall.
        + by apply idOk_dash, sort_Forall. }
    apply sort_perm_inv in Hs. intros id. by rewrite Hs.
Qed.

Lemma selectionRest_no_bar sel :
  Forall idOk (chosenIds sel) -> hasChar "|" (selectionRest sel) = false.
Proof.
  destruct sel as [n [c|]|n m]; simpl; intros Hids; try done.
  - by apply Forall_cons in Hids as [(_ & ? & _) _].
  - case_decide; [done|].
    apply hasChar_join_other; [done|]. by apply idOk_bar, sort_Forall.
Qed.

Lemma selectionPart_no_bar g sel :
  Forall idOk (chosenIds sel) -> hasChar "|" (selectionPart g sel) = false.
Proof.
  intros Hids. rewrite selectionPart_rest, hasChar_app. simpl.
  rewrite selectionRest_no_bar by done.
  rewrite (allDigits_hasChar "|" (pretty g)); [done|done|apply pretty_digits].
Qed.

Lemma selectionPart_colon g sel :
  hasChar ":" (selectionPart g sel) = true.
Proof.
  rewrite selectionPart_rest, hasChar_app. simpl. apply orb_true_r.
Qed.

Lemma join_hasChar c sep l :
  l <> [] -> Forall (fun s => hasChar c s = true) l ->
  hasChar c (join sep l) = true.
Proof.
  destruct l as [|x [|y l]]; [done|..]; intros _ [Hx _]%Forall_cons.
  - done.
  - by rewrite join_cons2, hasChar_app, Hx.
Qed.

Lemma key_nonempty s :
  s <> [] -> buildOptionKeyFromSelections s = join "|" (sort (parts s)).
Proof.
  intros Hs. unfold buildOptionKeyFromSelections, JsMap.size.
  fold (parts s).
  rewrite decide_False by by destruct s.
  rewrite decide_False; [done|].
  intros Hj.
  assert (hasChar ":" (join "|" (sort (parts s))) = true) as Hc.
  { apply join_hasChar.
    - intros Hn. apply (f_equal length) in Hn.
      rewrite sort_length in Hn. unfold parts in Hn.
      rewrite length_map in Hn. by destruct s.
    - apply sort_Forall, Forall_forall. intros p Hp.
      apply list_elem_of_fmap in Hp as ([g sel] & -> & _).
      apply selectionPart_colon. }
  by rewrite Hj in Hc.
Qed.

Lemma parts_no_bar s :
  idsOk s -> Forall (fun p => hasChar "|" p = false) (parts s).
Proof.
  unfold idsOk, parts. intros Hs. apply Forall_fmap.
  eapply Forall_impl; [exact Hs|]. intros [g sel] Hsel. simpl.
  by apply selectionPart_no_bar.
Qed.

Lemma sameShape_nil_l s : sameShape [] s -> s = [].
Proof.
  intros Hs. apply get_all_None. intros k. specialize (Hs k).
  simpl in Hs. by destruct (JsMap.get k s).
Qed.

Lemma sameShape_nil_r s : sameShape s [] -> s = [].
Proof.
  intros Hs. apply get_all_None. intros k. specialize (Hs k).
  simpl in Hs. by destruct (JsMap.get k s).
Qed.

(** With option ids that cannot be mistaken for separators, the key
    determines the selection state up to set-equality per group. *)
Lemma key_inj s1 s2 :
  selectionsOk s1 -> selectionsOk s2 -> idsOk s1 -> idsOk s2 ->
  sameShape s1 s2 ->
  buildOptionKeyFromSelections s1 = buildOptionKeyFromSelections s2 ->
  setEqualPerGroup s1 s2.
Proof.
  intros [Hok1 _] [Hok2 _] Hid1 Hid2 Hshape Hkey.
  destruct (decide (s1 = [])) as [->|Hne1].
  { apply sameShape_nil_l in Hshape as ->. by intros g. }
  destruct (decide (s2 = [])) as [->|Hne2].
  { by apply sameShape_nil_r in Hshape. }
  rewrite !key_nonempty in Hkey by done.
  assert (forall s, s <> [] -> sort (parts s) <> []) as Hsne.
  { intros s Hs Hn. apply (f_equal length) in Hn.
    rewrite sort_length in Hn. unfold parts in Hn.
    rewrite length_map in Hn. by destruct s. }
  apply (join_sep_inj "|") in Hkey;
    [|by auto|by auto|by apply sort_Forall, parts_no_bar..].
  apply sort_perm_inv in Hkey.
  intros g. specialize (Hshape g).
  destruct (JsMap.get g s1) as [a|] eqn:Ha,
           (JsMap.get g s2) as [b|] eqn:Hb; try done.
  split; [done|].
  assert (selectionPart g a ∈ parts s2) as Hin.
  { rewrite <-Hkey. unfold parts.
    apply (list_elem_of_fmap_2 (fun e => selectionPart e.1 e.2) s1 (g, a)).
    by apply get_Some_elem. }
  apply list_elem_of_fmap in Hin as ([g' b'] & Hpart & Hin). simpl in Hpart.
  apply selectionPart_group in Hpart as [<- Hrest].
  apply (elem_get_ok _ _ _ Hok2) in Hin. rewrite Hb in Hin.
  injection Hin as <-.
  apply selectionRest_choice; [done| | |done].
  - apply get_Some_elem in Ha.
    exact (proj1 (Forall_forall _ _) Hid1 (g, a) Ha).
  - apply get_Some_elem in Hb.
    exact (proj1 (Forall_forall _ _) Hid2 (g, b) Hb).
Qed.

(** ** What every session state satisfies *)

Lemma get_shape g s : JsMap.get g (shape s) = isSingle <$> JsMap.get g s.
Proof.
  induction s as [|[k v] s IH]; simpl; [done|].
  by destruct (decide (k = g)).
Qed.

Lemma shape_sameShape s1 s2 : shape s1 = shape s2 -> sameShape s1 s2.
Proof.
  intros Heq g. pose proof (get_shape g s1) as H1.
  rewrite Heq, get_shape in H1.
  destruct (JsMap.get g s1) as [[]|], (JsMap.get g s2) as [[]|]; done.
Qed.

Lemma shape_set k v s :
  isSingle <$> JsMap.get k s = Some (isSingle v) ->
  shape (JsMap.set k v s) = shape s.
Proof.
  induction s as [|[k0 v0] s IH]; simpl; [done|].
  destruct (decide (k0 = k)) as [->|Hne]; simpl.
  - by intros [= ->].
  - intros ?. f_equal. auto.
Qed.

Lemma Forall_set {K V} `{EqDecision K} (P : V -> Prop) k v
    (m : list (K * V)) :
  Forall (fun e => P e.2) m -> P v ->
  Forall (fun e => P e.2) (JsMap.set k v m).
Proof.
  intros Hm Hv. induction Hm as [|[k0 v0] m H0 Hm IH]; simpl.
  - by repeat constructor.
  - destruct (decide (k0 = k)); by constructor.
Qed.

Lemma selectionsOk_set g sel s :
  selectionsOk s -> selectionOk sel -> selectionsOk (JsMap.set g sel s).
Proof.
  intros [Hok Hall] Hsel. split; [by apply ok_set|].
  by apply (Forall_set selectionOk).
Qed.

Lemma idsOk_set g sel s :
  idsOk s -> Forall idOk (chosenIds sel) -> idsOk (JsMap.set g sel s).
Proof.
  intros Hs Hsel. by apply (Forall_set (fun v => Forall idOk (chosenIds v))).
Qed.

Lemma idsOk_get g sel s :
  idsOk s -> JsMap.get g s = Some sel -> Forall idOk (chosenIds sel).
Proof.
  intros Hs Hget. apply get_Some_elem in Hget.
  exact (proj1 (Forall_forall _ _) Hs (g, sel) Hget).
Qed.

Lemma selectionsOk_get g sel s :
  selectionsOk s -> JsMap.get g s = Some sel -> selectionOk sel.
Proof.
  intros [_ Hs] Hget. apply get_Some_elem in Hget.
  exact (proj1 (Forall_forall _ _) Hs (g, sel) Hget).
Qed.

Lemma chosenOf_idOk o : idOk (c_id (chosenOf o)).
Proof. apply pretty_idOk. Qed.

Lemma selectionsInv_set sh g sel sel' s :
  selectionsInv sh s -> JsMap.get g s = Some sel ->
  isSingle sel' = isSingle sel -> selectionOk sel' ->
  Forall idOk (chosenIds sel') ->
  selectionsInv sh (JsMap.set g sel' s).
Proof.
  intros (Hok & Hid & Hsh) Hget Hkind Hsel Hids. repeat split.
  - by apply selectionsOk_set.
  - by apply selectionsOk_set.
  - by apply idsOk_set.
  - rewrite shape_set; [done|]. by rewrite Hget, Hkind.
Qed.

Lemma initialSelection_ok g :
  selectionOk (initialSelection g)
  /\ Forall idOk (chosenIds (initialSelection g)).
Proof.
  unfold initialSelection.
  destruct (g_selection_type g); simpl.
  - split; [done|].
    destruct (g_is_required g); simpl; [|by constructor].
    destruct (head (g_options g)); simpl; [|by constructor].
    constructor; [apply chosenOf_idOk | constructor].
  - split; [apply NoDup_nil_2 | constructor].
Qed.

Lemma initializeSelections_ok groups :
  selectionsOk (initializeSelections groups)
  /\ idsOk (initializeSelections groups).
Proof.
  unfold initializeSelections.
  assert (forall s0, selectionsOk s0 /\ idsOk s0 ->
     let s := foldl (fun sels g => JsMap.set (g_id g) (initialSelection g) sels)
                    s0 groups in
     selectionsOk s /\ idsOk s) as Hgen.
  { induction groups as [|g groups IH]; intros s0 [Hok Hid]; simpl; [done|].
    apply IH. destruct (initialSelection_ok g).
    split; [by apply selectionsOk_set | by apply idsOk_set]. }
  apply Hgen. split; [|constructor].
  split; [apply NoDup_nil_2 | constructor].
Qed.

Lemma keepsSelection_refl sel : keepsSelection sel sel.
Proof. by repeat split. Qed.

Lemma keepsSelection_trans a b c :
  keepsSelection a b -> keepsSelection b c -> keepsSelection a c.
Proof.
  intros (H1 & H2 & H3) (H4 & H5 & H6). repeat split; try auto.
  by rewrite H4.
Qed.

Lemma selectionsInv_keeps sh g sel sel' s :
  selectionsInv sh s -> JsMap.get g s = Some sel ->
  keepsSelection sel sel' -> selectionsInv sh (JsMap.set g sel' s).
Proof.
  intros Hinv Hget (Hk & Ho & Hi).
  apply (selectionsInv_set sh g sel); try done.
  - apply Ho. destruct Hinv as (Hok & _). by apply (selectionsOk_get g sel s).
  - apply Hi. destruct Hinv as (_ & Hid & _). by apply (idsOk_get g sel s).
Qed.

Lemma renderOption_keeps g sel io sel' :
  renderOption g sel io = Some sel' -> keepsSelection sel sel'.
Proof.
  unfold renderOption.
  destruct (g_selection_type g), sel as [n cur|n m]; try done;
    try (intros [= <-]; apply keepsSelection_refl).
  repeat case_match; intros [= <-]; try apply keepsSelection_refl;
    (split; [done|]; split; [done|]; intros _; simpl;
     constructor; [apply chosenOf_idOk | constructor]).
Qed.

Lemma renderOptions_keeps g ios sel sel' :
  renderOptions g sel ios = Some sel' -> keepsSelection sel sel'.
Proof.
  revert sel. induction ios as [|io ios IH]; intros sel; simpl.
  - intros [= <-]. apply keepsSelection_refl.
  - destruct (renderOption g sel io) as [sel1|] eqn:H1; [|done].
    intros H2. eapply keepsSelection_trans;
      [by eapply renderOption_keeps | by apply IH].
Qed.

Lemma renderGroup_inv sh g s s' :
  renderGroup s g = Some s' -> selectionsInv sh s -> selectionsInv sh s'.
Proof.
  unfold renderGroup.
  destruct (JsMap.get (g_id g) s) as [sel|] eqn:Hget.
  - destruct (renderOptions g sel _) as [sel'|] eqn:Hr; [|done].
    intros [= <-] Hinv. eapply selectionsInv_keeps; [done..|].
    by eapply renderOptions_keeps.
  - repeat case_match; try done; by intros [= <-].
Qed.

Lemma renderGroups_inv sh groups s s' :
  renderGroups groups s = Some s' -> selectionsInv sh s ->
  selectionsInv sh s'.
Proof.
  revert s. induction groups as [|g groups IH]; intros s; simpl.
  - by intros [= <-].
  - destruct (renderGroup s g) as [s1|] eqn:H1; [|done].
    intros H2 Hinv. apply (IH s1); [done|]. by eapply renderGroup_inv.
Qed.

Lemma Forall_keys_set {K V} `{EqDecision K} (P : K -> Prop) k v
    (m : list (K * V)) :
  Forall P (JsMap.keys m) -> P k -> Forall P (JsMap.keys (JsMap.set k v m)).
Proof.
  intros Hm Hk. destruct (JsMap.get k m) as [w|] eqn:Hget.
  - by rewrite keys_set_present by eauto.
  - rewrite set_absent by done. unfold JsMap.keys in *.
    rewrite map_app. apply Forall_app. split; [done|].
    by repeat constructor.
Qed.

Lemma Forall_keys_delete {K V} `{EqDecision K} (P : K -> Prop) k
    (m : list (K * V)) :
  Forall P (JsMap.keys m) -> Forall P (JsMap.keys (JsMap.delete k m)).
Proof.
  intros Hm. apply Forall_forall. intros x Hx.
  apply (proj1 (Forall_forall _ _) Hm).
  eapply elem_of_sublist; [exact Hx | apply keys_delete_sublist].
Qed.

Lemma changeSelection_keeps st g oid checked sel :
  keepsSelection sel (changeSelection st g oid checked sel).
Proof.
  destruct sel as [n cur|n m]; simpl.
  - case_decide.
    { split; [done|]. split; [done|]. intros _. constructor. }
    destruct (getOptionData st g oid) as [od|];
      [|apply keepsSelection_refl].
    split; [done|]. split; [done|]. intros _. simpl.
    constructor; [apply chosenOf_idOk | constructor].
  - destruct checked.
    + destruct (getOptionData st g oid) as [od|];
        [|apply keepsSelection_refl].
      split; [done|]. split; simpl.
      * apply ok_set.
      * intros Hm. apply Forall_keys_set; [done | apply pretty_idOk].
    + split; [done|]. split; simpl.
      * apply ok_delete.
      * apply Forall_keys_delete.
Qed.

Lemma session_inv config st :
  sessionState config st ->
  selectionsInv (shape (initializeSelections (cfg_groups config)))
                (ms_selections st).
Proof.
  induction 1 as [mid name base st Hopen
                 |g oid checked st _ IH|checked st _ IH|delta st _ IH].
  - unfold openedState in Hopen.
    destruct (renderGroups _ _) as [sels|] eqn:Hr; [|done].
    injection Hopen as <-. simpl.
    eapply renderGroups_inv; [exact Hr|].
    destruct (initializeSelections_ok (cfg_groups config)).
    unfold selectionsInv. auto.
  - unfold onOptionChange.
    destruct (JsMap.get g (ms_selections st)) as [sel|] eqn:Hget; [|done].
    simpl. eapply selectionsInv_keeps; [done..|].
    apply changeSelection_keeps.
  - unfold onSpecialToggle. by destruct (ms_specialInfo st).
  - done.
Qed.

(** C2, as the code has it.  Two selection states with the same
    groups, of the same types, that differ in the chosen option(s) of at
    least one group get different option keys, provided the option ids
    they hold cannot be mistaken for a separator of the key: no id
    contains ["-"] or ["|"], and none is the word ["none"].  The states
    are compared by the option ids they hold, so the ids of the catalog
    need not even be distinct for this. *)
Theorem key_differs_when_choices_differ (s1 s2 : jsmap N selection) :
  selectionsOk s1 -> selectionsOk s2 ->
  idsOk s1 -> idsOk s2 ->
  sameShape s1 s2 ->
  differInSomeGroup s1 s2 ->
  buildOptionKeyFromSelections s1 <> buildOptionKeyFromSelections s2.
Proof.
  intros Hok1 Hok2 Hid1 Hid2 Hshape (g & a & b & Ha & Hb & Hdiff) Hkey.
  pose proof (key_inj _ _ Hok1 Hok2 Hid1 Hid2 Hshape Hkey g) as Hg.
  rewrite Ha, Hb in Hg. destruct Hg as [_ Hg]. by apply Hdiff.
Qed.

Lemma toppings_open_session : sessionState toppings_config toppings_open.
Proof. by apply (session_open toppings_config 5 "Noodles" 40). Qed.

Lemma key_differs_when_choices_differ_witness :
  buildOptionKeyFromSelections (ms_selections toppings_1_2) = "10:1-2"
  /\ buildOptionKeyFromSelections (ms_selections toppings_12) = "10:12"
  /\ buildOptionKeyFromSelections (ms_selections toppings_1_2)
     <> buildOptionKeyFromSelections (ms_selections toppings_12).
Proof.
  split; [reflexivity|]. split; [reflexivity|].
  assert (sessionState toppings_config toppings_1_2) as H1
    by apply session_change, session_change, toppings_open_session.
  assert (sessionState toppings_config toppings_12) as H2
    by apply session_change, toppings_open_session.
  destruct (session_inv _ _ H1) as (Hok1 & Hid1 & Hsh1).
  destruct (session_inv _ _ H2) as (Hok2 & Hid2 & Hsh2).
  apply key_differs_when_choices_differ; try done.
  - apply shape_sameShape. by rewrite Hsh1, Hsh2.
  - eexists 10%N, _, _. split; [reflexivity|]. split; [reflexivity|].
    intros Hall. specialize (Hall "12"). simpl in Hall.
    destruct Hall as [_ Hall].
    specialize (Hall ltac:(concrete_mem)). revert Hall.
    rewrite ?elem_of_cons, ?elem_of_nil. intros [|[|[]]]; discriminate.
Defined.

(** The condition on the ids cannot be dropped, and distinct ids do
    not replace it.  With the distinct option ids ["1-2"], ["1"] and
    ["2"] in one multiple-selection group, ticking the one option
    ["1-2"] and ticking the two options ["1"] and ["2"] are different
    choices with the same key ["10:1-2"]. *)
Lemma key_collision_with_hyphenated_ids :
  selectionsOk hyphen_mixed /\ selectionsOk hyphen_1_2
  /\ sameShape hyphen_mixed hyphen_1_2
  /\ NoDup ["1-2"; "1"; "2"]
  /\ differInSomeGroup hyphen_mixed hyphen_1_2
  /\ buildOptionKeyFromSelections hyphen_mixed = "10:1-2"
  /\ buildOptionKeyFromSelections hyphen_1_2 = "10:1-2"
  /\ ~ (buildOptionKeyFromSelections hyphen_mixed
        <> buildOptionKeyFromSelections hyphen_1_2).
Proof.
  split.
  { split; [concrete_nodup|].
    constructor; [simpl; concrete_nodup | constructor]. }
  split.
  { split; [concrete_nodup|].
    constructor; [simpl; concrete_nodup | constructor]. }
  split.
  { intros g. simpl. by destruct (decide (10%N = g)). }
  split; [concrete_nodup|].
  split.
  { exists 10%N. eexists _, _. split; [reflexivity|]. split; [reflexivity|].
    intros Hall. specialize (Hall "1-2"). simpl in Hall.
    destruct Hall as [Hall _].
    specialize (Hall ltac:(concrete_mem)). revert Hall.
    rewrite ?elem_of_cons, ?elem_of_nil. intros [|[|[]]]; discriminate. }
  split; [reflexivity|]. split; [reflexivity|].
  intros Hne. by apply Hne.
Qed.

(** In a session of this model the condition on the ids always holds,
    the option ids being the [String(id)] of numbers: two states of
    sessions on the same menu item that differ in a group never share a
    key. *)
Lemma session_keys_differ (config : menu_config) (st1 st2 : modal_state) :
  sessionState config st1 -> sessionState config st2 ->
  differInSomeGroup (ms_selections st1) (ms_selections st2) ->
  buildOptionKeyFromSelections (ms_selections st1)
  <> buildOptionKeyFromSelections (ms_selections st2).
Proof.
  intros H1 H2 (g & a & b & Ha & Hb & Hdiff) Hkey.
  destruct (session_inv config st1 H1) as (Hok1 & Hid1 & Hsh1).
  destruct (session_inv config st2 H2) as (Hok2 & Hid2 & Hsh2).
  assert (sameShape (ms_selections st1) (ms_selections st2)) as Hshape.
  { apply shape_sameShape. by rewrite Hsh1, Hsh2. }
  pose proof (key_inj _ _ Hok1 Hok2 Hid1 Hid2 Hshape Hkey g) as Hg.
  rewrite Ha, Hb in Hg. destruct Hg as [_ Hg]. by apply Hdiff.
Qed.

(** ** The cart *)

Lemma upsertCart_present item existing cart :
  JsMap.get (it_key item) cart = Some existing ->
  upsertCart item cart
  = JsMap.set (it_key item) (addQuantity (it_quantity item) existing) cart.
Proof. unfold upsertCart. by intros ->. Qed.

Lemma upsertCart_absent item cart :
  JsMap.get (it_key item) cart = None ->
  upsertCart item cart = cart ++ [(it_key item, item)].
Proof. unfold upsertCart. intros Hget. rewrite Hget. by apply set_absent. Qed.

Lemma upsertCart_ok item cart : JsMap.ok cart -> JsMap.ok (upsertCart item cart).
Proof.
  unfold upsertCart. destruct (JsMap.get _ _); apply ok_set.
Qed.

Lemma updateCart_ok itemKey delta cart :
  JsMap.ok cart -> JsMap.ok (updateCart itemKey delta cart).
Proof.
  unfold updateCart. destruct (JsMap.get _ _); [|done].
  case_decide; [apply ok_delete | apply ok_set].
Qed.

(** At all times the cart holds at most one entry per key. *)
Lemma cartState_ok cart : cartState cart -> JsMap.ok cart.
Proof.
  induction 1.
  - apply NoDup_nil_2.
  - by apply upsertCart_ok.
  - by apply updateCart_ok.
Qed.

Lemma orderState_updateQuantity itemKey delta p :
  orderState (updateQuantity itemKey delta p)
  = updateCart itemKey delta (orderState p).
Proof.
  unfold updateQuantity, updateCart.
  by destruct (JsMap.get itemKey (orderState p)).
Qed.

(** Every event of the page changes the cart through [upsertOrderItem],
    [updateQuantity] or the clearing after a successful submission. *)
Lemma pageState_cart p : pageState p -> cartState (orderState p).
Proof.
  induction 1 as [|mid name base p _ IH
                 |mid name base config descr p p' _ IH Hopen
                 |g oid checked p _ IH|checked p _ IH|delta p _ IH
                 |p _ IH|p _ IH|k delta p _ IH|v p _ IH|o p _ IH].
  - apply cart_empty.
  - by apply cart_upsert.
  - unfold openCustomization in Hopen.
    destruct (cfg_special config), (cfg_groups config);
      try (destruct (openedState _ _ _ _); [|done]);
      injection Hopen as <-; try done.
    by apply cart_upsert.
  - unfold onModal. by destruct (modalState p).
  - unfold onModal. by destruct (modalState p).
  - unfold onModal. by destruct (modalState p).
  - unfold onAddClick. destruct (modalState p) as [st|]; [|done].
    destruct (validateSelections (Some st)) as [msg|];
      [case_decide|]; try done; by apply cart_upsert.
  - done.
  - rewrite orderState_updateQuantity. by apply cart_update.
  - done.
  - destruct o; simpl; try done; apply cart_empty.
Qed.

(** An open session of the page is a session of some menu item. *)
Lemma pageState_session p st :
  pageState p -> modalState p = Some st ->
  exists config, sessionState config st.
Proof.
  intros Hp. revert st.
  induction Hp as [|mid name base p _ IH
                  |mid name base config descr p p' _ IH Hopen
                  |g oid checked p _ IH|checked p _ IH|delta p _ IH
                  |p _ IH|p _ IH|k delta p _ IH|v p _ IH|o p _ IH];
    intros st.
  - done.
  - apply IH.
  - unfold openCustomization in Hopen.
    destruct (cfg_special config) eqn:Hsp, (cfg_groups config) eqn:Hgr;
      try (destruct (openedState _ _ _ _) as [st0|] eqn:Ho; [|done]);
      injection Hopen as <-; simpl;
      try (intros [= <-]; exists config; by eapply session_open).
    apply IH.
  - unfold onModal. destruct (modalState p) as [st0|] eqn:Hst;
      [|by rewrite Hst].
    simpl. intros [= <-]. destruct (IH st0 eq_refl) as [config Hs].
    exists config. by apply session_change.
  - unfold onModal. destruct (modalState p) as [st0|] eqn:Hst;
      [|by rewrite Hst].
    simpl. intros [= <-]. destruct (IH st0 eq_refl) as [config Hs].
    exists config. by apply session_special.
  - unfold onModal. destruct (modalState p) as [st0|] eqn:Hst;
      [|by rewrite Hst].
    simpl. intros [= <-]. destruct (IH st0 eq_refl) as [config Hs].
    exists config. by apply session_quantity.
  - unfold onAddClick. destruct (modalState p) as [st0|] eqn:Hst;
      [|by rewrite Hst].
    destruct (validateSelections (Some st0)) as [msg|];
      [case_decide|]; simpl; try done.
    rewrite Hst. intros [= <-]. by apply IH.
  - done.
  - unfold updateQuantity. destruct (JsMap.get _ _); apply IH.
  - apply IH.
  - destruct o; apply IH.
Qed.

Lemma get_app_absent {K V} `{EqDecision K} (k : K) (v : V) m :
  JsMap.get k m = None -> JsMap.get k (m ++ [(k, v)]) = Some v.
Proof.
  intros Hget. rewrite <-(set_absent k v m Hget). apply get_set_eq.
Qed.

(** C3.  [upsertOrderItem] on a cart that already has an entry under the
    new item's key adds the new item's quantity to that entry and
    creates no entry: the keys and their order stay as they were and
    every other entry is untouched.  On a cart without that key it
    appends the new item after the existing entries, and a second item
    with the same key then merges into it, leaving one entry whose
    quantity is the sum of both.  The cart keeps at most one entry per
    key, and so the cart of the page has at most one entry per key
    after any sequence of events. *)
Theorem upsertOrderItem_merges_or_appends (item : order_item) (p : page) :
  JsMap.ok (orderState p) ->
  (forall existing,
      JsMap.get (it_key item) (orderState p) = Some existing ->
      JsMap.keys (orderState (upsertOrderItem item p))
        = JsMap.keys (orderState p)
      /\ JsMap.get (it_key item) (orderState (upsertOrderItem item p))
         = Some (addQuantity (it_quantity item) existing)
      /\ it_quantity (addQuantity (it_quantity item) existing)
         = (it_quantity existing + it_quantity item)%Z
      /\ forall k, k <> it_key item ->
           JsMap.get k (orderState (upsertOrderItem item p))
           = JsMap.get k (orderState p))
  /\ (JsMap.get (it_key item) (orderState p) = None ->
      orderState (upsertOrderItem item p)
        = orderState p ++ [(it_key item, item)]
      /\ forall item2, it_key item2 = it_key item ->
           orderState (upsertOrderItem item2 (upsertOrderItem item p))
             = orderState p
               ++ [(it_key item, addQuantity (it_quantity item2) item)]
           /\ it_quantity (addQuantity (it_quantity item2) item)
              = (it_quantity item + it_quantity item2)%Z)
  /\ JsMap.ok (orderState (upsertOrderItem item p))
  /\ (forall q, pageState q -> JsMap.ok (orderState q)).
Proof.
  intros Hok. simpl. split; [|split; [|split]].
  - intros existing Hget. rewrite (upsertCart_present _ _ _ Hget).
    split; [apply keys_set_present; eauto|].
    split; [apply get_set_eq|]. split; [done|].
    intros k Hk. by apply get_set_ne.
  - intros Hget. rewrite (upsertCart_absent _ _ Hget). split; [done|].
    intros item2 Hkey. split; [|done].
    rewrite (upsertCart_present item2 item).
    + rewrite Hkey, <-(set_absent _ item _ Hget).
      rewrite <-(set_absent _ (addQuantity (it_quantity item2) item) _ Hget).
      apply set_set.
    + rewrite Hkey. by apply get_app_absent.
  - by apply upsertCart_ok.
  - intros q Hq. by apply cartState_ok, pageState_cart.
Qed.

Lemma upsertOrderItem_merges_or_appends_witness :
  orderState (upsertOrderItem tea tea_and_rice)
  = [("1::base", addQuantity 1 tea); ("3::base", rice)]
  /\ JsMap.ok (orderState (upsertOrderItem tea tea_and_rice)).
Proof.
  assert (JsMap.ok (orderState tea_and_rice)) as Hok by concrete_nodup.
  destruct (upsertOrderItem_merges_or_appends tea tea_and_rice Hok)
    as (_ & _ & Hok' & _).
  split; [reflexivity | exact Hok'].
Defined.

(** C7.  [updateQuantity] adds [delta] to the quantity of the entry
    under the key.  When the new quantity is at most 0 (in particular
    exactly 0) the entry leaves the cart; otherwise it stays at its
    place with the new quantity.  The other entries are untouched, and
    with no entry under the key nothing changes at all. *)
Theorem updateQuantity_adjusts_or_removes (itemKey : string) (delta : Z)
    (p : page) :
  (forall item,
      JsMap.get itemKey (orderState p) = Some item ->
      ((it_quantity item + delta <= 0)%Z ->
         orderState (updateQuantity itemKey delta p)
           = JsMap.delete itemKey (orderState p)
         /\ JsMap.get itemKey (orderState (updateQuantity itemKey delta p))
            = None)
      /\ ((0 < it_quantity item + delta)%Z ->
         JsMap.get itemKey (orderState (updateQuantity itemKey delta p))
           = Some (addQuantity delta item)
         /\ it_quantity (addQuantity delta item)
            = (it_quantity item + delta)%Z
         /\ JsMap.keys (orderState (updateQuantity itemKey delta p))
            = JsMap.keys (orderState p))
      /\ forall k, k <> itemKey ->
           JsMap.get k (orderState (updateQuantity itemKey delta p))
           = JsMap.get k (orderState p))
  /\ (JsMap.get itemKey (orderState p) = None ->
      updateQuantity itemKey delta p = p).
Proof.
  split.
  - intros item Hget. rewrite orderState_updateQuantity.
    unfold updateCart. rewrite Hget. simpl. split; [|split].
    + intros Hle. rewrite decide_True by done.
      split; [done | apply get_delete_eq].
    + intros Hlt. rewrite decide_False by lia.
      split; [apply get_set_eq|]. split; [done|].
      apply keys_set_present. eauto.
    + intros k Hk. case_decide.
      * by apply get_delete_ne.
      * by apply get_set_ne.
  - intros Hget. unfold updateQuantity. by rewrite Hget.
Qed.

Example updateQuantity_to_zero :
  orderState (updateQuantity "1::base" (-1) tea_and_rice)
  = [("3::base", rice)]
  /\ orderState (updateQuantity "3::base" (-1) tea_and_rice)
     = [("1::base", tea); ("3::base", addQuantity (-1) rice)]
  /\ updateQuantity "9::base" (-1) tea_and_rice = tea_and_rice.
Proof. by repeat split. Qed.

(** ** Order submission *)

(** C6.  Submission is all or nothing for the cart.  The code that runs
    before the request leaves the cart and the note alone.  Once the
    answer is there: on a success response the cart is empty and the
    note is the empty string; on a failure (the request is rejected, the
    response is not ok, or its body cannot be read) the cart and the
    note are what they were, with nothing cleared.  This holds for the
    whole of [submitOrder] and for its second half resumed in any page
    state. *)
Theorem submitOrder_all_or_nothing (o : submit_outcome) (p : page) :
  orderState (submitStart p) = orderState p
  /\ noteField (submitStart p) = noteField p
  /\ match o with
     | ResponseOk =>
         orderState (submitOrder o p) = []
         /\ noteField (submitOrder o p) = ""
         /\ orderState (submitFinish o p) = []
         /\ noteField (submitFinish o p) = ""
     | _ =>
         orderState (submitOrder o p) = orderState p
         /\ noteField (submitOrder o p) = noteField p
         /\ orderState (submitFinish o p) = orderState p
         /\ noteField (submitFinish o p) = noteField p
     end.
Proof. by destruct o. Qed.

Example submitOrder_scenarios :
  orderState (submitOrder ResponseOk tea_and_rice) = []
  /\ submitDisabled (submitOrder ResponseOk tea_and_rice) = true
  /\ orderState (submitOrder (FetchRejected "Failed to fetch") tea_and_rice)
     = orderState tea_and_rice
  /\ orderStatusMessage
       (submitOrder (ResponseNotOk (BodyText "")) tea_and_rice)
     = msgSubmitFailed
  /\ submitDisabled (submitOrder (ResponseNotOk (BodyText "")) tea_and_rice)
     = false.
Proof. by repeat split. Qed.

(** ** Validation *)

Lemma violation_unanswered g sel :
  violation g sel
  = if unanswered sel then Some (violationMessage g sel) else None.
Proof.
  destruct sel as [n [c|]|n m]; simpl; try done.
  unfold JsMap.size. by destruct m.
Qed.

Lemma validateEntries_find groupIndex entries :
  validateEntries groupIndex entries
  = match List.find (fun e => bool_decide
                        (is_Some (violatedGroup groupIndex e))) entries with
    | Some e =>
        match violatedGroup groupIndex e with
        | Some g => Some (violationMessage g e.2)
        | None => None
        end
    | None => None
    end.
Proof.
  induction entries as [|[gid sel] entries IH]; simpl; [done|].
  destruct (violatedGroup groupIndex (gid, sel)) as [g'|] eqn:Hv;
    pose proof Hv as Hv';
    unfold violatedGroup in Hv; simpl in *;
    destruct (JsMap.get gid groupIndex) as [g|]; try done;
    rewrite violation_unanswered;
    destruct (g_is_required g), (unanswered sel); simpl in *; try done.
  rewrite Hv'. by injection Hv as ->.
Qed.

Lemma violationMessage_nonempty g sel : violationMessage g sel <> "".
Proof. by destruct sel. Qed.

Lemma find_first {A} (f : A -> bool) (l : list A) (x : A) :
  List.find f l = Some x ->
  exists pre post,
    l = pre ++ x :: post /\ f x = true /\ Forall (fun y => f y = false) pre.
Proof.
  induction l as [|a l IH]; simpl; [done|].
  destruct (f a) eqn:Hfa.
  - intros [= ->]. exists [], l. by repeat split.
  - intros Hfind. destruct (IH Hfind) as (pre & post & -> & Hx & Hpre).
    exists (a :: pre), post. repeat split; [done|]. by constructor.
Qed.

Lemma firstViolation_Some st g sel :
  firstViolation st = Some (g, sel) ->
  g_is_required g = true /\ unanswered sel = true
  /\ exists groupId pre post,
       ms_selections st = pre ++ (groupId, sel) :: post
       /\ JsMap.get groupId (ms_groupIndex st) = Some g
       /\ Forall (fun e => violatedGroup (ms_groupIndex st) e = None) pre.
Proof.
  unfold firstViolation.
  destruct (List.find _ _) as [[gid sel']|] eqn:Hfind; [|done].
  destruct (violatedGroup _ _) as [g'|] eqn:Hv; [|done].
  intros [= -> ->].
  apply find_first in Hfind as (pre & post & Hsplit & _ & Hpre).
  unfold violatedGroup in Hv. simpl in Hv.
  destruct (JsMap.get gid (ms_groupIndex st)) as [g0|] eqn:Hget; [|done].
  destruct (g_is_required g0) eqn:Hreq, (unanswered sel) eqn:Hun;
    simpl in Hv; try done.
  injection Hv as ->. split; [done|]. split; [done|].
  exists gid, pre, post. split; [done|]. split; [done|].
  eapply Forall_impl; [exact Hpre|]. intros e He. simpl in He.
  apply bool_decide_eq_false_1 in He.
  destruct (violatedGroup (ms_groupIndex st) e); [|done].
  exfalso. apply He. eauto.
Qed.

(** C5.  With a session open, [validateSelections] returns the error
    that names the first group, in the order of the selections, that is
    required and violated (a single selection without chosen option, a
    multiple selection with an empty chosen set), and [null] when there
    is none.  The error is never empty, and when the add button is
    clicked it is shown and nothing else happens: the cart, the session
    state and the visibility of the modal are what they were. *)
Theorem validateSelections_first_violation (st : modal_state) (p : page) :
  modalState p = Some st ->
  match firstViolation st with
  | Some (g, sel) =>
      g_is_required g = true /\ unanswered sel = true
      /\ (exists groupId pre post,
            ms_selections st = pre ++ (groupId, sel) :: post
            /\ JsMap.get groupId (ms_groupIndex st) = Some g
            /\ Forall (fun e => violatedGroup (ms_groupIndex st) e = None)
                      pre)
      /\ validateSelections (Some st) = Some (violationMessage g sel)
      /\ violationMessage g sel <> ""
      /\ onAddClick p = withAlert (violationMessage g sel) p
      /\ orderState (onAddClick p) = orderState p
      /\ modalState (onAddClick p) = Some st
      /\ modalHidden (onAddClick p) = modalHidden p
  | None =>
      validateSelections (Some st) = None
      /\ onAddClick p = closeCustomization (addCustomizedItem st p)
  end.
Proof.
  intros Hst.
  destruct (firstViolation st) as [[g sel]|] eqn:Hfirst.
  - destruct (firstViolation_Some st g sel Hfirst) as (Hreq & Hun & Hsplit).
    assert (validateSelections (Some st) = Some (violationMessage g sel))
      as Hval.
    { simpl. rewrite validateEntries_find.
      unfold firstViolation in Hfirst.
      destruct (List.find _ _) as [e|]; [|done].
      destruct (violatedGroup _ _) as [g'|]; [|done].
      by injection Hfirst as -> <-. }
    assert (onAddClick p = withAlert (violationMessage g sel) p) as Hclick.
    { unfold onAddClick. rewrite Hst, Hval.
      rewrite decide_False; [done | apply violationMessage_nonempty]. }
    repeat (split; [done|]).
    split; [apply violationMessage_nonempty|].
    split; [done|]. rewrite Hclick. by repeat split.
  - assert (validateSelections (Some st) = None) as Hval.
    { simpl. rewrite validateEntries_find.
      unfold firstViolation in Hfirst.
      destruct (List.find _ _) as [e|]; [|done].
      by destruct (violatedGroup _ _). }
    split; [done|]. unfold onAddClick. by rewrite Hst, Hval.
Qed.

Lemma validateSelections_first_violation_witness :
  validateSelections (Some sauce_open) = Some (msgChooseSome +:+ "Sauce")
  /\ onAddClick sauce_page = withAlert (msgChooseSome +:+ "Sauce") sauce_page
  /\ orderState (onAddClick sauce_page) = orderState tea_and_rice.
Proof.
  pose proof (validateSelections_first_violation sauce_open sauce_page
                eq_refl) as H.
  change (firstViolation sauce_open) with
    (Some (Group 20 "Sauce" TypeMultiple true
             [CatOption 1 "Chili" None; CatOption 2 "Soy" None],
           SelMultiple "Sauce" [])) in H.
  destruct H as (_ & _ & _ & Hval & _ & Hclick & Hcart & _).
  split; [exact Hval|]. split; [exact Hclick | exact Hcart].
Defined.

(** ** The special toggle and the cart key *)

Lemma orderState_addCustomizedItem st p :
  orderState (addCustomizedItem st p)
  = upsertCart (customizedItem st) (orderState p).
Proof. done. Qed.

(** C10.  The key of a customized item is built from the menu item id
    and the group selections alone.  Two session states of the same
    item with the same selections, whatever their special toggles and
    unit prices, give the same key.  Adding the second to a cart that
    holds an entry under that key only adds its quantity to the entry:
    unit price, name, note and selections of the entry stay.  Added one
    after the other to a cart without the key they leave one entry, the
    first item with the sum of the quantities, so the unit price of the
    second is lost. *)
Theorem special_toggle_is_not_in_key (st1 st2 : modal_state) (p : page) :
  ms_menuItemId st1 = ms_menuItemId st2 ->
  ms_selections st1 = ms_selections st2 ->
  it_key (customizedItem st1) = it_key (customizedItem st2)
  /\ (forall existing,
        JsMap.get (it_key (customizedItem st2)) (orderState p)
          = Some existing ->
        exists merged,
          JsMap.get (it_key (customizedItem st2))
                    (orderState (addCustomizedItem st2 p)) = Some merged
          /\ JsMap.keys (orderState (addCustomizedItem st2 p))
             = JsMap.keys (orderState p)
          /\ it_quantity merged
             = (it_quantity existing + ms_quantity st2)%Z
          /\ it_unitPrice merged = it_unitPrice existing
          /\ it_name merged = it_name existing
          /\ it_note merged = it_note existing
          /\ it_selections merged = it_selections existing)
  /\ (JsMap.get (it_key (customizedItem st1)) (orderState p) = None ->
      orderState (addCustomizedItem st2 (addCustomizedItem st1 p))
      = orderState p
        ++ [(it_key (customizedItem st1),
             addQuantity (ms_quantity st2) (customizedItem st1))]).
Proof.
  intros Hid Hsel.
  assert (it_key (customizedItem st1) = it_key (customizedItem st2)) as Hkey.
  { simpl. by rewrite Hid, Hsel. }
  split; [done|]. split.
  - intros existing Hget.
    exists (addQuantity (it_quantity (customizedItem st2)) existing).
    rewrite orderState_addCustomizedItem.
    rewrite (upsertCart_present _ _ _ Hget).
    split; [apply get_set_eq|].
    split; [apply keys_set_present; eauto|]. done.
  - intros Hget.
    rewrite !orderState_addCustomizedItem.
    rewrite (upsertCart_absent _ _ Hget).
    rewrite (upsertCart_present (customizedItem st2) (customizedItem st1)).
    + rewrite <-Hkey.
      rewrite <-(set_absent _ (customizedItem st1) _ Hget).
      rewrite <-(set_absent _ (addQuantity _ (customizedItem st1)) _ Hget).
      apply set_set.
    + rewrite <-Hkey. by apply get_app_absent.
Qed.

Lemma special_toggle_is_not_in_key_witness :
  it_key (customizedItem padthai_plain) = "8::base"
  /\ it_key (customizedItem padthai_special) = "8::base"
  /\ it_unitPrice (customizedItem padthai_plain) = 40.00%Q
  /\ it_unitPrice (customizedItem padthai_special) = 50.00%Q
  /\ orderState (addCustomizedItem padthai_special
                   (addCustomizedItem padthai_plain emptyPage))
     = [("8::base", addQuantity 1 (customizedItem padthai_plain))].
Proof.
  destruct (special_toggle_is_not_in_key padthai_plain padthai_special
              emptyPage eq_refl eq_refl) as (Hkey & _ & Hmerge).
  split; [reflexivity|]. split; [by rewrite <-Hkey|].
  split; [reflexivity|]. split; [reflexivity|].
  exact (Hmerge eq_refl).
Defined.

(** ** Defaults of required single groups *)

Lemma get_foldl_set_other {A K V} `{EqDecision K} (key : A -> K)
    (val : A -> V) (l : list A) (m0 : list (K * V)) (k : K) :
  k ∉ map key l ->
  JsMap.get k (foldl (fun m a => JsMap.set (key a) (val a) m) m0 l)
  = JsMap.get k m0.
Proof.
  revert m0. induction l as [|a l IH]; intros m0; simpl; [done|].
  intros [Hne Hnot]%not_elem_of_cons.
  rewrite IH by done. by apply get_set_ne.
Qed.

Lemma get_foldl_set {A K V} `{EqDecision K} (key : A -> K)
    (val : A -> V) (l : list A) (m0 : list (K * V)) (x : A) :
  NoDup (map key l) -> x ∈ l ->
  JsMap.get (key x) (foldl (fun m a => JsMap.set (key a) (val a) m) m0 l)
  = Some (val x).
Proof.
  revert m0. induction l as [|a l IH]; intros m0; simpl.
  - intros _ Hx. by apply elem_of_nil in Hx.
  - intros [Hnot Hnd]%NoDup_cons [->|Hx]%elem_of_cons.
    + rewrite get_foldl_set_other by done. apply get_set_eq.
    + by apply IH.
Qed.

Lemma get_initializeSelections groups g :
  NoDup (map g_id groups) -> g ∈ groups ->
  JsMap.get (g_id g) (initializeSelections groups)
  = Some (initialSelection g).
Proof. apply (get_foldl_set g_id initialSelection). Qed.

Lemma get_groupIndex groups g :
  NoDup (map g_id groups) -> g ∈ groups ->
  JsMap.get (g_id g) (JsMap.of_pairs (map (fun g => (g_id g, g)) groups))
  = Some g.
Proof.
  intros Hnd Hg. unfold JsMap.of_pairs.
  apply (get_foldl_set fst snd _ [] (g_id g, g)).
  - by rewrite map_map.
  - by apply (list_elem_of_fmap_2 (fun g => (g_id g, g))).
Qed.

Lemma renderOptions_chosen g n c ios :
  g_selection_type g = TypeSingle ->
  renderOptions g (SelSingle n (Some c)) ios = Some (SelSingle n (Some c)).
Proof.
  intros Hty. induction ios as [|io ios IH]; simpl; [done|].
  unfold renderOption. rewrite Hty. by case_bool_decide.
Qed.

Lemma renderOptions_optional g n ios :
  g_selection_type g = TypeSingle -> g_is_required g = false ->
  renderOptions g (SelSingle n None) ios = Some (SelSingle n None).
Proof.
  intros Hty Hreq. induction ios as [|io ios IH]; simpl; [done|].
  unfold renderOption. by rewrite Hty, Hreq.
Qed.

Lemma renderOptions_multiple g n m ios :
  g_selection_type g = TypeMultiple ->
  renderOptions g (SelMultiple n m) ios = Some (SelMultiple n m).
Proof.
  intros Hty. induction ios as [|io ios IH]; simpl; [done|].
  unfold renderOption. by rewrite Hty.
Qed.

(** Rendering a group leaves its freshly initialised selection as it
    is. *)
Lemma renderOptions_initial g :
  renderOptions g (initialSelection g) (imap pair (g_options g))
  = Some (initialSelection g).
Proof.
  unfold initialSelection.
  destruct (g_selection_type g) eqn:Hty.
  - destruct (g_is_required g) eqn:Hreq.
    + destruct (g_options g) as [|o rest]; [done|].
      by apply renderOptions_chosen.
    + by apply renderOptions_optional.
  - by apply renderOptions_multiple.
Qed.

Lemma renderGroups_initial groups s :
  (forall g, g ∈ groups -> JsMap.get (g_id g) s = Some (initialSelection g)) ->
  renderGroups groups s = Some s.
Proof.
  induction groups as [|g groups IH]; intros Hall; simpl; [done|].
  unfold renderGroup. rewrite (Hall g) by apply list_elem_of_here.
  rewrite renderOptions_initial.
  rewrite set_same by (apply Hall, list_elem_of_here).
  apply IH. intros g' Hg'. by apply Hall, list_elem_of_further.
Qed.

Lemma openedState_distinct menuItemId name basePrice config :
  NoDup (map g_id (cfg_groups config)) ->
  openedState menuItemId name basePrice config
  = Some (updateModalSummary
            (setSelections (initializeSelections (cfg_groups config))
               (newModalState menuItemId name basePrice config))).
Proof.
  intros Hnd. unfold openedState.
  rewrite renderGroups_initial; [done|].
  intros g Hg. by apply get_initializeSelections.
Qed.

Lemma pretty_N_go_nonempty x s : s <> "" -> pretty_N_go x s <> "".
Proof.
  revert s. induction (N.lt_wf_0 x) as [x _ IH]; intros s Hs.
  assert (x = 0 \/ 0 < x)%N as [->|Hpos] by lia.
  - by rewrite pretty_N_go_0.
  - rewrite pretty_N_go_step by done. apply IH; [by apply N.div_lt | done].
Qed.

Lemma pretty_nonempty (n : N) : pretty n <> "".
Proof.
  unfold pretty, pretty_N. case_decide; [done|].
  rewrite pretty_N_go_step by lia. by apply pretty_N_go_nonempty.
Qed.

Lemma updateModalSummary_idem st :
  updateModalSummary
    (setSelections (ms_selections (updateModalSummary st))
                   (updateModalSummary st))
  = updateModalSummary st.
Proof. done. Qed.

(** C8.  Opening the customization of an item with distinct group ids
    gives every required single group with at least one option its
    first option as the selection.  That selection is the one a click
    on the first option produces: the change event for it leaves the
    whole session state, and so the unit price and the key, as they
    are.  For item 2 with base price 40 and one required single group
    10 with the single option 100 at price 5 the session opens with the
    key ["2::10:100"] and the unit price 45.00. *)
Theorem required_single_group_defaults_to_first_option
    (menuItemId : N) (name : string) (basePrice : Q) (config : menu_config)
    (g : group) (o : cat_option) (rest : list cat_option) :
  NoDup (map g_id (cfg_groups config)) ->
  g ∈ cfg_groups config ->
  g_selection_type g = TypeSingle ->
  g_is_required g = true ->
  g_options g = o :: rest ->
  (exists st,
      openedState menuItemId name basePrice config = Some st
      /\ JsMap.get (g_id g) (ms_selections st)
         = Some (SelSingle (g_name g) (Some (chosenOf o)))
      /\ onOptionChange (g_id g) (optionIdString o) true st = st)
  /\ (exists st,
        openedState 2 name 40 scenario_config = Some st
        /\ JsMap.get 10%N (ms_selections st)
           = Some (SelSingle "Size" (Some (Chosen "100" "Large" 5)))
        /\ ms_currentUnitPrice st = Some 45.00%Q
        /\ (45.00 == 45)%Q
        /\ formatCurrency (it_unitPrice (customizedItem st)) = "45.00"
        /\ it_key (customizedItem st) = "2::10:100").
Proof.
  intros Hnd Hg Hty Hreq Hopts. split.
  - eexists. split; [by apply openedState_distinct|].
    assert (JsMap.get (g_id g) (initializeSelections (cfg_groups config))
            = Some (SelSingle (g_name g) (Some (chosenOf o)))) as Hget.
    { rewrite get_initializeSelections by done.
      unfold initialSelection. by rewrite Hty, Hreq, Hopts. }
    split; [exact Hget|].
    unfold onOptionChange. simpl ms_selections. rewrite Hget.
    assert (changeSelection
              (updateModalSummary
                 (setSelections (initializeSelections (cfg_groups config))
                    (newModalState menuItemId name basePrice config)))
              (g_id g) (optionIdString o) true
              (SelSingle (g_name g) (Some (chosenOf o)))
            = SelSingle (g_name g) (Some (chosenOf o))) as ->.
    { simpl. rewrite decide_False by apply pretty_nonempty.
      unfold getOptionData. simpl ms_groupIndex.
      rewrite get_groupIndex by done. rewrite Hopts. simpl.
      by rewrite bool_decide_eq_true_2. }
    rewrite set_same by done. reflexivity.
  - eexists. split; [reflexivity|]. by repeat split.
Qed.

Lemma required_single_group_defaults_to_first_option_witness :
  exists st,
    openedState 2 "Iced tea" 40 scenario_config = Some st
    /\ JsMap.get 10%N (ms_selections st)
       = Some (SelSingle "Size" (Some (Chosen "100" "Large" 5)))
    /\ onOptionChange 10 "100" true st = st
    /\ ms_currentUnitPrice st = Some 45.00%Q.
Proof.
  destruct (required_single_group_defaults_to_first_option
              2 "Iced tea" 40 scenario_config
              (Group 10 "Size" TypeSingle true
                 [CatOption 100 "Large" (Some 5%Q)])
              (CatOption 100 "Large" (Some 5%Q)) [])
    as [(st & Hopen & Hget & Hchange) _].
  - concrete_nodup.
  - apply list_elem_of_here.
  - reflexivity.
  - reflexivity.
  - reflexivity.
  - exists st. split; [exact Hopen|]. split; [exact Hget|].
    split; [exact Hchange|].
    change (openedState 2 "Iced tea" 40 scenario_config)
      with (Some (updateModalSummary
                    (setSelections
                       (initializeSelections (cfg_groups scenario_config))
                       (newModalState 2 "Iced tea" 40 scenario_config))))
      in Hopen.
    injection Hopen as <-. reflexivity.
Defined.

(** ** Binary floating-point numbers

    [double] rounds to the nearest number of 53 bits: it is monotone,
    leaves such a number as it is, and errs by at most the fraction
    [2^-53] of the magnitude (and by at most [2^-1075] near zero). *)

Lemma pow2_pos e : (0 < pow2 e)%Q.
Proof. by apply Qpower_0_lt. Qed.

Lemma pow2_add a b : (pow2 (a + b) == pow2 a * pow2 b)%Q.
Proof. by apply Qpower_plus. Qed.

Lemma pow2_le a b : (a <= b)%Z -> (pow2 a <= pow2 b)%Q.
Proof. intros Hab. by apply Qpower_le_compat_l. Qed.

Lemma pow2_lt a b : (a < b)%Z -> (pow2 a < pow2 b)%Q.
Proof. intros Hab. by apply Qpower_lt_compat_l. Qed.

Lemma pow2_lt_inv a b : (pow2 a < pow2 b)%Q -> (a < b)%Z.
Proof. intros Hab. by apply (Qpower_lt_compat_l_inv 2). Qed.

Lemma pow2_Z n : (0 <= n)%Z -> (pow2 n == inject_Z (2 ^ n))%Q.
Proof. intros Hn. unfold pow2. by rewrite Zpower_Qpower. Qed.

Lemma pow2_succ e : (pow2 (e + 1) == 2 * pow2 e)%Q.
Proof. rewrite pow2_add. unfold pow2 at 2. simpl. lra. Qed.

Lemma Qmake_mult n d : (Qmake n d * inject_Z (Z.pos d) == inject_Z n)%Q.
Proof. unfold Qeq, Qmult, inject_Z. simpl. lia. Qed.

Lemma ilog2_spec x :
  (0 < x)%Q -> (pow2 (ilog2 x) <= x)%Q /\ (x < pow2 (ilog2 x + 1))%Q.
Proof.
  intros Hx. unfold ilog2.
  destruct x as [n d]. cbn [Qnum Qden].
  assert (0 < n)%Z as Hn. { unfold Qlt in Hx. simpl in Hx. lia. }
  set (a := Z.log2 n). set (b := Z.log2 (Z.pos d)).
  pose proof (Z.log2_nonneg n) as Ha0. fold a in Ha0.
  pose proof (Z.log2_nonneg (Z.pos d)) as Hb0. fold b in Hb0.
  destruct (Z.log2_spec n Hn) as [Ha1 Ha2]. fold a in Ha1, Ha2.
  destruct (Z.log2_spec (Z.pos d) ltac:(lia)) as [Hb1 Hb2].
  fold b in Hb1, Hb2.
  pose proof (Qmake_mult n d) as Hmul.
  set (X := Qmake n d) in *. set (D := inject_Z (Z.pos d)) in *.
  set (N := inject_Z n) in *.
  assert (0 < D)%Q as HD. { unfold D, Qlt, inject_Z. simpl. lia. }
  assert (pow2 a <= N)%Q as HaN.
  { rewrite pow2_Z by done. unfold N. by rewrite <-Zle_Qle. }
  assert (N < pow2 (a + 1))%Q as HNa.
  { rewrite pow2_Z by lia. unfold N. by rewrite <-Zlt_Qlt. }
  assert (pow2 b <= D)%Q as HbD.
  { rewrite pow2_Z by done. unfold D. by rewrite <-Zle_Qle. }
  assert (D < pow2 (b + 1))%Q as HDb.
  { rewrite pow2_Z by lia. unfold D. by rewrite <-Zlt_Qlt. }
  assert (pow2 (a - b - 1) < X)%Q as Hlow.
  { apply (Qmult_lt_r _ _ D HD). rewrite Hmul.
    apply Qlt_le_trans with (pow2 (a - b - 1) * pow2 (b + 1))%Q.
    - apply Qmult_lt_l; [apply pow2_pos | done].
    - rewrite <-pow2_add. by replace (a - b - 1 + (b + 1))%Z with a by lia. }
  assert (X < pow2 (a - b + 1))%Q as Hhigh.
  { apply (Qmult_lt_r _ _ D HD). rewrite Hmul.
    apply Qlt_le_trans with (pow2 (a + 1)); [done|].
    replace (a + 1)%Z with (a - b + 1 + b)%Z by lia. rewrite pow2_add.
    apply Qmult_le_l; [apply pow2_pos | done]. }
  destruct (Qlt_le_dec X (pow2 (a - b))) as [Hlt|Hge].
  - split; [by apply Qlt_le_weak|].
    by replace (a - b - 1 + 1)%Z with (a - b)%Z by lia.
  - done.
Qed.

Lemma ilog2_unique x k :
  (0 < x)%Q -> (pow2 k <= x)%Q -> (x < pow2 (k + 1))%Q -> ilog2 x = k.
Proof.
  intros Hx Hk1 Hk2. destruct (ilog2_spec x Hx) as [H1 H2].
  assert (pow2 (ilog2 x) < pow2 (k + 1))%Q as Ha
    by by eapply Qle_lt_trans.
  assert (pow2 k < pow2 (ilog2 x + 1))%Q as Hb
    by by eapply Qle_lt_trans.
  apply pow2_lt_inv in Ha, Hb. lia.
Qed.

Lemma ilog2_comp x y : (0 < x)%Q -> (x == y)%Q -> ilog2 x = ilog2 y.
Proof.
  intros Hx Hxy. symmetry. destruct (ilog2_spec x Hx) as [H1 H2].
  apply ilog2_unique; by rewrite <-Hxy.
Qed.

Lemma ilog2_mono x y : (0 < x)%Q -> (x <= y)%Q -> (ilog2 x <= ilog2 y)%Z.
Proof.
  intros Hx Hxy.
  destruct (ilog2_spec x Hx) as [H1 _].
  destruct (ilog2_spec y ltac:(lra)) as [_ H2].
  assert (pow2 (ilog2 x) < pow2 (ilog2 y + 1))%Q as Ha by lra.
  apply pow2_lt_inv in Ha. lia.
Qed.

(** Rounding to the nearest integer. *)

Lemma roundEven_cases r :
  ((r - inject_Z (Qfloor r) < 1 # 2)%Q /\ roundEven r = Qfloor r)
  \/ ((1 # 2 < r - inject_Z (Qfloor r))%Q
      /\ roundEven r = (Qfloor r + 1)%Z)
  \/ ((r - inject_Z (Qfloor r) == 1 # 2)%Q
      /\ roundEven r
         = if Z.even (Qfloor r) then Qfloor r else (Qfloor r + 1)%Z).
Proof.
  unfold roundEven.
  destruct (r - inject_Z (Qfloor r) ?= 1 # 2)%Q eqn:Hc.
  - right; right. split; [by apply Qeq_alt | done].
  - left. split; [by apply Qlt_alt | done].
  - right; left. split; [by apply Qgt_alt | done].
Qed.

Lemma floor_bounds r :
  (inject_Z (Qfloor r) <= r)%Q /\ (r < inject_Z (Qfloor r) + 1)%Q.
Proof.
  split; [apply Qfloor_le|].
  pose proof (Qlt_floor r) as H. by rewrite inject_Z_plus in H.
Qed.

Lemma roundEven_err r :
  (- (1 # 2) <= inject_Z (roundEven r) - r)%Q
  /\ (inject_Z (roundEven r) - r <= 1 # 2)%Q.
Proof.
  destruct (floor_bounds r) as [Hlo Hhi].
  destruct (roundEven_cases r) as [[Hc ->]|[[Hc ->]|[Hc ->]]];
    try destruct (Z.even (Qfloor r));
    rewrite ?inject_Z_plus; change (inject_Z 1) with 1%Q; split; lra.
Qed.

Lemma roundEven_Z z : roundEven (inject_Z z) = z.
Proof.
  destruct (roundEven_cases (inject_Z z)) as [[Hc ->]|[[Hc ->]|[Hc ->]]];
    rewrite Qfloor_Z in *; try done; lra.
Qed.

Lemma roundEven_comp r s : (r == s)%Q -> roundEven r = roundEven s.
Proof.
  intros Hrs. unfold roundEven. rewrite (Qfloor_comp r s Hrs).
  by rewrite Hrs.
Qed.

Lemma roundEven_mono r s : (r <= s)%Q -> (roundEven r <= roundEven s)%Z.
Proof.
  intros Hrs.
  pose proof (Qfloor_resp_le r s Hrs) as Hf.
  destruct (floor_bounds r) as [Hr1 Hr2].
  destruct (floor_bounds s) as [Hs1 Hs2].
  assert (Qfloor r = Qfloor s \/ (Qfloor r + 1 <= Qfloor s)%Z) as [Heq|Hlt]
    by lia.
  - destruct (roundEven_cases r) as [[Hc ->]|[[Hc ->]|[Hc ->]]],
             (roundEven_cases s) as [[Hd ->]|[[Hd ->]|[Hd ->]]];
      rewrite <-?Heq in *; try destruct (Z.even (Qfloor r)); try lia; lra.
  - assert (roundEven r <= Qfloor r + 1)%Z.
    { destruct (roundEven_cases r) as [[Hc ->]|[[Hc ->]|[Hc ->]]];
        try destruct (Z.even (Qfloor r)); lia. }
    assert (Qfloor s <= roundEven s)%Z.
    { destruct (roundEven_cases s) as [[Hc ->]|[[Hc ->]|[Hc ->]]];
        try destruct (Z.even (Qfloor s)); lia. }
    lia.
Qed.

Lemma roundEven_ge z r : (inject_Z z <= r)%Q -> (z <= roundEven r)%Z.
Proof.
  intros H. rewrite <-(roundEven_Z z). by apply roundEven_mono.
Qed.

Lemma roundEven_le z r : (r <= inject_Z z)%Q -> (roundEven r <= z)%Z.
Proof.
  intros H. rewrite <-(roundEven_Z z). by apply roundEven_mono.
Qed.

(** Rounding to 53 bits. *)

Lemma div_mul x s : (0 < s)%Q -> (x / s * s == x)%Q.
Proof. intros Hs. field. lra. Qed.

Lemma mul_div x s : (0 < s)%Q -> (x * s / s == x)%Q.
Proof. intros Hs. field. lra. Qed.

Lemma fexp_cases x :
  (fexp x = (ilog2 x - 52)%Z /\ (-1074 <= ilog2 x - 52)%Z)
  \/ (fexp x = (-1074)%Z /\ (ilog2 x - 52 < -1074)%Z).
Proof. unfold fexp. lia. Qed.

Lemma fexp_ge x : (-1074 <= fexp x)%Z.
Proof. unfold fexp. lia. Qed.

Lemma fexp_comp x y : (0 < x)%Q -> (x == y)%Q -> fexp x = fexp y.
Proof. intros Hx Hxy. unfold fexp. by rewrite (ilog2_comp x y). Qed.

Lemma nearest_err x :
  (- ((1 # 2) * pow2 (fexp x)) <= nearest x - x)%Q
  /\ (nearest x - x <= (1 # 2) * pow2 (fexp x))%Q.
Proof.
  unfold nearest. set (s := pow2 (fexp x)).
  assert (0 < s)%Q as Hs by apply pow2_pos.
  pose proof (div_mul x s Hs) as Hq.
  destruct (roundEven_err (x / s)) as [H1 H2].
  set (q := (x / s)%Q) in *. set (m := inject_Z (roundEven q)) in *.
  assert (0 <= (m - q + (1 # 2)) * s)%Q as Ha
    by (apply Qmult_le_0_compat; lra).
  assert (0 <= ((1 # 2) - (m - q)) * s)%Q as Hb
    by (apply Qmult_le_0_compat; lra).
  split; lra.
Qed.

Lemma nearest_zero x : (x == 0)%Q -> (nearest x == 0)%Q.
Proof.
  intros Hx. unfold nearest.
  rewrite (roundEven_comp (x / pow2 (fexp x)) (inject_Z 0)).
  - rewrite roundEven_Z. change (inject_Z 0) with 0%Q. lra.
  - generalize (pow2 (fexp x)). intros s. rewrite Hx.
    change (inject_Z 0) with 0%Q. unfold Qdiv. lra.
Qed.

Lemma nearest_nonneg x : (0 <= x)%Q -> (0 <= nearest x)%Q.
Proof.
  intros Hx. unfold nearest.
  apply Qmult_le_0_compat; [|apply Qlt_le_weak, pow2_pos].
  change 0%Q with (inject_Z 0). rewrite <-Zle_Qle.
  apply roundEven_ge. change (inject_Z 0) with 0%Q.
  apply Qle_shift_div_l; [apply pow2_pos | lra].
Qed.

Lemma nearest_comp x y : (0 <= x)%Q -> (x == y)%Q -> (nearest x == nearest y)%Q.
Proof.
  intros Hx Hxy. destruct (Qlt_le_dec 0 x) as [Hpos|Hzero].
  - unfold nearest. rewrite <-(fexp_comp x y Hpos Hxy).
    rewrite (roundEven_comp (x / pow2 (fexp x)) (y / pow2 (fexp x)));
      [done|].
    generalize (pow2 (fexp x)). intros s. by rewrite Hxy.
  - rewrite (nearest_zero x) by lra. rewrite (nearest_zero y) by lra. done.
Qed.

(** Bounds by powers of two carry over from a number to its nearest. *)
Lemma nearest_upper x k :
  (0 <= k)%Z -> (x <= pow2 (fexp x + k))%Q ->
  (nearest x <= pow2 (fexp x + k))%Q.
Proof.
  intros Hk Hx. unfold nearest. set (s := pow2 (fexp x)).
  assert (0 < s)%Q as Hs by apply pow2_pos.
  rewrite pow2_add in *. fold s in Hx |- *.
  rewrite (Qmult_comm s). apply Qmult_le_compat_r; [|lra].
  rewrite pow2_Z by done. rewrite <-Zle_Qle. apply roundEven_le.
  rewrite <-pow2_Z by done. apply Qle_shift_div_r; [done|lra].
Qed.

Lemma nearest_lower x k :
  (0 <= k)%Z -> (pow2 (fexp x + k) <= x)%Q ->
  (pow2 (fexp x + k) <= nearest x)%Q.
Proof.
  intros Hk Hx. unfold nearest. set (s := pow2 (fexp x)).
  assert (0 < s)%Q as Hs by apply pow2_pos.
  rewrite pow2_add in *. fold s in Hx |- *.
  rewrite (Qmult_comm s). apply Qmult_le_compat_r; [|lra].
  rewrite pow2_Z by done. rewrite <-Zle_Qle. apply roundEven_ge.
  rewrite <-pow2_Z by done. apply Qle_shift_div_l; [done|lra].
Qed.

Lemma below_next_binade x : (0 < x)%Q -> (x <= pow2 (fexp x + 53))%Q.
Proof.
  intros Hx. destruct (ilog2_spec x Hx) as [_ H].
  apply Qlt_le_weak, Qlt_le_trans with (pow2 (ilog2 x + 1)); [done|].
  apply pow2_le. unfold fexp. lia.
Qed.

Lemma above_binade x :
  (0 < x)%Q -> (-1074 < fexp x)%Z -> (pow2 (fexp x + 52) <= x)%Q.
Proof.
  intros Hx He. destruct (ilog2_spec x Hx) as [H _].
  destruct (fexp_cases x) as [[Hf _]|[Hf _]]; [|lia].
  rewrite Hf. by replace (ilog2 x - 52 + 52)%Z with (ilog2 x) by lia.
Qed.

Lemma nearest_mono x y :
  (0 <= x)%Q -> (x <= y)%Q -> (nearest x <= nearest y)%Q.
Proof.
  intros Hx Hxy. destruct (Qlt_le_dec 0 x) as [Hpos|Hzero].
  2:{ rewrite (nearest_zero x) by lra. apply nearest_nonneg. lra. }
  assert (0 < y)%Q as Hy by lra.
  assert (fexp x <= fexp y)%Z as Hexp.
  { pose proof (ilog2_mono x y Hpos Hxy). unfold fexp. lia. }
  assert (fexp x = fexp y \/ fexp x + 1 <= fexp y)%Z as [Heq|Hlt] by lia.
  - unfold nearest. rewrite <-Heq.
    apply Qmult_le_compat_r; [|apply Qlt_le_weak, pow2_pos].
    rewrite <-Zle_Qle. apply roundEven_mono.
    apply Qmult_le_compat_r; [done|].
    apply Qlt_le_weak, Qinv_lt_0_compat, pow2_pos.
  - apply Qle_trans with (pow2 (fexp x + 53)).
    + apply nearest_upper; [lia | by apply below_next_binade].
    + apply Qle_trans with (pow2 (fexp y + 52)).
      * apply pow2_le. lia.
      * apply nearest_lower; [lia|]. apply above_binade; [done|].
        pose proof (fexp_ge x). lia.
Qed.

Lemma nearest_exact m e :
  (0 < m)%Z -> (m < 2 ^ 53)%Z -> (-1074 <= e)%Z ->
  (2 ^ 52 <= m)%Z \/ e = (-1074)%Z ->
  (nearest (inject_Z m * pow2 e) == inject_Z m * pow2 e)%Q.
Proof.
  intros Hm0 Hm53 He Hcase.
  set (v := (inject_Z m * pow2 e)%Q).
  assert (0 < pow2 e)%Q as Hs by apply pow2_pos.
  assert (0 < inject_Z m)%Q as Hm.
  { change 0%Q with (inject_Z 0). by rewrite <-Zlt_Qlt. }
  assert (0 < v)%Q as Hv by (unfold v; nra).
  assert (v < pow2 (e + 53))%Q as Hup.
  { unfold v. rewrite (Z.add_comm e), pow2_add.
    apply Qmult_lt_compat_r; [done|].
    rewrite pow2_Z by done. by rewrite <-Zlt_Qlt. }
  assert (fexp v = e) as Hfexp.
  { destruct Hcase as [Hm52| ->].
    - assert (pow2 (e + 52) <= v)%Q as Hlow.
      { unfold v. rewrite (Z.add_comm e), pow2_add.
        apply Qmult_le_compat_r; [|lra].
        rewrite pow2_Z by done. by rewrite <-Zle_Qle. }
      assert (ilog2 v = (e + 52)%Z) as Hlog.
      { apply ilog2_unique; [done|done|].
        by replace (e + 52 + 1)%Z with (e + 53)%Z by lia. }
      unfold fexp. rewrite Hlog. lia.
    - destruct (ilog2_spec v Hv) as [Hlog _].
      assert (pow2 (ilog2 v) < pow2 (-1074 + 53))%Q as Hlt by lra.
      apply pow2_lt_inv in Hlt.
      destruct (fexp_cases v) as [[Hf Hn]|[Hf _]]; [|done].
      destruct (Z.le_gt_cases (2 ^ 52) m) as [Hm52|Hm52].
      + assert (pow2 (-1074 + 52) <= v)%Q as Hlow.
        { unfold v. rewrite (Z.add_comm _ 52), pow2_add.
          apply Qmult_le_compat_r; [|lra].
          rewrite pow2_Z by done. by rewrite <-Zle_Qle. }
        assert (ilog2 v = (-1074 + 52)%Z) as Hlog'.
        { apply ilog2_unique; [done|done|].
          by replace (-1074 + 52 + 1)%Z with (-1074 + 53)%Z by lia. }
        unfold fexp. rewrite Hlog'. lia.
      + assert (v < pow2 (-1074 + 52))%Q as Hlow.
        { unfold v. rewrite (Z.add_comm _ 52), pow2_add.
          apply Qmult_lt_compat_r; [done|].
          rewrite pow2_Z by done. by rewrite <-Zlt_Qlt. }
        assert (pow2 (ilog2 v) < pow2 (-1074 + 52))%Q as Hlt' by lra.
        apply pow2_lt_inv in Hlt'. lia. }
  unfold nearest. rewrite Hfexp.
  rewrite (roundEven_comp (v / pow2 e) (inject_Z m))
    by (unfold v; by apply mul_div).
  by rewrite roundEven_Z.
Qed.

Lemma nearest_idem x : (0 <= x)%Q -> (nearest (nearest x) == nearest x)%Q.
Proof.
  intros Hx. destruct (Qlt_le_dec 0 x) as [Hpos|Hzero].
  2:{ assert (nearest x == 0)%Q as H0 by (apply nearest_zero; lra).
      rewrite (nearest_zero (nearest x) H0). by symmetry. }
  set (e := fexp x). set (m := roundEven (x / pow2 e)).
  assert (nearest x = (inject_Z m * pow2 e)%Q) as Hn by done.
  assert (0 < pow2 e)%Q as Hs by apply pow2_pos.
  assert (0 <= m)%Z as Hm0.
  { apply roundEven_ge. change (inject_Z 0) with 0%Q.
    apply Qle_shift_div_l; [done | lra]. }
  assert (m <= 2 ^ 53)%Z as Hm53.
  { apply roundEven_le. rewrite <-pow2_Z by done.
    apply Qle_shift_div_r; [done|]. rewrite <-pow2_add, Z.add_comm.
    by apply below_next_binade. }
  assert (m = 0 \/ (0 < m /\ m < 2 ^ 53) \/ m = 2 ^ 53)%Z
    as [Hz|[[Hp Hlt]|Htop]] by lia.
  - assert (nearest x == 0)%Q as H0.
    { rewrite Hn, Hz. change (inject_Z 0) with 0%Q. lra. }
    rewrite (nearest_zero (nearest x) H0). by symmetry.
  - rewrite Hn. apply nearest_exact; [done|done|apply fexp_ge|].
    destruct (fexp_cases x) as [[Hf Hnorm]|[Hf _]]; [|by right].
    left. apply roundEven_ge. rewrite <-pow2_Z by done.
    apply Qle_shift_div_l; [done|]. rewrite <-pow2_add, Z.add_comm.
    destruct (ilog2_spec x Hpos) as [Hlog _]. fold e in Hf.
    by replace (e + 52)%Z with (ilog2 x) by lia.
  - assert (nearest x == inject_Z (2 ^ 52) * pow2 (e + 1))%Q as Heq.
    { rewrite Hn, Htop, pow2_succ.
      change (2 ^ 53)%Z with (2 * 2 ^ 52)%Z. rewrite inject_Z_mult.
      change (inject_Z 2) with 2%Q. lra. }
    rewrite (nearest_comp _ _ (nearest_nonneg x Hx) Heq).
    rewrite Heq. apply nearest_exact; try done.
    + pose proof (fexp_ge x). fold e in H. lia.
    + by left.
Qed.

(** Rounding of numbers of either sign. *)

Lemma half_pow2 e : ((1 # 2) * pow2 (e + 1) == pow2 e)%Q.
Proof. rewrite pow2_succ. lra. Qed.

Lemma nearest_rel x :
  (0 <= x)%Q ->
  (- (x * pow2 (-53) + pow2 (-1075)) <= nearest x - x)%Q
  /\ (nearest x - x <= x * pow2 (-53) + pow2 (-1075))%Q.
Proof.
  intros Hx.
  pose proof (pow2_pos (-53)) as Hu. pose proof (pow2_pos (-1075)) as Heta.
  destruct (Qlt_le_dec 0 x) as [Hpos|Hzero].
  2:{ rewrite (nearest_zero x) by lra. split; nra. }
  destruct (nearest_err x) as [H1 H2].
  assert ((1 # 2) * pow2 (fexp x) <= x * pow2 (-53) + pow2 (-1075))%Q
    as Hbound.
  { destruct (fexp_cases x) as [[Hf _]|[Hf _]]; rewrite Hf.
    - destruct (ilog2_spec x Hpos) as [Hlog _].
      replace (ilog2 x - 52)%Z with (ilog2 x + (-53 + 1))%Z by lia.
      rewrite pow2_add.
      pose proof (half_pow2 (-53)) as Hh.
      pose proof (pow2_pos (ilog2 x)) as Hl.
      set (a := pow2 (ilog2 x)) in *. set (b := pow2 (-53 + 1)) in *.
      set (u := pow2 (-53)) in *.
      assert ((1 # 2) * (a * b) == a * u)%Q as -> by (rewrite <-Hh; ring).
      nra.
    - change (-1074)%Z with (-1075 + 1)%Z. rewrite half_pow2. nra. }
  split; lra.
Qed.

Lemma double_nonneg x : (0 <= x)%Q -> (0 <= double x)%Q.
Proof.
  intros Hx. unfold double. destruct (Qlt_le_dec x 0); [lra|].
  by apply nearest_nonneg.
Qed.

Lemma double_nonpos x : (x <= 0)%Q -> (double x <= 0)%Q.
Proof.
  intros Hx. unfold double. destruct (Qlt_le_dec x 0).
  - pose proof (nearest_nonneg (- x) ltac:(lra)). lra.
  - rewrite (nearest_zero x) by lra. lra.
Qed.

Lemma double_comp x y : (x == y)%Q -> (double x == double y)%Q.
Proof.
  intros Hxy. unfold double.
  destruct (Qlt_le_dec x 0), (Qlt_le_dec y 0); try lra.
  - rewrite (nearest_comp (- x) (- y)); [done|lra|lra].
  - by apply nearest_comp.
Qed.

Lemma double_err x :
  (- (Qabs x * pow2 (-53) + pow2 (-1075)) <= double x - x)%Q
  /\ (double x - x <= Qabs x * pow2 (-53) + pow2 (-1075))%Q.
Proof.
  unfold double. destruct (Qlt_le_dec x 0) as [Hneg|Hpos].
  - rewrite (Qabs_neg x) by lra.
    destruct (nearest_rel (- x) ltac:(lra)) as [H1 H2]. split; lra.
  - rewrite (Qabs_pos x) by lra. by apply nearest_rel.
Qed.

Lemma double_mono x y : (x <= y)%Q -> (double x <= double y)%Q.
Proof.
  intros Hxy. unfold double.
  destruct (Qlt_le_dec x 0), (Qlt_le_dec y 0); try lra.
  - pose proof (nearest_mono (- y) (- x) ltac:(lra) ltac:(lra)). lra.
  - pose proof (nearest_nonneg (- x) ltac:(lra)).
    pose proof (nearest_nonneg y ltac:(lra)). lra.
  - by apply nearest_mono.
Qed.

Lemma double_idem x : (double (double x) == double x)%Q.
Proof.
  unfold double at 2 3. destruct (Qlt_le_dec x 0) as [Hneg|Hpos].
  - pose proof (nearest_nonneg (- x) ltac:(lra)) as Hn.
    unfold double. destruct (Qlt_le_dec (- nearest (- x)) 0) as [Hlt|Hge].
    + rewrite (nearest_comp (- - nearest (- x)) (nearest (- x)));
        [|lra|ring].
      by rewrite nearest_idem by lra.
    + assert (nearest (- x) == 0)%Q as H0 by lra.
      rewrite (nearest_zero (- nearest (- x))) by lra. lra.
  - pose proof (nearest_nonneg x Hpos) as Hn.
    unfold double. destruct (Qlt_le_dec (nearest x) 0); [lra|].
    by apply nearest_idem.
Qed.

(** Adding a number that is not negative to a double does not take the
    rounded sum below the double. *)
Lemma double_add_nonneg t a :
  (double t == t)%Q -> (0 <= a)%Q -> (t <= double (t + a))%Q.
Proof.
  intros Ht Ha. rewrite <-Ht at 1. apply double_mono. lra.
Qed.

(** Bounds on the rounding error in decimal figures. *)

Lemma u_small : (pow2 (-53) <= 12 # 100000000000000000)%Q.
Proof. by vm_compute. Qed.

Lemma eta_small : (pow2 (-1075) <= 1 # 100000000000000000000)%Q.
Proof. by vm_compute. Qed.

Lemma Qabs_bound x b : (- b <= x)%Q -> (x <= b)%Q -> (Qabs x <= b)%Q.
Proof. intros H1 H2. apply Qabs_Qle_condition. by split. Qed.

Lemma Qabs_bound_inv x b : (Qabs x <= b)%Q -> (- b <= x)%Q /\ (x <= b)%Q.
Proof. intros H. by apply Qabs_Qle_condition. Qed.

(** The rounding error of a number of magnitude up to [m]. *)
Lemma double_near x m :
  (Qabs x <= m)%Q ->
  (- (m * (12 # 100000000000000000) + (1 # 100000000000000000000))
   <= double x - x)%Q
  /\ (double x - x
      <= m * (12 # 100000000000000000) + (1 # 100000000000000000000))%Q.
Proof.
  intros Hm. destruct (double_err x) as [H1 H2].
  pose proof u_small as Hu. pose proof eta_small as He.
  pose proof (pow2_pos (-53)) as Hu0.
  pose proof (Qabs_nonneg x) as Ha.
  set (u := pow2 (-53)) in *. set (eta := pow2 (-1075)) in *.
  set (a := Qabs x) in *.
  assert (a * u <= m * (12 # 100000000000000000))%Q by nra.
  split; lra.
Qed.

(** ** Pricing *)

Lemma hundredths_comp x y : (x == y)%Q -> hundredths x = hundredths y.
Proof.
  intros Hxy. unfold hundredths.
  destruct (Qlt_le_dec x 0), (Qlt_le_dec y 0); try lra.
  - f_equal. apply Qfloor_comp. lra.
  - apply Qfloor_comp. lra.
Qed.

Lemma round2_comp x y : (x == y)%Q -> round2 x = round2 y.
Proof. intros Hxy. unfold round2. by rewrite (hundredths_comp x y). Qed.

Lemma hundredths_mono x y : (x <= y)%Q -> (hundredths x <= hundredths y)%Z.
Proof.
  intros Hxy. unfold hundredths.
  destruct (Qlt_le_dec x 0), (Qlt_le_dec y 0); try lra.
  - apply Z.opp_le_mono. rewrite !Z.opp_involutive.
    apply Qfloor_resp_le. lra.
  - assert (0 <= Qfloor (- x * 100 + (1 # 2)))%Z.
    { change 0%Z with (Qfloor 0). apply Qfloor_resp_le. lra. }
    assert (0 <= Qfloor (y * 100 + (1 # 2)))%Z.
    { change 0%Z with (Qfloor 0). apply Qfloor_resp_le. lra. }
    lia.
  - apply Qfloor_resp_le. lra.
Qed.

Lemma round2_mono x y : (x <= y)%Q -> (round2 x <= round2 y)%Q.
Proof.
  intros Hxy. unfold round2, Qle. simpl.
  apply Z.mul_le_mono_nonneg_r; [lia | by apply hundredths_mono].
Qed.

Lemma round2_standard x : round2 x = standardRound2 x.
Proof.
  unfold round2, standardRound2, hundredths. f_equal.
  destruct (Qlt_le_dec x 0) as [Hneg|Hpos].
  - assert (Qnum x < 0)%Z as Hn.
    { destruct x as [n d]. unfold Qlt in Hneg. simpl in *. lia. }
    rewrite (Z.sgn_neg _ Hn).
    rewrite (Qfloor_comp (Qabs x * 100 + (1 # 2)) (- x * 100 + (1 # 2))).
    + lia.
    + rewrite Qabs_neg by lra. lra.
  - rewrite (Qfloor_comp (Qabs x * 100 + (1 # 2)) (x * 100 + (1 # 2)))
      by (rewrite Qabs_pos by lra; lra).
    destruct (Z.eq_dec (Qnum x) 0%Z) as [Hz|Hnz].
    + rewrite Hz. change (Z.sgn 0) with 0%Z. rewrite Z.mul_0_l.
      rewrite (Qfloor_comp (x * 100 + (1 # 2)) (1 # 2)); [done|].
      destruct x as [n d]. simpl in Hz. subst. unfold Qeq. simpl. lia.
    + assert (0 < Qnum x)%Z as Hn.
      { destruct x as [n d]. unfold Qle in Hpos. simpl in *. lia. }
      rewrite (Z.sgn_pos _ Hn). lia.
Qed.

Lemma sumPrices_app l1 l2 :
  (sumPrices (l1 ++ l2) == sumPrices l1 + sumPrices l2)%Q.
Proof. induction l1 as [|o l1 IH]; simpl; [lra | rewrite IH; lra]. Qed.

(** The exact sum of the option prices is the sum over the chosen
    options in the order of the loop. *)
Lemma optionsTotal_flat s : (optionsTotal s == sumPrices (allChosen s))%Q.
Proof.
  unfold allChosen. induction s as [|[g sel] s IH]; simpl; [lra|].
  rewrite sumPrices_app, IH.
  destruct sel as [n [o|]|n opts]; simpl; lra.
Qed.

(** The loop of [calculateUnitPrice] adds the prices of the chosen
    options one after the other. *)
Lemma foldl_addSelectionPrice t s :
  foldl addSelectionPrice t (JsMap.values s) = foldl addPrice t (allChosen s).
Proof.
  unfold allChosen. revert t.
  induction s as [|[g sel] s IH]; intros t; simpl; [done|].
  rewrite foldl_app, IH. by destruct sel as [n [o|]|n opts].
Qed.

Lemma rawUnitPrice_flat basePrice s :
  rawUnitPrice basePrice s = foldl addPrice (double basePrice) (allChosen s).
Proof. apply foldl_addSelectionPrice. Qed.

Lemma Qfloor_half z : Qfloor (inject_Z z + (1 # 2)) = z.
Proof.
  unfold Qfloor, Qplus, inject_Z. simpl.
  change (Z.pos (1 * 2)) with 2%Z. change (1 * 1)%Z with 1%Z.
  rewrite Z.div_add_l by done. change (1 `div` 2)%Z with 0%Z. lia.
Qed.

Lemma hundredths_of (n : Z) : hundredths (n # 100) = n.
Proof.
  unfold hundredths.
  destruct (Qlt_le_dec (n # 100) 0) as [Hneg|Hpos].
  - rewrite (Qfloor_comp (- (n # 100) * 100 + (1 # 2))
               (inject_Z (- n) + (1 # 2))).
    + rewrite Qfloor_half. lia.
    + unfold Qeq, Qplus, Qmult, Qopp, inject_Z. simpl. lia.
  - rewrite (Qfloor_comp ((n # 100) * 100 + (1 # 2))
               (inject_Z n + (1 # 2))).
    + apply Qfloor_half.
    + unfold Qeq, Qplus, Qmult, Qopp, inject_Z. simpl. lia.
Qed.

Lemma hundredths_round2 x : hundredths (round2 x) = hundredths x.
Proof. apply hundredths_of. Qed.

Lemma round2_idem x : round2 (round2 x) = round2 x.
Proof. unfold round2 at 1 3. by rewrite hundredths_round2. Qed.

Lemma toFixed2_comp x y : (x == y)%Q -> toFixed2 x = toFixed2 y.
Proof.
  intros Hxy. unfold toFixed2. rewrite (hundredths_comp x y Hxy).
  destruct (Qlt_le_dec x 0), (Qlt_le_dec y 0); try done; lra.
Qed.

(** Amounts of at most two decimals are closed under addition. *)
Lemma wholeHundredths_comp x y :
  (x == y)%Q -> wholeHundredths x -> wholeHundredths y.
Proof.
  unfold wholeHundredths. intros Hxy Hx.
  rewrite <-(round2_comp x y Hxy). by rewrite Hx.
Qed.

Lemma wholeHundredths_of (n : Z) : wholeHundredths (n # 100).
Proof. unfold wholeHundredths, round2. by rewrite hundredths_of. Qed.

Lemma wholeHundredths_0 : wholeHundredths 0.
Proof. by vm_compute. Qed.

Lemma wholeHundredths_plus x y :
  wholeHundredths x -> wholeHundredths y -> wholeHundredths (x + y).
Proof.
  unfold wholeHundredths, round2. intros Hx Hy.
  apply (wholeHundredths_comp ((hundredths x + hundredths y) # 100)).
  - rewrite <-Hx, <-Hy at 2. unfold Qeq, Qplus. simpl. lia.
  - apply wholeHundredths_of.
Qed.

Lemma wholeHundredths_hundredths x :
  wholeHundredths x -> (x == hundredths x # 100)%Q.
Proof. unfold wholeHundredths, round2. intros H. by symmetry. Qed.

Lemma wholeHundredths_mult x (q : Z) :
  wholeHundredths x -> wholeHundredths (x * inject_Z q).
Proof.
  intros Hx. apply wholeHundredths_hundredths in Hx.
  apply (wholeHundredths_comp ((hundredths x * q) # 100));
    [|apply wholeHundredths_of].
  rewrite Hx at 2. unfold Qeq, Qmult, inject_Z. simpl. lia.
Qed.

Lemma sumPrices_whole l :
  Forall (fun c => wholeHundredths (c_price c)) l ->
  wholeHundredths (sumPrices l).
Proof.
  induction 1 as [|c l Hc _ IH]; simpl.
  - apply wholeHundredths_0.
  - by apply wholeHundredths_plus.
Qed.

Lemma floor_unique r (n : Z) :
  (inject_Z n <= r)%Q -> (r < inject_Z n + 1)%Q -> Qfloor r = n.
Proof.
  intros H1 H2. destruct (floor_bounds r) as [H3 H4].
  assert (inject_Z (Qfloor r) < inject_Z (n + 1))%Q as Ha
    by (rewrite inject_Z_plus; change (inject_Z 1) with 1%Q; lra).
  assert (inject_Z n < inject_Z (Qfloor r + 1))%Q as Hb
    by (rewrite inject_Z_plus; change (inject_Z 1) with 1%Q; lra).
  rewrite <-Zlt_Qlt in Ha, Hb. lia.
Qed.

(** A number within 0.001 of a whole number of hundredths prints as
    that number of hundredths. *)
Lemma hundredths_near x (n : Z) :
  (- (1 # 1000) <= x - (n # 100))%Q -> (x - (n # 100) <= 1 # 1000)%Q ->
  hundredths x = n.
Proof.
  intros H1 H2.
  assert (n # 100 == inject_Z n * (1 # 100))%Q as Hn
    by (unfold Qeq, Qmult, inject_Z; simpl; lia).
  rewrite Hn in H1, H2. unfold hundredths.
  destruct (Qlt_le_dec x 0).
  - rewrite (floor_unique _ (- n)); [lia| |];
      rewrite inject_Z_opp; lra.
  - apply floor_unique; lra.
Qed.

(** ** Rounded sums grow with their terms *)

Lemma addPrice_mono t t' o : (t <= t')%Q -> (addPrice t o <= addPrice t' o)%Q.
Proof. intros Ht. unfold addPrice. apply double_mono. lra. Qed.

Lemma foldl_addPrice_mono l t t' :
  (t <= t')%Q -> (foldl addPrice t l <= foldl addPrice t' l)%Q.
Proof.
  revert t t'. induction l as [|o l IH]; intros t t' Ht; simpl; [done|].
  by apply IH, addPrice_mono.
Qed.

Lemma foldl_addPrice_double l t :
  (double t == t)%Q -> (double (foldl addPrice t l) == foldl addPrice t l)%Q.
Proof.
  revert t. induction l as [|o l IH]; intros t Ht; simpl; [done|].
  apply IH. unfold addPrice. apply double_idem.
Qed.

(** The chosen options of a selection state around those of one
    group. *)
Lemma allChosen_set g sel s :
  JsMap.get g s = Some sel ->
  exists before after,
    allChosen s = before ++ chosenOptions sel ++ after
    /\ forall sel',
         allChosen (JsMap.set g sel' s)
         = before ++ chosenOptions sel' ++ after.
Proof.
  unfold allChosen. induction s as [|[k v] s IH]; simpl; [done|].
  destruct (decide (k = g)) as [->|Hne].
  - intros [= ->]. exists [], (flat_map (fun e => chosenOptions e.2) s).
    split; [done|]. intros sel'. done.
  - intros Hget. destruct (IH Hget) as (before & after & Heq & Hset).
    exists (chosenOptions v ++ before), after. split.
    + by rewrite Heq, <-app_assoc.
    + intros sel'. simpl. by rewrite Hset, <-app_assoc.
Qed.

(** ** Rounded sums of plain amounts *)

(** One addition of the loop, for a running total within [B] of the
    exact one. *)
Lemma add_close t S p B :
  (- B <= t - S)%Q -> (t - S <= B)%Q -> (0 <= B)%Q -> (B <= 1 # 1000)%Q ->
  (Qabs S <= 1001000000)%Q -> (Qabs p <= 1000000)%Q ->
  (- (B + (15 # 100000000)) <= double (t + double p) - (S + p))%Q
  /\ (double (t + double p) - (S + p) <= B + (15 # 100000000))%Q.
Proof.
  intros H1 H2 HB0 HB HS Hp.
  destruct (double_near p 1000000 Hp) as [P1 P2].
  apply Qabs_bound_inv in HS as [S1 S2].
  pose proof Hp as Hp'. apply Qabs_bound_inv in Hp' as [p1 p2].
  assert (Qabs (t + double p) <= 1003000000)%Q as Hz
    by (apply Qabs_bound; lra).
  destruct (double_near (t + double p) 1003000000 Hz) as [Z1 Z2].
  split; lra.
Qed.

Lemma sum_close l :
  forall (t S : Q) (k : Z),
    Forall (fun c => (Qabs (c_price c) <= 1000000)%Q) l ->
    (0 <= k)%Z -> (k + Z.of_nat (length l) <= 1001)%Z ->
    (Qabs S <= inject_Z k * 1000000)%Q ->
    (- (inject_Z k * (15 # 100000000)) <= t - S)%Q ->
    (t - S <= inject_Z k * (15 # 100000000))%Q ->
    (- (1 # 1000) <= foldl addPrice t l - (S + sumPrices l))%Q
    /\ (foldl addPrice t l - (S + sumPrices l) <= 1 # 1000)%Q
    /\ (Qabs (S + sumPrices l) <= 1001000000)%Q.
Proof.
  induction l as [|c l IH]; intros t S k Hl Hk0 Hk HS H1 H2;
    cbn [foldl length] in *;
    [change (sumPrices []) with 0%Q
    |change (sumPrices (c :: l)) with (c_price c + sumPrices l)%Q].
  - assert (inject_Z k <= 1001)%Q as Hk'
      by (change 1001%Q with (inject_Z 1001); rewrite <-Zle_Qle; lia).
    assert (0 <= inject_Z k)%Q as Hk0'
      by (change 0%Q with (inject_Z 0); rewrite <-Zle_Qle; lia).
    apply Qabs_bound_inv in HS as [S1 S2].
    split; [lra|]. split; [lra|]. apply Qabs_bound; lra.
  - apply Forall_cons in Hl as [Hc Hl].
    assert (inject_Z k <= 1000)%Q as Hk'
      by (change 1000%Q with (inject_Z 1000); rewrite <-Zle_Qle; lia).
    assert (0 <= inject_Z k)%Q as Hk0'
      by (change 0%Q with (inject_Z 0); rewrite <-Zle_Qle; lia).
    assert (inject_Z (k + 1) == inject_Z k + 1)%Q as Hk1
      by (rewrite inject_Z_plus; reflexivity).
    pose proof HS as HS'. apply Qabs_bound_inv in HS' as [S1 S2].
    pose proof Hc as Hc'. apply Qabs_bound_inv in Hc' as [c1 c2].
    destruct (add_close t S (c_price c) (inject_Z k * (15 # 100000000)))
      as [A1 A2]; try lra.
    assert (Qabs (S + c_price c) <= inject_Z (k + 1) * 1000000)%Q as HS1
      by (rewrite Hk1; apply Qabs_bound; lra).
    assert (- (inject_Z (k + 1) * (15 # 100000000))
            <= addPrice t c - (S + c_price c))%Q as H1'
      by (rewrite Hk1; unfold addPrice; lra).
    assert (addPrice t c - (S + c_price c)
            <= inject_Z (k + 1) * (15 # 100000000))%Q as H2'
      by (rewrite Hk1; unfold addPrice; lra).
    destruct (IH (addPrice t c) (S + c_price c)%Q (k + 1)%Z Hl
                ltac:(lia) ltac:(lia) HS1 H1' H2') as (R1 & R2 & R3).
    apply Qabs_bound_inv in R3 as [R3 R4].
    split; [lra|]. split; [lra|]. apply Qabs_bound; lra.
Qed.

(** Sums are rounded as the script rounds them.  2 + 0.005 is the
    number 2.00499999999999989..., which prints as 2.00; 1.00 + 0.005
    prints as 1.00; and three times 0.005 is 0.01499999999999999944...,
    which prints as 0.01. *)
Example rounded_sums_print_like_the_script :
  calculateUnitPrice 2
    [(1%N, SelSingle "Size" (Some (Chosen "1" "Large" (5 # 1000))))]
  = 2.00%Q
  /\ round2 (double (double 1.00 + double (5 # 1000))) = 1.00%Q
  /\ formatCurrency
       (orderTotal
          [("1::base", OrderItem "1::base" 1 "Candy" (5 # 1000) 3 None None)])
     = "0.01"
  /\ ~ (double (double (1 # 10) + double (2 # 10)) == 3 # 10)%Q.
Proof. repeat (split; [by vm_compute|]). by vm_compute. Qed.

(** C4, as the code has it.  For a base price, chosen option prices and
    a special delta that are plain amounts (at most two decimals each),
    [calculateUnitPrice] is the base price plus the price of the chosen
    option of every single selection (0 if none) plus the prices of all
    chosen options of every multiple selection, and the unit price of
    the session is that plus the special delta if the special toggle is
    on: the two roundings change nothing, and the result is the sum of
    the specification, rounded once.  For amounts with more decimals no
    such equation holds of the code. *)
Theorem unit_price_of_two_decimal_amounts (st : modal_state) :
  plainPrices st ->
  (calculateUnitPrice (ms_basePrice st) (ms_selections st)
   == ms_basePrice st + optionsTotal (ms_selections st))%Q
  /\ (summaryUnitPrice st
      == ms_basePrice st + optionsTotal (ms_selections st)
         + specialDelta st)%Q
  /\ summaryUnitPrice st = specUnitPrice st
  /\ ms_currentUnitPrice (updateModalSummary st) = Some (summaryUnitPrice st).
Proof.
  intros ([Hbase Hbase'] & Hopts & Hlen & [Hdelta Hdelta']).
  set (l := allChosen (ms_selections st)) in *.
  set (S := (ms_basePrice st + sumPrices l)%Q).
  assert (optionsTotal (ms_selections st) == sumPrices l)%Q as Htot
    by apply optionsTotal_flat.
  assert (wholeHundredths S) as Hsub.
  { apply wholeHundredths_plus; [done|]. apply sumPrices_whole.
    eapply Forall_impl; [exact Hopts|]. by intros c [? _]. }
  apply wholeHundredths_hundredths in Hsub.
  set (n := hundredths S) in *.
  (* the rounded sum of base and option prices *)
  destruct (double_near (ms_basePrice st) 1000000 Hbase') as [B1 B2].
  destruct (sum_close l (double (ms_basePrice st)) (ms_basePrice st) 1)
    as (R1 & R2 & R3).
  { eapply Forall_impl; [exact Hopts|]. by intros c [_ ?]. }
  { lia. }
  { lia. }
  { change (inject_Z 1) with 1%Q. lra. }
  { change (inject_Z 1) with 1%Q. lra. }
  { change (inject_Z 1) with 1%Q. lra. }
  fold S in R1, R2, R3.
  assert (calculateUnitPrice (ms_basePrice st) (ms_selections st)
          = (n # 100)%Q) as Hcalc.
  { unfold calculateUnitPrice, round2. rewrite rawUnitPrice_flat. fold l.
    f_equal. apply hundredths_near; lra. }
  (* the special delta on top *)
  apply wholeHundredths_hundredths in Hdelta.
  set (d := hundredths (specialDelta st)) in *.
  assert ((n # 100) + (d # 100) == (n + d) # 100)%Q as Hnd
    by (unfold Qeq, Qplus; simpl; lia).
  assert (summaryUnitPrice st = ((n + d) # 100)%Q) as Hsum.
  { unfold summaryUnitPrice. rewrite Hcalc. unfold round2. f_equal.
    unfold specialDelta in *.
    destruct (ms_specialInfo st) as [info|];
      [destruct (ms_specialSelected st)|].
    - apply Qabs_bound_inv in R3 as [R3 R4].
      assert (Qabs (n # 100) <= 1001000000)%Q as Hn
        by (apply Qabs_bound; lra).
      destruct (double_near (n # 100) 1001000000 Hn) as [N1 N2].
      destruct (double_near (si_price info) 1000000 Hdelta') as [D1 D2].
      apply Qabs_bound_inv in Hdelta' as [d1 d2].
      assert (Qabs (double (n # 100) + double (si_price info))
              <= 1003000000)%Q as Hz by (apply Qabs_bound; lra).
      destruct (double_near _ 1003000000 Hz) as [Z1 Z2].
      apply hundredths_near; lra.
    - assert (d = 0%Z) as -> by (subst d; by vm_compute).
      rewrite Z.add_0_r. apply hundredths_of.
    - assert (d = 0%Z) as -> by (subst d; by vm_compute).
      rewrite Z.add_0_r. apply hundredths_of. }
  unfold S in Hsub.
  split; [rewrite Hcalc; lra|].
  split; [rewrite Hsum; lra|].
  split; [|done].
  rewrite Hsum. unfold specUnitPrice. rewrite <-round2_standard.
  unfold round2. f_equal. symmetry.
  rewrite (hundredths_comp _ ((n + d) # 100)); [apply hundredths_of | lra].
Qed.

(** With prices of three decimals the two roundings differ from the
    one: 20.004 and 5.004 give 25.00, while the sum 25.008 rounds to
    25.01. *)
Lemma unit_price_rounded_once_counterexample :
  ms_basePrice fine_priced_special = (20004 # 1000)%Q
  /\ specialDelta fine_priced_special = (5004 # 1000)%Q
  /\ ms_currentUnitPrice fine_priced_special = Some 25.00%Q
  /\ it_unitPrice (customizedItem fine_priced_special) = 25.00%Q
  /\ specUnitPrice fine_priced_special = 25.01%Q
  /\ ~ (summaryUnitPrice fine_priced_special
        == specUnitPrice fine_priced_special)%Q.
Proof. repeat (split; [reflexivity|]). by vm_compute. Qed.

Lemma unit_price_of_two_decimal_amounts_witness :
  (summaryUnitPrice toppings_1_2 == 40 + (10 + 15))%Q
  /\ (summaryUnitPrice padthai_special == 40 + 10)%Q
  /\ summaryUnitPrice padthai_special = specUnitPrice padthai_special.
Proof.
  assert (forall x, In x [0; 10; 15; 40]%Q -> plainAmount x) as Hplain.
  { intros x Hx. simpl in Hx.
    repeat (destruct Hx as [<-|Hx]; [by vm_compute|]). done. }
  destruct (unit_price_of_two_decimal_amounts toppings_1_2)
    as (_ & Hsum & _).
  { split; [apply Hplain; simpl; tauto|].
    split; [repeat constructor; apply Hplain; simpl; tauto|].
    split; [simpl; lia | apply Hplain; simpl; tauto]. }
  destruct (unit_price_of_two_decimal_amounts padthai_special)
    as (_ & Hsum' & Hspec & _).
  { split; [apply Hplain; simpl; tauto|].
    split; [constructor|].
    split; [simpl; lia | apply Hplain; simpl; tauto]. }
  split; [|split; [|exact Hspec]].
  - rewrite Hsum. by vm_compute.
  - rewrite Hsum'. by vm_compute.
Defined.

(** C9 rests on the rounding being monotone: the price that is added is
    rounded to a number that is not negative, the rounded sum with it is
    not below the running total, and the additions and the rounding
    that follow keep the order. *)
Lemma rawUnitPrice_grows basePrice sels g n opts c :
  JsMap.get g sels = Some (SelMultiple n opts) ->
  (0 <= c_price c)%Q ->
  (rawUnitPrice basePrice sels
   <= rawUnitPrice basePrice
        (JsMap.set g (SelMultiple n (opts ++ [(c_id c, c)])) sels))%Q.
Proof.
  intros Hget Hprice. rewrite !rawUnitPrice_flat.
  destruct (allChosen_set g _ sels Hget) as (before & after & -> & Hset).
  rewrite Hset. simpl. unfold JsMap.values. rewrite map_app. simpl.
  rewrite !foldl_app. simpl.
  apply foldl_addPrice_mono.
  set (t := foldl addPrice (foldl addPrice (double basePrice) before)
              (map snd opts)).
  assert (double t == t)%Q as Ht
    by apply foldl_addPrice_double, foldl_addPrice_double, double_idem.
  unfold addPrice. apply double_add_nonneg; [done|].
  by apply double_nonneg.
Qed.

(** C9, as the code has it.  Adding to the chosen set of a multiple
    selection an option that is not in it and whose price is not
    negative never decreases [calculateUnitPrice]. *)
Theorem unit_price_monotone_in_nonnegative_options (basePrice : Q)
    (sels : jsmap N selection) (g : N) (n : string)
    (opts : jsmap string chosen) (c : chosen) :
  JsMap.get g sels = Some (SelMultiple n opts) ->
  c_id c ∉ JsMap.keys opts ->
  (0 <= c_price c)%Q ->
  (calculateUnitPrice basePrice sels
   <= calculateUnitPrice basePrice
        (JsMap.set g (SelMultiple n (JsMap.set (c_id c) c opts)) sels))%Q.
Proof.
  intros Hget Hnew Hprice. unfold calculateUnitPrice. apply round2_mono.
  apply get_None_keys in Hnew. rewrite (set_absent _ _ _ Hnew).
  by apply rawUnitPrice_grows.
Qed.

Lemma unit_price_monotone_in_nonnegative_options_witness :
  (calculateUnitPrice 40 (ms_selections toppings_12)
   <= calculateUnitPrice 40
        (JsMap.set 10%N
           (SelMultiple "Toppings"
              (JsMap.set "1" (Chosen "1" "Egg" 10)
                 [("12", Chosen "12" "Tofu" 5)]))
           (ms_selections toppings_12)))%Q
  /\ calculateUnitPrice 40 (ms_selections toppings_12) = 45.00%Q.
Proof.
  split; [|reflexivity].
  apply (unit_price_monotone_in_nonnegative_options 40
           (ms_selections toppings_12) 10 "Toppings"
           [("12", Chosen "12" "Tofu" 5)] (Chosen "1" "Egg" 10)).
  - reflexivity.
  - simpl. rewrite list_elem_of_singleton. discriminate.
  - by vm_compute.
Defined.

(** An option with a negative price makes the unit price go down when
    it is added: 40 with nothing ticked, 35 with "No rice" ticked. *)
Lemma unit_price_monotone_counterexample :
  JsMap.get 10%N (ms_selections discount_open)
  = Some (SelMultiple "Changes" [])
  /\ ms_selections discount_ticked
     = JsMap.set 10%N
         (SelMultiple "Changes"
            (JsMap.set "3" (Chosen "3" "No rice" (-5)) []))
         (ms_selections discount_open)
  /\ calculateUnitPrice 40 (ms_selections discount_open) = 40.00%Q
  /\ calculateUnitPrice 40 (ms_selections discount_ticked) = 35.00%Q
  /\ ~ (calculateUnitPrice 40 (ms_selections discount_open)
        <= calculateUnitPrice 40 (ms_selections discount_ticked))%Q.
Proof. repeat (split; [reflexivity|]). by vm_compute. Qed.

(** * Further properties of the script *)

(** ** Item keys *)

Lemma buildItemKey_inj m1 k1 m2 k2 :
  buildItemKey m1 k1 = buildItemKey m2 k2 -> m1 = m2 /\ k1 = k2.
Proof.
  unfold buildItemKey. simpl.
  intros [Hm Hk]%app_sep_inj;
    [|by apply allDigits_hasChar, pretty_digits..].
  split; [by apply (inj pretty) | by injection Hk].
Qed.

(** X1.  The key of a cart entry determines the menu item and the
    option key it was built from: [buildItemKey] gives equal keys only
    for equal menu item ids and equal option keys.  Items of different
    menu items therefore never share a cart entry, whatever their
    selections. *)
Theorem item_key_determines_item_and_options (m1 m2 : N) (k1 k2 : string)
    (st1 st2 : modal_state) :
  (buildItemKey m1 k1 = buildItemKey m2 k2 <-> m1 = m2 /\ k1 = k2)
  /\ (it_key (customizedItem st1) = it_key (customizedItem st2) ->
      ms_menuItemId st1 = ms_menuItemId st2
      /\ buildOptionKeyFromSelections (ms_selections st1)
         = buildOptionKeyFromSelections (ms_selections st2))
  /\ (ms_menuItemId st1 <> ms_menuItemId st2 ->
      it_key (customizedItem st1) <> it_key (customizedItem st2)).
Proof.
  split; [split; [apply buildItemKey_inj | by intros [-> ->]]|].
  split; [apply buildItemKey_inj|].
  intros Hne Hkey. by apply buildItemKey_inj in Hkey as [? _].
Qed.

Lemma key_has_colon s :
  s <> [] -> hasChar ":" (buildOptionKeyFromSelections s) = true.
Proof.
  intros Hs. rewrite key_nonempty by done.
  apply join_hasChar.
  - intros Hn. apply (f_equal length) in Hn.
    rewrite sort_length in Hn. unfold parts in Hn.
    rewrite length_map in Hn. by destruct s.
  - apply sort_Forall, Forall_forall. intros p Hp.
    apply list_elem_of_fmap in Hp as ([g sel] & -> & _).
    apply selectionPart_colon.
Qed.

(** X2.  Only the empty selection state gets the option key ["base"]:
    as soon as there is a group, the key contains a [":"].  The fallback
    to ["base"] after the join is never taken, and a customized item
    with at least one group never shares the cart entry ["id::base"] of
    the plain item. *)
Theorem base_key_only_for_empty_selections (s : jsmap N selection)
    (st : modal_state) :
  (buildOptionKeyFromSelections s = "base" <-> s = [])
  /\ (s <> [] ->
      buildOptionKeyFromSelections s = join "|" (sort (parts s)))
  /\ (it_key (customizedItem st) = buildItemKey (ms_menuItemId st) "base"
      <-> ms_selections st = []).
Proof.
  assert (forall s, buildOptionKeyFromSelections s = "base" <-> s = [])
    as Hbase.
  { intros s0. split; [|by intros ->].
    intros Hkey. destruct (decide (s0 = [])) as [|Hne]; [done|].
    apply key_has_colon in Hne. by rewrite Hkey in Hne. }
  split; [apply Hbase|]. split; [apply key_nonempty|].
  rewrite <-Hbase. split.
  - by intros [_ ?]%buildItemKey_inj.
  - simpl. by intros ->.
Qed.

(** ** Copies of the selection state *)

Lemma foldl_set_append {A K V} `{EqDecision K} (key : A -> K)
    (val : A -> V) (l : list A) (m0 : list (K * V)) :
  NoDup (map key l) ->
  (forall a, a ∈ l -> key a ∉ JsMap.keys m0) ->
  foldl (fun m a => JsMap.set (key a) (val a) m) m0 l
  = m0 ++ map (fun a => (key a, val a)) l.
Proof.
  revert m0. induction l as [|a l IH]; intros m0; simpl.
  - intros _ _. by rewrite app_nil_r.
  - intros [Hnot Hnd]%NoDup_cons Hfresh.
    rewrite set_absent
      by (apply get_None_keys, Hfresh, list_elem_of_here).
    rewrite IH; [by rewrite <-app_assoc|done|].
    intros b Hb. unfold JsMap.keys. rewrite map_app. simpl.
    apply not_elem_of_app. split.
    + by apply Hfresh, list_elem_of_further.
    + rewrite list_elem_of_singleton. intros Heq. apply Hnot.
      rewrite <-Heq. by apply (list_elem_of_fmap_2 key).
Qed.

Lemma chosen_eta c :
  {| c_id := c_id c; c_name := c_name c; c_price := c_price c |} = c.
Proof. by destruct c. Qed.

Lemma cloneSelection_id sel : selectionOk sel -> cloneSelection sel = sel.
Proof.
  destruct sel as [n [c|]|n opts]; simpl; intros Hok.
  - by rewrite chosen_eta.
  - done.
  - f_equal.
    rewrite (foldl_set_append fst
               (fun e => {| c_id := c_id e.2; c_name := c_name e.2;
                            c_price := c_price e.2 |}) opts []).
    + simpl. rewrite <-(map_id opts) at 2. apply map_ext.
      intros [k c]. simpl. by rewrite chosen_eta.
    + exact Hok.
    + intros a _. apply not_elem_of_nil.
Qed.

(** X3.  [cloneSelectionState] returns a copy with the same content:
    the same groups in the same order, each with the same group name,
    the same chosen options in the same order, and the same ids, names
    and prices.  The key, the note and the price computed from the copy
    stored in the cart entry are those of the session. *)
Theorem cloneSelectionState_copies (s : jsmap N selection) :
  selectionsOk s ->
  cloneSelectionState s = s
  /\ buildOptionKeyFromSelections (cloneSelectionState s)
     = buildOptionKeyFromSelections s
  /\ buildSelectionNote (cloneSelectionState s) = buildSelectionNote s.
Proof.
  intros [Hok Hall].
  assert (cloneSelectionState s = s) as Hclone.
  { unfold cloneSelectionState.
    rewrite (foldl_set_append fst (fun e => cloneSelection e.2) s []).
    - simpl. rewrite <-(map_id s) at 2.
      apply map_ext_in. intros [g sel] Hin. simpl. f_equal.
      apply cloneSelection_id.
      apply list_elem_of_In in Hin.
      exact (proj1 (Forall_forall _ _) Hall (g, sel) Hin).
    - exact Hok.
    - intros a _. apply not_elem_of_nil. }
  by rewrite Hclone.
Qed.

Lemma cloneSelectionState_copies_witness :
  cloneSelectionState key_example_a = key_example_a
  /\ buildOptionKeyFromSelections (cloneSelectionState key_example_a)
     = buildOptionKeyFromSelections key_example_a
  /\ buildSelectionNote (cloneSelectionState key_example_a)
     = buildSelectionNote key_example_a.
Proof.
  apply (cloneSelectionState_copies key_example_a).
  split; [concrete_nodup|].
  repeat constructor; simpl; concrete_nodup.
Defined.

(** ** Notes *)

Lemma selectionNotePart_None sel :
  selectionNotePart sel = None <-> chosenIds sel = [].
Proof.
  destruct sel as [n [c|]|n opts]; simpl; try done.
  unfold JsMap.size, JsMap.keys. by destruct opts.
Qed.

Lemma omap_nil_Forall {A B} (f : A -> option B) (l : list A) :
  omap f l = [] <-> Forall (fun x => f x = None) l.
Proof.
  induction l as [|x l IH]; simpl; [by split; [constructor|]|].
  destruct (f x) eqn:Hfx.
  - split; [done|]. intros [Hx _]%Forall_cons. congruence.
  - rewrite IH. split; [by constructor | by intros [_ ?]%Forall_cons].
Qed.

Lemma buildSelectionNote_None s :
  buildSelectionNote s = None <-> nothingChosen s.
Proof.
  unfold buildSelectionNote, nothingChosen, JsMap.size, JsMap.values.
  destruct (decide (length s = 0)) as [Hs|Hs].
  { destruct s; [|done]. split; [constructor | done]. }
  destruct (decide (length (omap selectionNotePart (map snd s)) = 0))
    as [Hp|Hp].
  - split; [|done]. intros _.
    apply length_zero_iff_nil, omap_nil_Forall in Hp.
    apply Forall_fmap in Hp. eapply Forall_impl; [exact Hp|].
    intros [g sel]. simpl. apply selectionNotePart_None.
  - split; [done|]. intros Hall. exfalso. apply Hp.
    apply length_zero_iff_nil, omap_nil_Forall, Forall_fmap.
    eapply Forall_impl; [exact Hall|].
    intros [g sel]. simpl. apply selectionNotePart_None.
Qed.

Lemma buildSpecialNote_None st :
  buildSpecialNote st = None <-> ~ specialOn st.
Proof.
  unfold buildSpecialNote, specialOn.
  destruct (ms_specialInfo st) as [info|], (ms_specialSelected st).
  - split; [done|]. intros H. exfalso. apply H. eauto.
  - split; [|done]. by intros _ [_ ?].
  - split; [|done]. by intros _ [[? ?] _].
  - split; [|done]. by intros _ [[? ?] _].
Qed.

(** X4.  The note built from the selections is [null] exactly when no
    option is chosen in any group (single selections without option,
    multiple selections with an empty set), and the note of the cart
    entry of a customized item is [null] exactly when, in addition, the
    special toggle is off.  An entry with a chosen option or with the
    special on always carries a note. *)
Theorem note_is_null_iff_nothing_chosen (st : modal_state) :
  (buildSelectionNote (ms_selections st) = None
   <-> nothingChosen (ms_selections st))
  /\ (buildSpecialNote st = None <-> ~ specialOn st)
  /\ (it_note (customizedItem st) = None
      <-> nothingChosen (ms_selections st) /\ ~ specialOn st).
Proof.
  split; [apply buildSelectionNote_None|].
  split; [apply buildSpecialNote_None|].
  rewrite <-buildSelectionNote_None, <-buildSpecialNote_None. simpl.
  destruct (buildSelectionNote (ms_selections st)),
           (buildSpecialNote st); simpl; split; try done;
    by intros [? ?].
Qed.

(** ** The total of the cart *)

Lemma sumLines_app l1 l2 :
  (sumLines (l1 ++ l2) == sumLines l1 + sumLines l2)%Q.
Proof. induction l1 as [|it l1 IH]; simpl; [lra | rewrite IH; lra]. Qed.

Lemma sumLines_set k old new (cart : jsmap string order_item) :
  JsMap.get k cart = Some old ->
  (sumLines (JsMap.values (JsMap.set k new cart))
   == sumLines (JsMap.values cart) - lineTotal old + lineTotal new)%Q.
Proof.
  induction cart as [|[k0 v0] cart IH]; simpl; [done|].
  destruct (decide (k0 = k)) as [->|Hne]; simpl.
  - intros [= ->]. lra.
  - intros Hget. rewrite (IH Hget). lra.
Qed.

Lemma sumLines_delete k old (cart : jsmap string order_item) :
  JsMap.ok cart -> JsMap.get k cart = Some old ->
  (sumLines (JsMap.values (JsMap.delete k cart))
   == sumLines (JsMap.values cart) - lineTotal old)%Q.
Proof.
  unfold JsMap.ok, JsMap.keys.
  induction cart as [|[k0 v0] cart IH]; simpl; [done|].
  intros [Hnot Hok]%NoDup_cons.
  destruct (decide (k0 = k)) as [->|Hne]; simpl.
  - intros [= ->]. rewrite delete_absent by by apply get_None_keys. lra.
  - intros Hget. rewrite (IH Hok Hget). lra.
Qed.

Lemma lineTotal_addQuantity d it :
  (lineTotal (addQuantity d it)
   == lineTotal it + it_unitPrice it * inject_Z d)%Q.
Proof. unfold lineTotal. simpl. rewrite inject_Z_plus. lra. Qed.

Lemma sumLines_upsert item cart :
  (sumLines (JsMap.values (upsertCart item cart))
   == sumLines (JsMap.values cart)
      + landingUnitPrice item cart * inject_Z (it_quantity item))%Q.
Proof.
  unfold landingUnitPrice.
  destruct (JsMap.get (it_key item) cart) as [existing|] eqn:Hget.
  - rewrite (upsertCart_present _ _ _ Hget).
    rewrite (sumLines_set _ existing _ _ Hget), lineTotal_addQuantity. lra.
  - rewrite (upsertCart_absent _ _ Hget).
    unfold JsMap.values. rewrite map_app, sumLines_app. simpl.
    unfold lineTotal. lra.
Qed.

(** The rounded amount of a plain line is within 0.00000003 of the
    exact one. *)
Lemma line_close it :
  plainLine it ->
  (- (3 # 100000000)
   <= double (double (it_unitPrice it) * inject_Z (it_quantity it))
      - lineTotal it)%Q
  /\ (double (double (it_unitPrice it) * inject_Z (it_quantity it))
      - lineTotal it <= 3 # 100000000)%Q
  /\ (0 <= double (double (it_unitPrice it) * inject_Z (it_quantity it)))%Q
  /\ (0 <= lineTotal it)%Q /\ (lineTotal it <= 100000000)%Q.
Proof.
  intros (_ & Hu0 & Hu1 & Hq). unfold lineTotal.
  set (u := it_unitPrice it) in *.
  assert (1 <= inject_Z (it_quantity it))%Q as Hq1
    by (change 1%Q with (inject_Z 1); rewrite <-Zle_Qle; lia).
  assert (inject_Z (it_quantity it) <= 1000)%Q as Hq2
    by (change 1000%Q with (inject_Z 1000); rewrite <-Zle_Qle; lia).
  set (q := inject_Z (it_quantity it)) in *.
  assert (Qabs u <= 100000)%Q as Hu by (apply Qabs_bound; lra).
  destruct (double_near u 100000 Hu) as [U1 U2].
  pose proof (double_nonneg u Hu0) as Hd0.
  set (du := double u) in *.
  assert (0 <= du * q)%Q as Hp0 by (apply Qmult_le_0_compat; lra).
  assert (0 <= (du - u + (13 # 1000000000000)) * q)%Q as Ha
    by (apply Qmult_le_0_compat; lra).
  assert (0 <= ((13 # 1000000000000) - (du - u)) * q)%Q as Hb
    by (apply Qmult_le_0_compat; lra).
  assert (0 <= (13 # 1000000000000) * (1000 - q))%Q as Hc
    by (apply Qmult_le_0_compat; lra).
  assert (0 <= u * q)%Q as Huq by (apply Qmult_le_0_compat; lra).
  assert (0 <= (100000 - u) * q)%Q as Hd
    by (apply Qmult_le_0_compat; lra).
  assert (0 <= 100000 * (1000 - q))%Q as He
    by (apply Qmult_le_0_compat; lra).
  assert (Qabs (du * q) <= 110000000)%Q as Hp
    by (apply Qabs_bound; lra).
  destruct (double_near (du * q) 110000000 Hp) as [P1 P2].
  pose proof (double_nonneg (du * q) Hp0) as Hdp.
  repeat split; lra.
Qed.

(** One line added to a running total within [B] of the exact one. *)
Lemma addLine_close t S it B :
  (- B <= t - S)%Q -> (t - S <= B)%Q -> (0 <= B)%Q -> (B <= 1 # 1000)%Q ->
  (0 <= S)%Q -> (S <= 10000000000)%Q -> plainLine it ->
  (- (B + (2 # 1000000)) <= addLine t it - (S + lineTotal it))%Q
  /\ (addLine t it - (S + lineTotal it) <= B + (2 # 1000000))%Q.
Proof.
  intros H1 H2 HB0 HB HS0 HS Hit.
  destruct (line_close it Hit) as (L1 & L2 & L3 & L4 & L5).
  unfold addLine.
  set (line := double (double (it_unitPrice it) * inject_Z (it_quantity it)))
    in *.
  assert (Qabs (t + line) <= 10200000000)%Q as Hz
    by (apply Qabs_bound; lra).
  destruct (double_near (t + line) 10200000000 Hz) as [Z1 Z2].
  split; lra.
Qed.

Lemma addLine_nonneg t it :
  (0 <= t)%Q -> plainLine it -> (0 <= addLine t it)%Q.
Proof.
  intros Ht Hit. destruct (line_close it Hit) as (_ & _ & L3 & _).
  unfold addLine. apply double_nonneg. lra.
Qed.

Lemma cart_close l :
  forall (t S : Q) (k : Z),
    Forall plainLine l ->
    (0 <= k)%Z -> (k + Z.of_nat (length l) <= 100)%Z ->
    (0 <= S)%Q -> (S <= inject_Z k * 100000000)%Q -> (0 <= t)%Q ->
    (- (inject_Z k * (2 # 1000000)) <= t - S)%Q ->
    (t - S <= inject_Z k * (2 # 1000000))%Q ->
    (- (1 # 1000) <= foldl addLine t l - (S + sumLines l))%Q
    /\ (foldl addLine t l - (S + sumLines l) <= 1 # 1000)%Q
    /\ (0 <= foldl addLine t l)%Q /\ (0 <= S + sumLines l)%Q.
Proof.
  induction l as [|it l IH]; intros t S k Hl Hk0 Hk HS0 HS Ht H1 H2;
    cbn [foldl length] in *;
    [change (sumLines []) with 0%Q
    |change (sumLines (it :: l)) with (lineTotal it + sumLines l)%Q].
  - assert (inject_Z k <= 100)%Q as Hk'
      by (change 100%Q with (inject_Z 100); rewrite <-Zle_Qle; lia).
    assert (0 <= inject_Z k)%Q as Hk0'
      by (change 0%Q with (inject_Z 0); rewrite <-Zle_Qle; lia).
    repeat split; lra.
  - apply Forall_cons in Hl as [Hit Hl].
    assert (inject_Z k <= 99)%Q as Hk'
      by (change 99%Q with (inject_Z 99); rewrite <-Zle_Qle; lia).
    assert (0 <= inject_Z k)%Q as Hk0'
      by (change 0%Q with (inject_Z 0); rewrite <-Zle_Qle; lia).
    assert (inject_Z (k + 1) == inject_Z k + 1)%Q as Hk1
      by (rewrite inject_Z_plus; reflexivity).
    destruct (line_close it Hit) as (_ & _ & _ & L4 & L5).
    destruct (addLine_close t S it (inject_Z k * (2 # 1000000)))
      as [A1 A2]; try done; try lra.
    pose proof (addLine_nonneg t it Ht Hit) as Ht'.
    assert (S + lineTotal it <= inject_Z (k + 1) * 100000000)%Q as HS1
      by (rewrite Hk1; lra).
    assert (- (inject_Z (k + 1) * (2 # 1000000))
            <= addLine t it - (S + lineTotal it))%Q as H1'
      by (rewrite Hk1; lra).
    assert (addLine t it - (S + lineTotal it)
            <= inject_Z (k + 1) * (2 # 1000000))%Q as H2'
      by (rewrite Hk1; lra).
    destruct (IH (addLine t it) (S + lineTotal it)%Q (k + 1)%Z Hl
                ltac:(lia) ltac:(lia) ltac:(lra) HS1 Ht' H1' H2')
      as (R1 & R2 & R3 & R4).
    repeat split; lra.
Qed.

Lemma sumLines_whole l :
  Forall plainLine l -> wholeHundredths (sumLines l).
Proof.
  induction 1 as [|it l Hit _ IH]; simpl.
  - apply wholeHundredths_0.
  - apply wholeHundredths_plus; [|done].
    destruct Hit as (Hu & _). by apply wholeHundredths_mult.
Qed.

(** The total shown for a cart of plain lines is the exact total of its
    lines. *)
Lemma plainCart_total cart :
  plainCart cart ->
  formatCurrency (orderTotal cart)
  = formatCurrency (sumLines (JsMap.values cart)).
Proof.
  intros [Hlines Hlen].
  assert (Forall plainLine (JsMap.values cart)) as Hl.
  { unfold JsMap.values. by apply Forall_fmap. }
  destruct (cart_close (JsMap.values cart) 0 0 0 Hl) as (R1 & R2 & R3 & R4);
    try done; try lra.
  { unfold JsMap.values. rewrite length_map. lia. }
  pose proof (wholeHundredths_hundredths _ (sumLines_whole _ Hl)) as Hw.
  unfold formatCurrency, toFixed2, orderTotal.
  set (total := foldl addLine 0%Q (JsMap.values cart)) in *.
  set (exact := sumLines (JsMap.values cart)) in *.
  rewrite (hundredths_near total (hundredths exact)) by lra.
  destruct (Qlt_le_dec total 0), (Qlt_le_dec exact 0); try done; lra.
Qed.

(** X5.  For a cart of plain lines, the total shown after an item is
    added is the exact total of the lines before plus the quantity of
    the new item times the unit price of the entry it ends up in: its
    own unit price when it is appended, the unit price of the existing
    entry when it is merged. *)
Theorem order_total_after_upsert (item : order_item) (p : page) :
  plainCart (orderState (upsertOrderItem item p)) ->
  orderTotalLabel (upsertOrderItem item p)
  = formatCurrency
      (sumLines (JsMap.values (orderState p))
       + landingUnitPrice item (orderState p)
         * inject_Z (it_quantity item))
    +:+ baht.
Proof.
  intros Hplain. simpl in *. f_equal.
  rewrite (plainCart_total _ Hplain).
  apply toFixed2_comp, sumLines_upsert.
Qed.

Lemma plainLine_examples name key id (u : Q) (q : Z) note sels :
  In u [10; 50]%Q -> (1 <= q <= 1000)%Z ->
  plainLine (OrderItem key id name u q note sels).
Proof.
  intros Hu Hq. simpl in Hu.
  destruct Hu as [<-|[<-|[]]]; (split; [by vm_compute|]);
    (split; [by vm_compute|]); (split; [by vm_compute | exact Hq]).
Qed.

Lemma order_total_after_upsert_witness :
  orderTotalLabel (upsertOrderItem rice (upsertOrderItem tea emptyPage))
  = "70.00" +:+ baht
  /\ orderTotalLabel
       (upsertOrderItem tea (upsertOrderItem rice (upsertOrderItem tea emptyPage)))
     = "120.00" +:+ baht.
Proof.
  split.
  - rewrite (order_total_after_upsert rice (upsertOrderItem tea emptyPage));
      [by vm_compute|].
    split; [|simpl; lia].
    repeat constructor; apply plainLine_examples; simpl; (tauto || lia).
  - rewrite (order_total_after_upsert tea
               (upsertOrderItem rice (upsertOrderItem tea emptyPage)));
      [by vm_compute|].
    split; [|simpl; lia].
    repeat constructor; apply plainLine_examples; simpl; (tauto || lia).
Defined.

(** X6.  For a cart of plain lines, the total shown after
    [updateQuantity] on an entry is the exact total of the lines before
    plus [delta] times the unit price of the entry when the entry
    stays, and the exact total before without the whole line when the
    entry is removed. *)
Theorem order_total_after_updateQuantity (itemKey : string) (delta : Z)
    (item : order_item) (p : page) :
  JsMap.ok (orderState p) ->
  JsMap.get itemKey (orderState p) = Some item ->
  plainCart (orderState (updateQuantity itemKey delta p)) ->
  ((0 < it_quantity item + delta)%Z ->
     orderTotalLabel (updateQuantity itemKey delta p)
     = formatCurrency
         (sumLines (JsMap.values (orderState p))
          + it_unitPrice item * inject_Z delta)
       +:+ baht)
  /\ ((it_quantity item + delta <= 0)%Z ->
     orderTotalLabel (updateQuantity itemKey delta p)
     = formatCurrency
         (sumLines (JsMap.values (orderState p))
          - it_unitPrice item * inject_Z (it_quantity item))
       +:+ baht).
Proof.
  intros Hok Hget Hplain.
  assert (orderState (updateQuantity itemKey delta p)
          = updateCart itemKey delta (orderState p)) as Hcart.
  { unfold updateQuantity. by rewrite Hget. }
  rewrite Hcart in Hplain.
  assert (orderTotalLabel (updateQuantity itemKey delta p)
          = formatCurrency
              (sumLines (JsMap.values (updateCart itemKey delta (orderState p))))
            +:+ baht) as ->.
  { unfold updateQuantity. rewrite Hget. simpl. f_equal.
    by apply plainCart_total. }
  split.
  - intros Hpos. f_equal. apply toFixed2_comp.
    unfold updateCart. rewrite Hget. simpl.
    rewrite decide_False by lia.
    rewrite (sumLines_set _ item _ _ Hget), lineTotal_addQuantity. lra.
  - intros Hle. f_equal. apply toFixed2_comp.
    unfold updateCart. rewrite Hget. simpl.
    rewrite decide_True by lia.
    rewrite (sumLines_delete _ item _ Hok Hget). unfold lineTotal. lra.
Qed.

Lemma order_total_after_updateQuantity_witness :
  orderTotalLabel (updateQuantity "3::base" (-2) tea_and_rice)
  = "50.00" +:+ baht
  /\ orderTotalLabel (updateQuantity "3::base" 3 tea_and_rice)
     = "100.00" +:+ baht.
Proof.
  destruct (order_total_after_updateQuantity "3::base" (-2) rice
              tea_and_rice) as (_ & Hgone).
  { concrete_nodup. }
  { reflexivity. }
  { split; [|simpl; lia].
    repeat constructor; apply plainLine_examples; simpl; (tauto || lia). }
  destruct (order_total_after_updateQuantity "3::base" 3 rice
              tea_and_rice) as (Hstay & _).
  { concrete_nodup. }
  { reflexivity. }
  { split; [|simpl; lia].
    repeat constructor; apply plainLine_examples; simpl; (tauto || lia). }
  split.
  - rewrite Hgone by (by vm_compute). by vm_compute.
  - rewrite Hstay by (by vm_compute). by vm_compute.
Defined.

(** ** The buttons of the cart and of the menu cards *)

Lemma addQuantity_addQuantity a b it :
  addQuantity b (addQuantity a it) = addQuantity (a + b) it.
Proof. unfold addQuantity. simpl. f_equal. lia. Qed.

Lemma addQuantity_0 it : addQuantity 0 it = it.
Proof. destruct it. unfold addQuantity. simpl. f_equal. lia. Qed.

Lemma updateCart_stays k delta item cart :
  JsMap.get k cart = Some item -> (0 < it_quantity item + delta)%Z ->
  updateCart k delta cart = JsMap.set k (addQuantity delta item) cart.
Proof.
  intros Hget Hpos. unfold updateCart. rewrite Hget. simpl.
  by rewrite decide_False by lia.
Qed.

Lemma updateCart_removes k delta item cart :
  JsMap.get k cart = Some item -> (it_quantity item + delta <= 0)%Z ->
  updateCart k delta cart = JsMap.delete k cart.
Proof.
  intros Hget Hpos. unfold updateCart. rewrite Hget. simpl.
  by rewrite decide_True by lia.
Qed.

Lemma updateCart_absent k delta (cart : jsmap string order_item) :
  JsMap.get k cart = None -> updateCart k delta cart = cart.
Proof. intros Hget. unfold updateCart. by rewrite Hget. Qed.

Lemma orderState_onCartButtonClick k action p :
  k <> "" ->
  orderState (onCartButtonClick k action p)
  = updateCart k (if decide (action = "increase") then 1 else -1)%Z
      (orderState p).
Proof.
  intros Hk. unfold onCartButtonClick. rewrite decide_False by done.
  apply orderState_updateQuantity.
Qed.

(** X7.  The plus and minus buttons of a cart entry with a positive
    quantity: plus then minus gives back the cart as it was, entry
    order included.  Minus then plus does so only above quantity 1; at
    quantity 1 the minus button removes the entry and the plus button,
    which now finds no entry, does not bring it back.  A button without
    item key does nothing, and every action other than ["increase"]
    counts as a decrease. *)
Theorem cart_buttons_round_trip (itemKey : string) (item : order_item)
    (p : page) :
  itemKey <> "" ->
  JsMap.get itemKey (orderState p) = Some item ->
  (0 < it_quantity item)%Z ->
  orderState (onCartButtonClick itemKey "decrease"
                (onCartButtonClick itemKey "increase" p))
  = orderState p
  /\ ((1 < it_quantity item)%Z ->
      orderState (onCartButtonClick itemKey "increase"
                    (onCartButtonClick itemKey "decrease" p))
      = orderState p)
  /\ (it_quantity item = 1%Z ->
      orderState (onCartButtonClick itemKey "decrease" p)
      = JsMap.delete itemKey (orderState p)
      /\ orderState (onCartButtonClick itemKey "increase"
                       (onCartButtonClick itemKey "decrease" p))
         = JsMap.delete itemKey (orderState p))
  /\ (forall action, onCartButtonClick "" action p = p)
  /\ (forall action, action <> "increase" ->
        onCartButtonClick itemKey action p
        = onCartButtonClick itemKey "decrease" p).
Proof.
  intros Hk Hget Hpos.
  rewrite !orderState_onCartButtonClick by done. simpl.
  split; [|split; [|split; [|split]]].
  - rewrite (updateCart_stays _ 1 item) by (done || lia).
    rewrite (updateCart_stays _ (-1) (addQuantity 1 item))
      by (apply get_set_eq || (simpl; lia)).
    rewrite set_set, addQuantity_addQuantity. simpl.
    rewrite addQuantity_0. by apply set_same.
  - intros Hgt.
    rewrite (updateCart_stays _ (-1) item) by (done || lia).
    rewrite (updateCart_stays _ 1 (addQuantity (-1) item))
      by (apply get_set_eq || (simpl; lia)).
    rewrite set_set, addQuantity_addQuantity. simpl.
    rewrite addQuantity_0. by apply set_same.
  - intros Hone.
    rewrite (updateCart_removes _ (-1) item) by (done || lia).
    split; [done|]. apply updateCart_absent, get_delete_eq.
  - done.
  - intros action Hact. unfold onCartButtonClick.
    by rewrite (decide_False (P := action = "increase")) by done.
Qed.

Lemma cart_buttons_round_trip_witness :
  orderState (onCartButtonClick "1::base" "decrease"
                (onCartButtonClick "1::base" "increase" tea_and_rice))
  = orderState tea_and_rice
  /\ orderState (onCartButtonClick "1::base" "increase"
                   (onCartButtonClick "1::base" "decrease" tea_and_rice))
     = [("3::base", rice)].
Proof.
  destruct (cart_buttons_round_trip "1::base" tea tea_and_rice)
    as (Hback & _ & Hone & _).
  - discriminate.
  - reflexivity.
  - reflexivity.
  - split; [exact Hback|]. by destruct (Hone eq_refl) as [_ ->].
Defined.

Lemma set_app_last {K V} `{EqDecision K} (k : K) (v w : V) m :
  JsMap.get k m = None ->
  JsMap.set k v (m ++ [(k, w)]) = m ++ [(k, v)].
Proof.
  intros Hget. rewrite <-(set_absent k w m Hget), set_set.
  by apply set_absent.
Qed.

Lemma orderState_addSimpleItem menuItemId name basePrice p :
  orderState (addSimpleItem menuItemId name basePrice None p)
  = upsertCart (simpleEntry menuItemId name basePrice 1) (orderState p).
Proof. done. Qed.

Lemma simpleEntry_succ menuItemId name basePrice (n : nat) :
  addQuantity 1 (simpleEntry menuItemId name basePrice (Z.of_nat n))
  = simpleEntry menuItemId name basePrice (Z.of_nat (S n)).
Proof.
  unfold addQuantity, simpleEntry.
  cbn [it_key it_menuItemId it_name it_unitPrice it_quantity it_note
       it_selections].
  f_equal. lia.
Qed.

Lemma addSimpleItemTimes_cart n menuItemId name basePrice p :
  JsMap.get (buildItemKey menuItemId "base") (orderState p) = None ->
  orderState (addSimpleItemTimes (S n) menuItemId name basePrice p)
  = orderState p
    ++ [(buildItemKey menuItemId "base",
         simpleEntry menuItemId name basePrice (Z.of_nat (S n)))].
Proof.
  intros Hget. unfold addSimpleItemTimes. induction n as [|n IH].
  - cbn [Nat.iter nat_rect]. rewrite orderState_addSimpleItem.
    by apply upsertCart_absent.
  - rewrite Nat.iter_succ, orderState_addSimpleItem, IH.
    rewrite (upsertCart_present _
               (simpleEntry menuItemId name basePrice (Z.of_nat (S n))))
      by by apply (get_app_absent (buildItemKey menuItemId "base")).
    change (it_key (simpleEntry menuItemId name basePrice 1))
      with (buildItemKey menuItemId "base").
    change (it_quantity (simpleEntry menuItemId name basePrice 1))
      with 1%Z.
    rewrite set_app_last by done. by rewrite simpleEntry_succ.
Qed.

(** X8.  A menu item that is missing from the catalog, or whose catalog
    entry has neither option groups nor a special option, goes into the
    cart at the click on its add button, without the modal: as a new
    entry with quantity 1 under the key ["id::base"] when there is none,
    and after [n] clicks in all the one entry holds quantity [n].  The
    session state of the page is not touched. *)
Theorem simple_item_clicks_add_up (menuConfigs : jsmap N raw_config)
    (menuItemId : N) (name description : string) (price : Q) (n : nat)
    (p : page) :
  getMenuConfig menuConfigs menuItemId = noOptions ->
  JsMap.get (buildItemKey menuItemId "base") (orderState p) = None ->
  onMenuAddClick menuConfigs menuItemId name price description p
    = Some (addSimpleItem menuItemId name price None p)
  /\ orderState (addSimpleItemTimes (S n) menuItemId name price p)
     = orderState p
       ++ [(buildItemKey menuItemId "base",
            simpleEntry menuItemId name price (Z.of_nat (S n)))]
  /\ modalState (addSimpleItemTimes (S n) menuItemId name price p)
     = modalState p
  /\ (JsMap.get menuItemId menuConfigs = None ->
      getMenuConfig menuConfigs menuItemId = noOptions).
Proof.
  intros Hcfg Hget. split; [|split; [|split]].
  - unfold onMenuAddClick. by rewrite Hcfg.
  - by apply addSimpleItemTimes_cart.
  - unfold addSimpleItemTimes. induction n as [|n IH]; [done|].
    rewrite Nat.iter_succ. exact IH.
  - unfold getMenuConfig. by intros ->.
Qed.

Lemma simple_item_clicks_add_up_witness :
  orderState (addSimpleItemTimes 3 1 "Tea" 50 emptyPage)
  = [("1::base", simpleEntry 1 "Tea" 50 3)]
  /\ onMenuAddClick [] 1 "Tea" 50 "" emptyPage
     = Some (addSimpleItem 1 "Tea" 50 None emptyPage).
Proof.
  destruct (simple_item_clicks_add_up [] 1 "Tea" "" 50 2 emptyPage
              eq_refl eq_refl) as (Hclick & Hcart & _).
  split; [exact Hcart | exact Hclick].
Defined.

(** ** What a session keeps *)

Lemma session_price config st :
  sessionState config st ->
  ms_currentUnitPrice st = Some (summaryUnitPrice st).
Proof.
  induction 1 as [mid name base st Hopen
                 |g oid checked st _ IH|checked st _ IH|delta st _ IH].
  - unfold openedState in Hopen.
    destruct (renderGroups _ _) as [sels|]; [|done].
    by injection Hopen as <-.
  - unfold onOptionChange.
    by destruct (JsMap.get g (ms_selections st)).
  - unfold onSpecialToggle. by destruct (ms_specialInfo st).
  - done.
Qed.

Lemma session_quantity_pos config st :
  sessionState config st -> (1 <= ms_quantity st)%Z.
Proof.
  induction 1 as [mid name base st Hopen
                 |g oid checked st _ IH|checked st _ IH|delta st _ IH].
  - unfold openedState in Hopen.
    destruct (renderGroups _ _) as [sels|]; [|done].
    injection Hopen as <-. simpl. lia.
  - unfold onOptionChange.
    by destruct (JsMap.get g (ms_selections st)).
  - unfold onSpecialToggle. by destruct (ms_specialInfo st).
  - simpl. lia.
Qed.

(** X9.  The unit price kept in a session is never stale: in every
    state of a session, [currentUnitPrice] is the price computed from
    the current base price, selections and special toggle.  It is the
    unit price of the cart entry built from the session (the fallback
    to [calculateUnitPrice] is not used), it has at most two decimals,
    and the payload of the order sends it unchanged. *)
Theorem session_unit_price_is_current (config : menu_config)
    (st : modal_state) :
  sessionState config st ->
  ms_currentUnitPrice st = Some (summaryUnitPrice st)
  /\ it_unitPrice (customizedItem st) = summaryUnitPrice st
  /\ wholeHundredths (it_unitPrice (customizedItem st))
  /\ map unit_price
       (itemsPayload [(it_key (customizedItem st), customizedItem st)])
     = [it_unitPrice (customizedItem st)].
Proof.
  intros Hs. pose proof (session_price config st Hs) as Hprice.
  assert (it_unitPrice (customizedItem st) = summaryUnitPrice st) as Hit.
  { simpl. by rewrite Hprice. }
  split; [done|]. split; [done|]. rewrite Hit.
  assert (round2 (summaryUnitPrice st) = summaryUnitPrice st) as Hidem.
  { unfold summaryUnitPrice. apply round2_idem. }
  split.
  - unfold wholeHundredths. by rewrite Hidem.
  - unfold itemsPayload. cbn [JsMap.values map snd unit_price].
    by rewrite Hit, Hidem.
Qed.

Lemma session_unit_price_is_current_witness :
  ms_currentUnitPrice toppings_1_2 = Some (summaryUnitPrice toppings_1_2)
  /\ it_unitPrice (customizedItem toppings_1_2) = 65.00%Q.
Proof.
  destruct (session_unit_price_is_current toppings_config toppings_1_2)
    as (Hprice & _).
  - apply session_change, session_change, toppings_open_session.
  - split; [exact Hprice | reflexivity].
Defined.

(** X10.  The quantity of a session is at least 1 in every state: it
    starts at 1, the plus button adds 1, and the minus button takes 1
    off but never goes below 1.  The quantity buttons do not touch the
    selections. *)
Theorem session_quantity_at_least_one (config : menu_config)
    (st : modal_state) (delta : Z) :
  sessionState config st ->
  (1 <= ms_quantity st)%Z
  /\ ms_quantity (adjustModalQuantity delta st)
     = Z.max 1 (ms_quantity st + delta)
  /\ ms_quantity (adjustModalQuantity 1 st) = (ms_quantity st + 1)%Z
  /\ (ms_quantity st = 1%Z ->
      ms_quantity (adjustModalQuantity (-1) st) = 1%Z)
  /\ ms_selections (adjustModalQuantity delta st) = ms_selections st
  /\ (1 <= it_quantity (customizedItem st))%Z.
Proof.
  intros Hs. pose proof (session_quantity_pos config st Hs) as Hq.
  repeat split; simpl; try done; lia.
Qed.

Lemma session_quantity_at_least_one_witness :
  ms_quantity (adjustModalQuantity (-1) toppings_open) = 1%Z
  /\ ms_quantity
       (adjustModalQuantity (-1) (adjustModalQuantity 1 toppings_open))
     = 1%Z.
Proof.
  destruct (session_quantity_at_least_one toppings_config toppings_open
              (-1) toppings_open_session) as (_ & _ & _ & Hone & _).
  split; [by apply Hone | reflexivity].
Defined.

(** ** What the cart keeps *)

Lemma Forall_set_pair {K V} `{EqDecision K} (Q : K * V -> Prop) k v
    (m : list (K * V)) :
  Forall Q m -> Q (k, v) -> Forall Q (JsMap.set k v m).
Proof.
  intros Hm Hv. induction Hm as [|[k0 v0] m H0 Hm IH]; simpl.
  - by repeat constructor.
  - destruct (decide (k0 = k)) as [->|]; by constructor.
Qed.

Lemma Forall_delete_pair {K V} `{EqDecision K} (Q : K * V -> Prop) k
    (m : list (K * V)) :
  Forall Q m -> Forall Q (JsMap.delete k m).
Proof.
  intros Hm. apply Forall_forall. intros x Hx.
  apply (proj1 (Forall_forall _ _) Hm).
  eapply elem_of_sublist; [exact Hx | apply delete_sublist].
Qed.

Lemma entryOk_addQuantity k it d :
  entryOk (k, it) -> (1 <= it_quantity it + d)%Z ->
  entryOk (k, addQuantity d it).
Proof. intros (Hk & Hb & Hq) Hd. by repeat split. Qed.

Lemma upsertCart_entryOk item cart :
  Forall entryOk cart -> entryOk (it_key item, item) ->
  Forall entryOk (upsertCart item cart).
Proof.
  intros Hcart Hitem. unfold upsertCart.
  destruct (JsMap.get (it_key item) cart) as [existing|] eqn:Hget.
  - apply Forall_set_pair; [done|].
    apply get_Some_elem in Hget.
    pose proof (proj1 (Forall_forall _ _) Hcart _ Hget) as Hex.
    apply entryOk_addQuantity; [done|].
    destruct Hex as (_ & _ & Hq1), Hitem as (_ & _ & Hq2). simpl in *. lia.
  - by apply Forall_set_pair.
Qed.

Lemma updateCart_entryOk k delta cart :
  Forall entryOk cart -> Forall entryOk (updateCart k delta cart).
Proof.
  intros Hcart. unfold updateCart.
  destruct (JsMap.get k cart) as [item|] eqn:Hget; [|done].
  case_decide as Hq.
  - by apply Forall_delete_pair.
  - apply Forall_set_pair; [done|].
    apply get_Some_elem in Hget.
    pose proof (proj1 (Forall_forall _ _) Hcart _ Hget) as Hex.
    apply entryOk_addQuantity; [done|]. simpl in Hq. lia.
Qed.

Lemma simpleItem_entryOk menuItemId name basePrice note :
  entryOk (buildItemKey menuItemId "base",
           {| it_key := buildItemKey menuItemId "base";
              it_menuItemId := menuItemId; it_name := name;
              it_unitPrice := basePrice; it_quantity := 1;
              it_note := note; it_selections := None |}).
Proof. split; [done|]. split; [by eexists | done]. Qed.

Lemma customizedItem_entryOk config st :
  sessionState config st ->
  entryOk (it_key (customizedItem st), customizedItem st).
Proof.
  intros Hs. split; [done|]. split; [by eexists|].
  by apply (session_quantity_pos config).
Qed.

Lemma pageState_entries p : pageState p -> Forall entryOk (orderState p).
Proof.
  induction 1 as [|mid name base p _ IH
                 |mid name base config descr p p' _ IH Hopen
                 |g oid checked p _ IH|checked p _ IH|delta p _ IH
                 |p Hp IH|p _ IH|k delta p _ IH|v p _ IH|o p _ IH].
  - constructor.
  - apply upsertCart_entryOk; [done | apply simpleItem_entryOk].
  - unfold openCustomization in Hopen.
    destruct (cfg_special config), (cfg_groups config);
      try (destruct (openedState _ _ _ _); [|done]);
      injection Hopen as <-; try done.
    apply upsertCart_entryOk; [done | apply simpleItem_entryOk].
  - unfold onModal. by destruct (modalState p).
  - unfold onModal. by destruct (modalState p).
  - unfold onModal. by destruct (modalState p).
  - unfold onAddClick. destruct (modalState p) as [st|] eqn:Hst; [|done].
    destruct (pageState_session p st Hp Hst) as [config Hs].
    destruct (validateSelections (Some st)) as [msg|];
      [case_decide|]; try done;
      (apply upsertCart_entryOk;
       [done | by apply (customizedItem_entryOk config)]).
  - done.
  - rewrite orderState_updateQuantity. by apply updateCart_entryOk.
  - done.
  - destruct o; simpl; try done; constructor.
Qed.

(** X11.  Whatever the user does on the page, every entry of the cart
    has a quantity of at least 1, is stored under its own [key] field,
    and that key starts with the entry's menu item id.  An entry is
    never left in the cart at quantity 0 or below, and looking an entry
    up by the key of a cart button finds the entry with that key. *)
Theorem cart_entries_are_well_formed (p : page) (k : string)
    (it : order_item) :
  pageState p ->
  Forall entryOk (orderState p)
  /\ (JsMap.get k (orderState p) = Some it ->
      it_key it = k
      /\ (1 <= it_quantity it)%Z
      /\ exists optionKey, k = buildItemKey (it_menuItemId it) optionKey).
Proof.
  intros Hp. pose proof (pageState_entries p Hp) as Hall.
  split; [done|]. intros Hget. apply get_Some_elem in Hget.
  destruct (proj1 (Forall_forall _ _) Hall _ Hget) as (Hk & Hb & Hq).
  by repeat split.
Qed.

Lemma tea_rice_clicked_page : pageState tea_rice_clicked.
Proof. apply page_add_simple, page_add_simple, (page_load "" "" "" true true). Qed.

Lemma cart_entries_are_well_formed_witness :
  Forall entryOk (orderState tea_rice_clicked)
  /\ (JsMap.get "3::base" (orderState tea_rice_clicked)
      = Some (simpleEntry 3 "Rice" 10 1) ->
      it_key (simpleEntry 3 "Rice" 10 1) = "3::base"
      /\ (1 <= it_quantity (simpleEntry 3 "Rice" 10 1))%Z
      /\ exists optionKey,
           "3::base"
           = buildItemKey (it_menuItemId (simpleEntry 3 "Rice" 10 1))
               optionKey).
Proof.
  apply (cart_entries_are_well_formed tea_rice_clicked "3::base"
           (simpleEntry 3 "Rice" 10 1)).
  apply tea_rice_clicked_page.
Defined.

(** ** Selections and the catalog *)

Lemma initializeSelections_distinct groups :
  NoDup (map g_id groups) ->
  initializeSelections groups
  = map (fun g => (g_id g, initialSelection g)) groups.
Proof.
  intros Hnd. unfold initializeSelections.
  rewrite (foldl_set_append g_id initialSelection groups []);
    [done|done|].
  intros a _. apply not_elem_of_nil.
Qed.

Lemma isSingle_initialSelection g :
  isSingle (initialSelection g) = groupIsSingle g.
Proof.
  unfold initialSelection, groupIsSingle. by destruct (g_selection_type g).
Qed.

Lemma keys_shape s : JsMap.keys (shape s) = JsMap.keys s.
Proof.
  unfold JsMap.keys, shape. rewrite map_map. by apply map_ext.
Qed.

(** X12.  For an item whose group ids are distinct, every state of a
    session holds exactly one selection per group of the item, in
    catalog order, and the selection of a group has the type of the
    group: single for a ["single"] group, multiple otherwise.  Change
    events never add, drop, reorder or retype a selection. *)
Theorem session_has_one_selection_per_group (config : menu_config)
    (st : modal_state) :
  NoDup (map g_id (cfg_groups config)) ->
  sessionState config st ->
  JsMap.keys (ms_selections st) = map g_id (cfg_groups config)
  /\ shape (ms_selections st)
     = map (fun g => (g_id g, groupIsSingle g)) (cfg_groups config)
  /\ forall g, g ∈ cfg_groups config ->
       exists sel,
         JsMap.get (g_id g) (ms_selections st) = Some sel
         /\ isSingle sel = groupIsSingle g.
Proof.
  intros Hnd Hs.
  destruct (session_inv config st Hs) as (_ & _ & Hshape).
  assert (shape (ms_selections st)
          = map (fun g => (g_id g, groupIsSingle g)) (cfg_groups config))
    as Hsh.
  { rewrite Hshape, initializeSelections_distinct by done.
    unfold shape. rewrite map_map. apply map_ext. intros g. simpl.
    by rewrite isSingle_initialSelection. }
  split; [|split; [done|]].
  - rewrite <-keys_shape, Hsh. unfold JsMap.keys. rewrite map_map.
    by apply map_ext.
  - intros g Hg.
    pose proof (get_shape (g_id g) (ms_selections st)) as Hget.
    rewrite Hsh in Hget.
    assert (JsMap.get (g_id g)
              (map (fun g => (g_id g, groupIsSingle g)) (cfg_groups config))
            = Some (groupIsSingle g)) as Hfound.
    { apply elem_get_ok.
      - unfold JsMap.ok, JsMap.keys. rewrite map_map.
        by rewrite (map_ext _ g_id) by done.
      - by apply (list_elem_of_fmap_2 (fun g => (g_id g, groupIsSingle g))). }
    rewrite Hfound in Hget.
    destruct (JsMap.get (g_id g) (ms_selections st)) as [sel|]; [|done].
    exists sel. split; [done|]. by injection Hget.
Qed.

Lemma session_has_one_selection_per_group_witness :
  JsMap.keys (ms_selections toppings_1_2) = [10%N]
  /\ shape (ms_selections toppings_1_2) = [(10%N, false)].
Proof.
  destruct (session_has_one_selection_per_group toppings_config
              toppings_1_2) as (Hkeys & Hshape & _).
  - concrete_nodup.
  - apply session_change, session_change, toppings_open_session.
  - split; [exact Hkeys | exact Hshape].
Defined.

Lemma session_groupIndex config st :
  sessionState config st ->
  ms_groupIndex st
  = JsMap.of_pairs (map (fun g => (g_id g, g)) (cfg_groups config)).
Proof.
  induction 1 as [mid name base st Hopen
                 |g oid checked st _ IH|checked st _ IH|delta st _ IH].
  - unfold openedState in Hopen.
    destruct (renderGroups _ _) as [sels|]; [|done].
    by injection Hopen as <-.
  - unfold onOptionChange.
    by destruct (JsMap.get g (ms_selections st)).
  - unfold onSpecialToggle. by destruct (ms_specialInfo st).
  - done.
Qed.

Lemma get_foldl_set_elem {A K V} `{EqDecision K} (key : A -> K)
    (val : A -> V) (l : list A) (m0 : list (K * V)) (k : K) (v : V) :
  JsMap.get k (foldl (fun m a => JsMap.set (key a) (val a) m) m0 l)
    = Some v ->
  (exists a, a ∈ l /\ key a = k /\ val a = v) \/ JsMap.get k m0 = Some v.
Proof.
  revert m0. induction l as [|a l IH]; intros m0; simpl; [by right|].
  intros Hget. destruct (IH _ Hget) as [(b & Hb & Hk & Hv)|Hm].
  - left. exists b. split; [by apply list_elem_of_further | done].
  - destruct (decide (key a = k)) as [Heq|Hne].
    + left. exists a. split; [apply list_elem_of_here|]. split; [done|].
      rewrite <-Heq, get_set_eq in Hm. by injection Hm.
    + right. by rewrite get_set_ne in Hm.
Qed.

Lemma get_groupIndex_elem groups k grp :
  JsMap.get k (JsMap.of_pairs (map (fun g => (g_id g, g)) groups))
    = Some grp ->
  grp ∈ groups /\ g_id grp = k.
Proof.
  unfold JsMap.of_pairs. intros Hget.
  apply (get_foldl_set_elem fst snd) in Hget
    as [([k' g'] & Hin & Hk & Hv)|Hnil]; [|done].
  simpl in *. subst.
  apply list_elem_of_fmap in Hin as (g & [= -> ->] & Hg). done.
Qed.

(** [getOptionData] answers with an option of a catalog group with the
    id it is asked for, and the id string of the option is the one it
    is asked for. *)
Lemma getOptionData_catalog config st groupId optionId od :
  sessionState config st ->
  getOptionData st groupId optionId = Some od ->
  optionIdString od = optionId
  /\ exists grp,
       grp ∈ cfg_groups config /\ g_id grp = groupId /\ od ∈ g_options grp.
Proof.
  intros Hs. unfold getOptionData.
  rewrite (session_groupIndex config st Hs).
  destruct (JsMap.get groupId _) as [grp|] eqn:Hget; [|done].
  apply get_groupIndex_elem in Hget as [Hgrp Hid].
  intros [Hin Hod]%find_some.
  apply bool_decide_eq_true_1 in Hod.
  split; [done|]. exists grp. split; [done|]. split; [done|].
  by apply list_elem_of_In.
Qed.

Lemma chosenOf_fromCatalog config grp o :
  grp ∈ cfg_groups config -> o ∈ g_options grp ->
  fromCatalog config (g_id grp) (chosenOf o).
Proof. intros Hg Ho. by exists grp, o. Qed.

Lemma initialSelection_fromCatalog config g :
  g ∈ cfg_groups config ->
  selectionFromCatalog config (g_id g, initialSelection g).
Proof.
  intros Hg. unfold selectionFromCatalog, initialSelection. simpl.
  destruct (g_selection_type g); simpl; [|constructor].
  destruct (g_is_required g); simpl; [|done].
  destruct (g_options g) as [|o rest] eqn:Hopts; simpl; [done|].
  apply chosenOf_fromCatalog; [done|]. rewrite Hopts.
  apply list_elem_of_here.
Qed.

Lemma Forall_foldl_set {A K V} `{EqDecision K} (Q : K * V -> Prop)
    (key : A -> K) (val : A -> V) (l : list A) (m0 : list (K * V)) :
  Forall Q m0 -> (forall a, a ∈ l -> Q (key a, val a)) ->
  Forall Q (foldl (fun m a => JsMap.set (key a) (val a) m) m0 l).
Proof.
  revert m0. induction l as [|a l IH]; intros m0 Hm Hl; simpl; [done|].
  apply IH.
  - apply Forall_set_pair; [done | apply Hl, list_elem_of_here].
  - intros b Hb. by apply Hl, list_elem_of_further.
Qed.

Lemma renderOption_fromCatalog config g sel io sel' :
  g ∈ cfg_groups config -> io.2 ∈ g_options g ->
  selectionFromCatalog config (g_id g, sel) ->
  renderOption g sel io = Some sel' ->
  selectionFromCatalog config (g_id g, sel').
Proof.
  intros Hg Hio Hsel. unfold renderOption.
  destruct (g_selection_type g), sel as [n cur|n m]; try done;
    try (by intros [= <-]).
  repeat case_match; intros [= <-]; try done.
  by apply chosenOf_fromCatalog.
Qed.

Lemma renderOptions_fromCatalog config g ios sel sel' :
  g ∈ cfg_groups config -> Forall (fun io => io.2 ∈ g_options g) ios ->
  selectionFromCatalog config (g_id g, sel) ->
  renderOptions g sel ios = Some sel' ->
  selectionFromCatalog config (g_id g, sel').
Proof.
  intros Hg Hios. revert sel.
  induction Hios as [|io ios Hio Hios IH]; intros sel Hsel; simpl.
  - by intros [= <-].
  - destruct (renderOption g sel io) as [sel1|] eqn:H1; [|done].
    apply IH. by eapply renderOption_fromCatalog.
Qed.

Lemma imap_pair_elem {A} (l : list A) :
  Forall (fun io : nat * A => io.2 ∈ l) (imap pair l).
Proof.
  apply Forall_forall. intros [i x] Hin.
  apply elem_of_lookup_imap in Hin as (j & y & [= -> ->] & Hy).
  simpl. by eapply list_elem_of_lookup_2.
Qed.

Lemma renderGroups_fromCatalog config groups s s' :
  (forall g, g ∈ groups -> g ∈ cfg_groups config) ->
  Forall (selectionFromCatalog config) s ->
  renderGroups groups s = Some s' ->
  Forall (selectionFromCatalog config) s'.
Proof.
  revert s. induction groups as [|g groups IH]; intros s Hsub Hs; simpl.
  - by intros [= <-].
  - destruct (renderGroup s g) as [s1|] eqn:H1; [|done].
    apply IH; [intros; by apply Hsub, list_elem_of_further|].
    unfold renderGroup in H1.
    destruct (JsMap.get (g_id g) s) as [sel|] eqn:Hget.
    + destruct (renderOptions g sel _) as [sel'|] eqn:Hr; [|done].
      injection H1 as <-. apply Forall_set_pair; [done|].
      eapply renderOptions_fromCatalog; [| |  |exact Hr].
      * apply Hsub, list_elem_of_here.
      * apply imap_pair_elem.
      * apply get_Some_elem in Hget.
        exact (proj1 (Forall_forall _ _) Hs _ Hget).
    + repeat case_match; try done; by injection H1 as <-.
Qed.

Lemma changeSelection_fromCatalog config st g oid checked sel :
  sessionState config st ->
  selectionFromCatalog config (g, sel) ->
  selectionFromCatalog config (g, changeSelection st g oid checked sel).
Proof.
  intros Hs Hsel. destruct sel as [n cur|n m]; simpl.
  - case_decide; [done|].
    destruct (getOptionData st g oid) as [od|] eqn:Hod; [|done].
    destruct (getOptionData_catalog _ _ _ _ _ Hs Hod)
      as (_ & grp & Hgrp & <- & Ho).
    by apply chosenOf_fromCatalog.
  - destruct checked.
    + destruct (getOptionData st g oid) as [od|] eqn:Hod; [|done].
      destruct (getOptionData_catalog _ _ _ _ _ Hs Hod)
        as (_ & grp & Hgrp & <- & Ho).
      unfold selectionFromCatalog. simpl.
      apply Forall_set_pair; [done|]. split; [|done].
      by apply chosenOf_fromCatalog.
    + unfold selectionFromCatalog. simpl. by apply Forall_delete_pair.
Qed.

Lemma session_fromCatalog config st :
  sessionState config st ->
  Forall (selectionFromCatalog config) (ms_selections st).
Proof.
  induction 1 as [mid name base st Hopen
                 |g oid checked st Hs IH|checked st _ IH|delta st _ IH].
  - unfold openedState in Hopen.
    destruct (renderGroups _ _) as [sels|] eqn:Hr; [|done].
    injection Hopen as <-. simpl.
    eapply renderGroups_fromCatalog; [|  |exact Hr]; [done|].
    apply Forall_foldl_set; [constructor|].
    intros g Hg. by apply initialSelection_fromCatalog.
  - unfold onOptionChange.
    destruct (JsMap.get g (ms_selections st)) as [sel|] eqn:Hget; [|done].
    simpl. apply Forall_set_pair; [done|].
    apply changeSelection_fromCatalog; [done|].
    apply get_Some_elem in Hget.
    exact (proj1 (Forall_forall _ _) IH _ Hget).
  - unfold onSpecialToggle. by destruct (ms_specialInfo st).
  - done.
Qed.

(** X13.  A session only ever holds options of the catalog: in every
    state of a session, each chosen option under a group id is the copy
    ([String(id)], name, [Number(price || 0)]) of an option that the
    catalog lists in a group with that id, so its price is the catalog
    price, and a multiple selection keeps each chosen option under its
    own id.  An option id that the group does not list changes
    nothing when it is ticked. *)
Theorem session_options_come_from_catalog (config : menu_config)
    (st : modal_state) (g : N) (sel : selection) (c : chosen) :
  sessionState config st ->
  JsMap.get g (ms_selections st) = Some sel ->
  (c ∈ chosenOptions sel ->
     exists grp o,
       grp ∈ cfg_groups config /\ g_id grp = g /\ o ∈ g_options grp
       /\ c_id c = optionIdString o /\ c_name c = o_name o
       /\ c_price c = numOr0 (o_price o))
  /\ (forall n opts, sel = SelMultiple n opts ->
        Forall (fun kv => kv.1 = c_id kv.2) opts)
  /\ (forall optionId, getOptionData st g optionId = None ->
        optionId <> "" ->
        ms_selections (onOptionChange g optionId true st)
        = ms_selections st).
Proof.
  intros Hs Hget.
  pose proof (session_fromCatalog config st Hs) as Hall.
  pose proof (proj1 (Forall_forall _ _) Hall _ (get_Some_elem _ _ _ Hget))
    as Hsel.
  unfold selectionFromCatalog in Hsel. simpl in Hsel.
  split; [|split].
  - intros Hc.
    assert (fromCatalog config g c) as (grp & o & Hgrp & Hid & Ho & ->).
    { destruct sel as [n [c0|]|n opts]; simpl in *.
      - apply list_elem_of_singleton in Hc as ->. done.
      - by apply elem_of_nil in Hc.
      - unfold JsMap.values in Hc.
        apply list_elem_of_fmap in Hc as ([k v] & -> & Hkv).
        by destruct (proj1 (Forall_forall _ _) Hsel _ Hkv). }
    by exists grp, o.
  - intros n opts ->. eapply Forall_impl; [exact Hsel|]. by intros kv [_ ?].
  - intros optionId Hnone Hne. unfold onOptionChange. rewrite Hget.
    simpl. destruct sel as [n cur|n opts]; simpl.
    + rewrite decide_False by done. rewrite Hnone. by apply set_same.
    + rewrite Hnone. by apply set_same.
Qed.

Lemma session_options_come_from_catalog_witness :
  exists grp o,
    grp ∈ cfg_groups toppings_config /\ g_id grp = 10%N
    /\ o ∈ g_options grp
    /\ c_id (Chosen "2" "Pork" 15) = optionIdString o
    /\ c_name (Chosen "2" "Pork" 15) = o_name o
    /\ c_price (Chosen "2" "Pork" 15) = numOr0 (o_price o).
Proof.
  destruct (session_options_come_from_catalog toppings_config toppings_1_2
              10 (SelMultiple "Toppings"
                    [("1", Chosen "1" "Egg" 10); ("2", Chosen "2" "Pork" 15)])
              (Chosen "2" "Pork" 15)) as (Hfrom & _).
  - apply session_change, session_change, toppings_open_session.
  - reflexivity.
  - apply Hfrom. simpl. apply list_elem_of_further, list_elem_of_here.
Defined.

(** ** Ticking and unticking *)

Lemma delete_app_last {K V} `{EqDecision K} (k : K) (v : V) m :
  JsMap.get k m = None -> JsMap.delete k (m ++ [(k, v)]) = m.
Proof.
  induction m as [|[k0 v0] m IH]; simpl.
  - intros _. by rewrite decide_True.
  - destruct (decide (k0 = k)) as [->|Hne]; [done|].
    intros Hget. by rewrite IH.
Qed.

Lemma tick_untick_selections st g n opts oid :
  JsMap.get g (ms_selections st) = Some (SelMultiple n opts) ->
  oid ∉ JsMap.keys opts ->
  ms_selections (onOptionChange g oid false (onOptionChange g oid true st))
  = ms_selections st.
Proof.
  intros Hget Hnew. apply get_None_keys in Hnew.
  assert (exists opts1,
            ms_selections (onOptionChange g oid true st)
            = JsMap.set g (SelMultiple n opts1) (ms_selections st)
            /\ JsMap.delete oid opts1 = opts) as (opts1 & Hticked & Hdel).
  { unfold onOptionChange. rewrite Hget. simpl.
    destruct (getOptionData st g oid) as [od|] eqn:Hod.
    - eexists. split; [reflexivity|].
      unfold getOptionData in Hod.
      destruct (JsMap.get g (ms_groupIndex st)); [|done].
      apply find_some in Hod as [_ Hid].
      apply bool_decide_eq_true_1 in Hid. rewrite Hid.
      rewrite set_absent by done. by apply delete_app_last.
    - exists opts. split; [done | by apply delete_absent]. }
  unfold onOptionChange at 1. rewrite Hticked, get_set_eq. simpl.
  rewrite Hdel, set_set. by apply set_same.
Qed.

Lemma onOptionChange_eq g oid checked st sel :
  JsMap.get g (ms_selections st) = Some sel ->
  onOptionChange g oid checked st
  = updateModalSummary
      (setSelections
         (JsMap.set g (changeSelection st g oid checked sel)
            (ms_selections st)) st).
Proof. unfold onOptionChange. by intros ->. Qed.

Lemma updateModalSummary_twice s s1 st :
  updateModalSummary
    (setSelections s (updateModalSummary (setSelections s1 st)))
  = updateModalSummary (setSelections s st).
Proof. done. Qed.

Lemma updateModalSummary_current st :
  ms_currentUnitPrice st = Some (summaryUnitPrice st) ->
  updateModalSummary (setSelections (ms_selections st) st) = st.
Proof.
  intros Hprice. destruct st.
  unfold updateModalSummary, setCurrentUnitPrice, setSelections.
  simpl in *. by rewrite Hprice.
Qed.

(** X14.  Ticking an option of a multiple-selection group that was not
    ticked and unticking it again gives back the selections as they
    were, with the same order of the remaining options, and hence the
    same option key; in a session the whole state, unit price included,
    is the one before.  This also holds for an option id the group does
    not list, for which neither event changes anything. *)
Theorem tick_then_untick_restores (config : menu_config)
    (st : modal_state) (g : N) (n : string) (opts : jsmap string chosen)
    (optionId : string) :
  sessionState config st ->
  JsMap.get g (ms_selections st) = Some (SelMultiple n opts) ->
  optionId ∉ JsMap.keys opts ->
  ms_selections
    (onOptionChange g optionId false (onOptionChange g optionId true st))
  = ms_selections st
  /\ onOptionChange g optionId false (onOptionChange g optionId true st)
     = st.
Proof.
  intros Hs Hget Hnew.
  pose proof (tick_untick_selections st g n opts optionId Hget Hnew) as Hsel.
  split; [done|].
  pose proof (session_price config st Hs) as Hprice.
  destruct (JsMap.get g (ms_selections (onOptionChange g optionId true st)))
    as [sel1|] eqn:Hget1.
  - rewrite (onOptionChange_eq _ _ _ _ _ Hget1).
    rewrite (onOptionChange_eq _ _ _ _ _ Hget1) in Hsel.
    cbn [ms_selections updateModalSummary setCurrentUnitPrice setSelections]
      in Hsel.
    rewrite Hsel. rewrite (onOptionChange_eq _ _ _ _ _ Hget).
    rewrite updateModalSummary_twice.
    by apply updateModalSummary_current.
  - exfalso. revert Hget1. rewrite (onOptionChange_eq _ _ _ _ _ Hget).
    cbn [ms_selections updateModalSummary setCurrentUnitPrice setSelections].
    by rewrite get_set_eq.
Qed.

Lemma tick_then_untick_restores_witness :
  onOptionChange 10 "2" false (onOptionChange 10 "2" true toppings_12)
  = toppings_12.
Proof.
  destruct (tick_then_untick_restores toppings_config toppings_12 10
              "Toppings" [("12", Chosen "12" "Tofu" 5)] "2")
    as (_ & Hstate).
  - apply session_change, toppings_open_session.
  - reflexivity.
  - simpl. rewrite list_elem_of_singleton. discriminate.
  - exact Hstate.
Defined.

(** ** Validation of a freshly opened session *)

Lemma violation_initial g :
  g_is_required g = true ->
  violation g (initialSelection g)
  = if needsAnswer g then Some (violationMessage g (initialSelection g))
    else None.
Proof.
  intros Hreq. unfold needsAnswer, initialSelection. rewrite Hreq. simpl.
  destruct (g_selection_type g); simpl; [|done].
  by destruct (g_options g).
Qed.

Lemma validateEntries_initial index groups :
  (forall g, g ∈ groups -> JsMap.get (g_id g) index = Some g) ->
  validateEntries index (map (fun g => (g_id g, initialSelection g)) groups)
  = match List.find needsAnswer groups with
    | Some g => Some (violationMessage g (initialSelection g))
    | None => None
    end.
Proof.
  induction groups as [|g groups IH]; intros Hidx; simpl; [done|].
  rewrite (Hidx g) by apply list_elem_of_here.
  assert (validateEntries index
            (map (fun g => (g_id g, initialSelection g)) groups)
          = match List.find needsAnswer groups with
            | Some g => Some (violationMessage g (initialSelection g))
            | None => None
            end) as IH'.
  { apply IH. intros g' Hg'. by apply Hidx, list_elem_of_further. }
  destruct (g_is_required g) eqn:Hreq.
  - rewrite violation_initial by done.
    by destruct (needsAnswer g).
  - unfold needsAnswer. by rewrite Hreq.
Qed.

Lemma find_Forall_false {A} (f : A -> bool) (l : list A) :
  Forall (fun x => f x = false) l -> List.find f l = None.
Proof.
  induction l as [|x l IH]; simpl; [done|].
  intros [Hx Hl]%Forall_cons. rewrite Hx. by apply IH.
Qed.

(** X15.  For an item with distinct group ids, validation of the
    session as it opens fails exactly when some group needs an answer:
    a required multiple-selection group, or a required single group
    without options.  The error then names the first such group in
    catalog order.  When no group needs an answer (every required
    group is a single group with options, which gets its default), the
    add button puts the item into the cart straight away and closes
    the session. *)
Theorem opened_session_validation (menuItemId : N) (name : string)
    (basePrice : Q) (config : menu_config) (p : page) :
  NoDup (map g_id (cfg_groups config)) ->
  exists st,
    openedState menuItemId name basePrice config = Some st
    /\ validateSelections (Some st)
       = match List.find needsAnswer (cfg_groups config) with
         | Some g => Some (violationMessage g (initialSelection g))
         | None => None
         end
    /\ (Forall (fun g => needsAnswer g = false) (cfg_groups config) ->
        validateSelections (Some st) = None
        /\ onAddClick (withModal (Some st) false p)
           = closeCustomization
               (addCustomizedItem st (withModal (Some st) false p))).
Proof.
  intros Hnd. eexists. split; [by apply openedState_distinct|].
  assert (validateSelections
            (Some (updateModalSummary
                     (setSelections
                        (initializeSelections (cfg_groups config))
                        (newModalState menuItemId name basePrice config))))
          = match List.find needsAnswer (cfg_groups config) with
            | Some g => Some (violationMessage g (initialSelection g))
            | None => None
            end) as Hval.
  { simpl. rewrite initializeSelections_distinct by done.
    apply validateEntries_initial. intros g Hg.
    by apply get_groupIndex. }
  split; [exact Hval|]. intros Hnone.
  assert (List.find needsAnswer (cfg_groups config) = None) as Hfind.
  { by apply find_Forall_false. }
  rewrite Hfind in Hval. split; [exact Hval|].
  unfold onAddClick. cbn [modalState withModal]. by rewrite Hval.
Qed.

Lemma opened_session_validation_witness :
  exists st,
    openedState 7 "Dumplings" 60 sauce_config = Some st
    /\ validateSelections (Some st) = Some (msgChooseSome +:+ "Sauce").
Proof.
  destruct (opened_session_validation 7 "Dumplings" 60 sauce_config
              emptyPage) as (st & Hopen & Hval & _).
  - concrete_nodup.
  - exists st. split; [exact Hopen | exact Hval].
Defined.

(** ** Status line and submit button *)

Lemma strOr_nonempty s d : d <> "" -> strOr s d <> "".
Proof. intros Hd. unfold strOr. by case_decide. Qed.

Lemma optStrOr_nonempty o d : d <> "" -> optStrOr o d <> "".
Proof. intros Hd. destruct o; simpl; [by apply strOr_nonempty | done]. Qed.

Lemma notOkMessage_nonempty body : notOkMessage body <> "".
Proof.
  destruct body; simpl.
  - by apply optStrOr_nonempty, optStrOr_nonempty.
  - by apply strOr_nonempty.
Qed.

Lemma strOr_id s d : s <> "" -> strOr s d = s.
Proof. intros Hs. unfold strOr. by rewrite decide_False. Qed.

(** X16.  After a submission attempt the status line is never empty.
    On success it is the thank-you text.  On a response that is not ok
    it is the [description] of the JSON body if that is not empty,
    else its [message] if that is not empty, else the standard failure
    text; for a body that is no JSON it is the body text, or the
    standard failure text when the body is empty.  When the request or
    the reading of the answer fails it is the message of the error, or
    the retry text when the error has none. *)
Theorem submit_status_is_never_empty (o : submit_outcome) (p : page)
    (d m t : string) :
  orderStatusMessage (submitOrder o p) <> ""
  /\ orderStatusMessage (submitOrder ResponseOk p) = msgSubmitted
  /\ (d <> "" ->
      orderStatusMessage
        (submitOrder (ResponseNotOk (BodyJson (Some d) (Some m))) p) = d)
  /\ (m <> "" ->
      orderStatusMessage
        (submitOrder (ResponseNotOk (BodyJson None (Some m))) p) = m
      /\ orderStatusMessage
           (submitOrder (ResponseNotOk (BodyJson (Some "") (Some m))) p)
         = m)
  /\ orderStatusMessage (submitOrder (ResponseNotOk (BodyJson None None)) p)
     = msgSubmitFailed
  /\ (t <> "" ->
      orderStatusMessage (submitOrder (ResponseNotOk (BodyText t)) p) = t)
  /\ orderStatusMessage (submitOrder (ResponseNotOk (BodyText "")) p)
     = msgSubmitFailed
  /\ (t <> "" ->
      orderStatusMessage (submitOrder (FetchRejected t) p) = t)
  /\ orderStatusMessage (submitOrder (FetchRejected "") p) = msgRetry.
Proof.
  split.
  { destruct o; simpl; try done.
    - by apply strOr_nonempty.
    - apply strOr_nonempty. done.
    - by apply strOr_nonempty. }
  split; [done|]. simpl.
  repeat split; intros; unfold optStrOr, strOr;
    repeat case_decide; done || congruence.
Qed.

Lemma upsertCart_nonempty item cart : JsMap.size (upsertCart item cart) <> 0.
Proof.
  assert (is_Some (JsMap.get (it_key item) (upsertCart item cart))) as [v Hv].
  { unfold upsertCart.
    destruct (JsMap.get (it_key item) cart); rewrite get_set_eq; eauto. }
  by destruct (upsertCart item cart).
Qed.

Lemma nonempty_size {K V} (m : list (K * V)) :
  m <> [] -> bool_decide (JsMap.size m = 0) = false.
Proof. intros Hm. apply bool_decide_eq_false_2. by destruct m. Qed.

Lemma upsertOrderItem_enabled item p :
  submitDisabled (upsertOrderItem item p) = false.
Proof.
  simpl. apply bool_decide_eq_false_2, upsertCart_nonempty.
Qed.

(** Whatever the markup shows at load, a cart with an entry has the
    submit button enabled in every state of the page. *)
Lemma pageState_submit_button p :
  pageState p -> orderState p <> [] -> submitDisabled p = false.
Proof.
  induction 1 as [|mid name base p _ IH
                 |mid name base config descr p p' _ IH Hopen
                 |g oid checked p _ IH|checked p _ IH|delta p _ IH
                 |p _ IH|p _ IH|k delta p _ IH|v p _ IH|o p _ IH].
  - done.
  - intros _. apply upsertOrderItem_enabled.
  - unfold openCustomization in Hopen.
    destruct (cfg_special config), (cfg_groups config);
      try (destruct (openedState _ _ _ _); [|done]);
      injection Hopen as <-; try exact IH.
    intros _. apply upsertOrderItem_enabled.
  - unfold onModal. by destruct (modalState p).
  - unfold onModal. by destruct (modalState p).
  - unfold onModal. by destruct (modalState p).
  - unfold onAddClick. destruct (modalState p) as [st|]; [|done].
    destruct (validateSelections (Some st)) as [msg|];
      [destruct (decide (msg = ""))|]; try exact IH;
      intros _; apply upsertOrderItem_enabled.
  - done.
  - unfold updateQuantity.
    destruct (JsMap.get k (orderState p)); [|done].
    simpl. apply nonempty_size.
  - done.
  - intros Hne. unfold submitOrder, submitFinish in *.
    destruct (thrownMessage o); simpl in *; [by apply nonempty_size | done].
Qed.

(** X17.  In every state of the page reached by complete events, and
    whatever the markup of the page shows at load, a cart with an entry
    has the submit button enabled.  Every handler that renders the cart
    sets the button from the cart alone, on any page: after an item is
    added it is enabled, after the quantity of an entry is changed and
    after a submission has been answered it is disabled exactly when
    the cart is empty, so a failed submission of a cart with an entry
    enables it again and a successful one disables it. *)
Theorem submit_button_follows_cart (p q : page) (o : submit_outcome)
    (item existing : order_item) (itemKey : string) (delta : Z) :
  pageState p ->
  (orderState p <> [] -> submitDisabled p = false)
  /\ submitDisabled (upsertOrderItem item q) = false
  /\ (JsMap.get itemKey (orderState q) = Some existing ->
      submitDisabled (updateQuantity itemKey delta q)
      = bool_decide
          (JsMap.size (orderState (updateQuantity itemKey delta q)) = 0))
  /\ submitDisabled (submitOrder o q)
     = bool_decide (JsMap.size (orderState (submitOrder o q)) = 0)
  /\ (o <> ResponseOk -> orderState q <> [] ->
      submitDisabled (submitOrder o q) = false)
  /\ submitDisabled (submitOrder ResponseOk q) = true.
Proof.
  intros Hp. split; [by apply pageState_submit_button|].
  split; [apply upsertOrderItem_enabled|].
  split.
  { intros Hget. unfold updateQuantity. by rewrite Hget. }
  split; [done|]. split; [|done].
  intros Ho Hne. destruct o; simpl; try done; by apply nonempty_size.
Qed.

Lemma submit_button_follows_cart_witness :
  submitDisabled tea_rice_clicked = false
  /\ submitDisabled (submitOrder (FetchRejected "offline") tea_rice_clicked)
     = false
  /\ submitDisabled (submitOrder ResponseOk tea_rice_clicked) = true.
Proof.
  destruct (submit_button_follows_cart tea_rice_clicked tea_rice_clicked
              (FetchRejected "offline") tea tea "1::base" 1
              tea_rice_clicked_page)
    as (Hfull & _ & _ & _ & Hfail & _).
  split; [by apply Hfull|]. split; [by apply Hfail | reflexivity].
Defined.

(** X18.  While a submission is pending the submit button is disabled,
    but [renderOrder] sets it from the cart alone: any change of the
    cart in the meantime that leaves an entry (an item added, a
    quantity changed without emptying the cart) enables the button
    again before the answer has arrived. *)
Theorem pending_submit_button_is_re_enabled (item : order_item)
    (itemKey : string) (delta : Z) (existing : order_item) (p : page) :
  submitDisabled (submitStart p) = true
  /\ submitDisabled (upsertOrderItem item (submitStart p)) = false
  /\ (JsMap.get itemKey (orderState p) = Some existing ->
      (0 < it_quantity existing + delta)%Z ->
      submitDisabled (updateQuantity itemKey delta (submitStart p)) = false).
Proof.
  split; [done|]. split.
  - simpl. apply bool_decide_eq_false_2, upsertCart_nonempty.
  - intros Hget Hpos. unfold updateQuantity.
    cbn [orderState submitStart withStatus withSubmitDisabled].
    rewrite Hget. simpl. apply bool_decide_eq_false_2.
    rewrite (updateCart_stays _ _ _ _ Hget Hpos).
    assert (is_Some (JsMap.get itemKey
              (JsMap.set itemKey (addQuantity delta existing)
                 (orderState p)))) as [v Hv]
      by (rewrite get_set_eq; eauto).
    by destruct (JsMap.set itemKey (addQuantity delta existing)
                   (orderState p)).
Qed.

(** ** Polling *)

Lemma ensurePolling_oneTimer s : oneTimer s -> oneTimer (ensurePolling s).
Proof.
  unfold oneTimer, ensurePolling.
  destruct (pollHandle s) as [h|] eqn:Hh; [by rewrite Hh|].
  simpl. by intros ->.
Qed.

Lemma stopPolling_oneTimer s : oneTimer s -> oneTimer (stopPolling s).
Proof.
  unfold oneTimer, stopPolling.
  destruct (pollHandle s) as [h|] eqn:Hh; [|by rewrite Hh].
  simpl. intros ->. by rewrite filter_cons_False by (intros Hne; by apply Hne).
Qed.

Lemma fetchActiveOrders_oneTimer r s :
  oneTimer s -> oneTimer (fetchActiveOrders r s).
Proof.
  intros Hs. destruct r as [|orders]; simpl; [done|].
  destruct orders as [|order orders]; simpl.
  - by apply stopPolling_oneTimer.
  - destruct (_ && _); [by apply ensurePolling_oneTimer | done].
Qed.

Lemma pollerRun_oneTimer (rs : list orders_response) s :
  oneTimer s -> oneTimer (pollerRun rs s).
Proof.
  unfold pollerRun. revert s.
  induction rs as [|r rs IH]; intros s Hs; simpl; [done|].
  by apply IH, fetchActiveOrders_oneTimer.
Qed.

Lemma cardsBuild_forallb orders :
  cardsBuild orders
  <-> forallb (fun order => bool_decide (is_Some (buildOrderCard order)))
              orders = true.
Proof.
  unfold cardsBuild. rewrite forallb_forall, Forall_forall.
  split; intros H order Hin.
  - apply bool_decide_eq_true_2, H. by apply list_elem_of_In.
  - apply list_elem_of_In in Hin.
    exact (bool_decide_eq_true_1 _ (H order Hin)).
Qed.

(** X19.  The page never runs more than one polling timer.  Starting
    from a state where the running timers are the one in [pollHandle],
    this stays so after the answers to any sequence of requests for the
    active orders.  An answer without orders hides the section and
    stops the timer.  An answer with orders whose cards can all be
    built shows the section and leaves exactly one timer running, the
    one that was already running if there was one.  An answer with an
    order whose card cannot be built (a [null] order or item) shows the
    section as well, but the error is caught before [ensurePolling] is
    reached: the timers stay as they were, so that no timer is started
    if none was running.  A failed request changes nothing. *)
Theorem polling_uses_one_timer (rs : list orders_response)
    (orders : list active_order) (s : poller) :
  oneTimer s ->
  oneTimer (pollerRun rs s)
  /\ length (intervals (pollerRun rs s)) <= 1
  /\ (pollHandle (fetchActiveOrders (OrdersOk []) s) = None
      /\ intervals (fetchActiveOrders (OrdersOk []) s) = []
      /\ activeOrdersHidden (fetchActiveOrders (OrdersOk []) s) = true)
  /\ (orders <> [] -> cardsBuild orders ->
      is_Some (pollHandle (fetchActiveOrders (OrdersOk orders) s))
      /\ length (intervals (fetchActiveOrders (OrdersOk orders) s)) = 1
      /\ activeOrdersHidden (fetchActiveOrders (OrdersOk orders) s) = false
      /\ (is_Some (pollHandle s) ->
          pollHandle (fetchActiveOrders (OrdersOk orders) s) = pollHandle s
          /\ intervals (fetchActiveOrders (OrdersOk orders) s)
             = intervals s))
  /\ (orders <> [] -> ~ cardsBuild orders ->
      activeOrdersHidden (fetchActiveOrders (OrdersOk orders) s) = false
      /\ pollHandle (fetchActiveOrders (OrdersOk orders) s) = pollHandle s
      /\ intervals (fetchActiveOrders (OrdersOk orders) s) = intervals s)
  /\ fetchActiveOrders OrdersFailed s = s.
Proof.
  intros Hs.
  pose proof (pollerRun_oneTimer rs s Hs) as Hrun.
  split; [done|]. split.
  { unfold oneTimer in Hrun. rewrite Hrun.
    destruct (pollHandle (pollerRun rs s)); simpl; lia. }
  unfold oneTimer in Hs.
  split.
  { unfold fetchActiveOrders, renderActiveOrders, stopPolling,
      setActiveOrdersHidden. simpl.
    destruct (pollHandle s) as [h|] eqn:Hh; simpl; rewrite ?Hh, Hs; simpl;
      [|done].
    by rewrite filter_cons_False by (intros Hne; by apply Hne). }
  split; [|split; [|done]].
  - intros Hne Hcards. apply cardsBuild_forallb in Hcards.
    destruct orders as [|order orders]; [done|].
    unfold fetchActiveOrders, renderActiveOrders. rewrite Hcards.
    unfold ensurePolling, setActiveOrdersHidden. simpl.
    destruct (pollHandle s) as [h|] eqn:Hh; simpl; rewrite ?Hh, Hs; simpl.
    + split; [eauto|]. split; [done|]. split; [done|]. done.
    + split; [eauto|]. split; [done|]. split; [done|].
      by intros [? ?].
  - intros Hne Hcards.
    destruct orders as [|order orders]; [done|].
    unfold fetchActiveOrders, renderActiveOrders.
    destruct (forallb _ (order :: orders)) eqn:Hall.
    + exfalso. by apply Hcards, cardsBuild_forallb.
    + done.
Qed.

Lemma polling_uses_one_timer_witness :
  intervals
    (pollerRun [OrdersOk [OrderData [true]];
                OrdersOk [OrderData [true]; OrderData []]; OrdersFailed]
       idlePoller)
  = [1%positive]
  /\ intervals
       (pollerRun [OrdersOk [OrderData [true]]; OrdersOk [];
                   OrdersOk [OrderData []]] idlePoller)
     = [2%positive]
  /\ pollerRun [OrdersOk [OrderData [true]; OrderMissing]] idlePoller
     = setActiveOrdersHidden false idlePoller
  /\ oneTimer
       (pollerRun [OrdersOk [OrderData [true]]; OrdersOk [];
                   OrdersOk [OrderData []]] idlePoller).
Proof.
  destruct (polling_uses_one_timer
              [OrdersOk [OrderData [true]]; OrdersOk [];
               OrdersOk [OrderData []]] [] idlePoller eq_refl)
    as (Hone & _).
  split; [reflexivity|]. split; [reflexivity|].
  split; [reflexivity | exact Hone].
Defined.

(** ** Cancelling a session *)

Lemma modalEvent_frame e p :
  closeCustomization (modalEvent e p) = closeCustomization p.
Proof.
  destruct e; simpl; unfold onModal; by destruct (modalState p).
Qed.

Lemma modalEvents_frame es p :
  closeCustomization (modalEvents es p) = closeCustomization p.
Proof.
  unfold modalEvents. revert p.
  induction es as [|e es IH]; intros p; simpl; [done|].
  by rewrite IH, modalEvent_frame.
Qed.

(** X20.  Cancelling discards the session without a trace: opening the
    customization of an item with groups or a special option, any
    sequence of option changes, special toggles and quantity clicks in
    the modal, and then closing it leaves the page as if it had been
    closed without being opened.  The cart, the total, the note, the
    status line and the submit button are those from before. *)
Theorem cancelled_session_leaves_no_trace (menuItemId : N)
    (name description : string) (basePrice : Q) (config : menu_config)
    (es : list modal_event) (p p1 : page) :
  cfg_groups config <> [] \/ is_Some (cfg_special config) ->
  openCustomization menuItemId name basePrice config description p
    = Some p1 ->
  closeCustomization (modalEvents es p1) = closeCustomization p
  /\ orderState (modalEvents es p1) = orderState p
  /\ noteField (modalEvents es p1) = noteField p
  /\ submitDisabled (modalEvents es p1) = submitDisabled p
  /\ modalState (closeCustomization (modalEvents es p1)) = None.
Proof.
  intros Hcfg Hopen.
  assert (closeCustomization p1 = closeCustomization p) as Hp1.
  { unfold openCustomization in Hopen.
    destruct (cfg_special config) as [sp|], (cfg_groups config) as [|g gs];
      try (destruct (openedState _ _ _ _); [|done]);
      try (by injection Hopen as <-).
    destruct Hcfg as [?|[? ?]]; done. }
  assert (closeCustomization (modalEvents es p1) = closeCustomization p)
    as Hclose by by rewrite modalEvents_frame.
  split; [done|].
  split; [exact (f_equal orderState Hclose)|].
  split; [exact (f_equal noteField Hclose)|].
  split; [exact (f_equal submitDisabled Hclose) | done].
Qed.

Lemma cancelled_session_leaves_no_trace_witness :
  closeCustomization
    (modalEvents [EvOptionChange 10 "1" true; EvQuantity 2]
       (withModal (Some toppings_open) false tea_rice_clicked))
  = closeCustomization tea_rice_clicked.
Proof.
  destruct (cancelled_session_leaves_no_trace 5 "Noodles" "" 40
              toppings_config
              [EvOptionChange 10 "1" true; EvQuantity 2]
              tea_rice_clicked
              (withModal (Some toppings_open) false tea_rice_clicked))
    as (Hclose & _).
  - left. discriminate.
  - reflexivity.
  - exact Hclose.
Defined.
